(** * helmhound: path addressing, value mutation and structural diff

    A shallow embedding of the tree algorithms of the [helmwrap] and
    [yamldiff] packages, followed by the properties they satisfy.

    - Module [Go]: the fragment of the Go value universe that a decoded
      YAML document inhabits (the dynamic values stored in an
      [interface{}]), errors, integer wrap-around, rune conversion.
    - Module [Tree]: the algorithms over trees ([extractPaths],
      [getValueAtPath], [setValueAtPath], [modifyValueAtPath],
      [compareValues], [findDifferencesWithValues],
      [FormatValueReferences]).
    - Module [Store]: [getValueAtPath], [copyMap], [copySlice],
      [setValueAtPath] and [modifyValueAtPath] on mappings and sequences
      that are references into a store, updated in place as in the
      source.
    - Module [Strings]: the functions of the standard library's
      [strings] that the packages call.
    - Modules [Values], [Client] and [Yamldiff]: the other functions of
      the packages that work on strings, trees and lists
      ([FilterValuesByPrefix], [getIndentLevel], [extractManifestPath];
      [extractChartNameFromURL], [deepMergeMap], the end of
      [mergeValues], the cache entries; [extractManifestKey],
      [CompareYAMLGrouped], [CompareYAMLGroupedDetailed]).  What reads
      files, runs Helm or [fzf], decodes YAML or compiles a regular
      expression is not modelled.
    - Modules [Mutation] and [Differ]: vocabulary of the further
      properties.

    Strings are byte strings, as in Go.  The loops that range over a
    string rune by rune ([splitPath], [extractManifestKey]) only test for
    the ASCII character ['.'] and copy every other rune back, so on valid
    UTF-8 they act byte by byte; they are modelled that way. *)

From Stdlib Require Import ZArith Ascii Floats.SpecFloat.
From stdpp Require Import gmap strings list fin_maps pretty.

#[local] Set Warnings "-register-all,-clear-no-such-hyp".

(* ===================================================================== *)
(** ** Go values                                                         *)
(* ===================================================================== *)

Module Go.

(** The integer types that [determineValueType] and [modifyValueAtPath]
    enumerate. *)
Inductive intkind :=
| KInt | KInt8 | KInt16 | KInt32 | KInt64
| KUint | KUint8 | KUint16 | KUint32 | KUint64.

Inductive floatkind := KFloat32 | KFloat64.

#[global] Instance intkind_eq_dec : EqDecision intkind.
Proof. solve_decision. Defined.
#[global] Instance floatkind_eq_dec : EqDecision floatkind.
Proof. solve_decision. Defined.

Definition bits (k : intkind) : Z :=
  match k with
  | KInt8 | KUint8 => 8
  | KInt16 | KUint16 => 16
  | KInt32 | KUint32 => 32
  | KInt | KInt64 | KUint | KUint64 => 64
  end.

Definition signed (k : intkind) : bool :=
  match k with
  | KInt | KInt8 | KInt16 | KInt32 | KInt64 => true
  | _ => false
  end.

(** Two's complement wrap-around of an arithmetic result at kind [k]. *)
Definition wrap (k : intkind) (z : Z) : Z :=
  if signed k
  then (z + 2 ^ (bits k - 1)) mod 2 ^ bits k - 2 ^ (bits k - 1)
  else z mod 2 ^ bits k.

(** A dynamic value: what an [interface{}] holds after decoding.  [VNil]
    is the nil interface; a mapping is a [map[string]interface{}] and a
    sequence a [[]interface{}].  The decoder also produces values of
    other dynamic types (a [map[interface{}]interface{}] for a mapping
    with a key that is not a string, a [time.Time] for a timestamp); the
    type switches of the packages have no case for them, so that no
    function walks into them, and they have no constructor here.  The
    properties are about trees of mappings with string keys, sequences
    and scalars, and a location of a tree is what is reached through such
    mappings and sequences. *)
Inductive value :=
| VNil
| VString (s : string)
| VInt (k : intkind) (n : Z)
| VFloat (k : floatkind) (f : spec_float)
| VBool (b : bool)
| VSlice (xs : list value)
| VMap (m : gmap string value).

(** [reflect.TypeOf] *)
Inductive gotype :=
| TNil | TString | TInt (k : intkind) | TFloat (k : floatkind) | TBool
| TSlice | TMap.

#[global] Instance gotype_eq_dec : EqDecision gotype.
Proof. solve_decision. Defined.

Definition TypeOf (v : value) : gotype :=
  match v with
  | VNil => TNil
  | VString _ => TString
  | VInt k _ => TInt k
  | VFloat k _ => TFloat k
  | VBool _ => TBool
  | VSlice _ => TSlice
  | VMap _ => TMap
  end.

Definition is_nil (v : value) : bool :=
  match v with VNil => true | _ => false end.

(** The errors the packages build with [fmt.Errorf], one constructor per
    message, and the run-time panic of an index out of range. *)
Inductive error :=
| KeyNotFound (key : string)      (* key '%s' not found *)
| NotMapAccess (key : string)     (* cannot access key '%s' on non-map type *)
| EmptyPath                       (* empty path *)
| NonMapNavigate (key : string)   (* cannot navigate through non-map value at key '%s' *)
| ExpectedString (path : string)  (* expected string value at path %s *)
| ExpectedNumeric (path : string) (* expected numeric value at path %s *)
| ExpectedBoolean (path : string) (* expected boolean value at path %s *)
| ExpectedSlice (path : string)   (* expected slice value at path %s *)
| ExpectedMap (path : string)     (* expected map value at path %s *)
| Unsupported.                    (* unsupported value type for modification: %v *)

Inductive result (A : Type) :=
| Ok (a : A)
| Err (e : error)
| Panic.
Arguments Ok {A} a.
Arguments Err {A} e.
Arguments Panic {A}.

#[global] Instance result_ret : MRet result := λ A a, Ok a.
#[global] Instance result_bind : MBind result := λ A B f r,
  match r with
  | Ok a => f a
  | Err e => Err e
  | Panic => Panic
  end.

(** [strconv.Itoa] and the [%d] verb of [fmt.Sprintf]. *)
Definition Itoa (i : Z) : string := pretty i.

(** A single byte as a string. *)
Definition byte (n : Z) : string := String (Ascii.ascii_of_N (Z.to_N n)) "".

(** [string(rune(r))]: the UTF-8 encoding of the code point [r], and of
    U+FFFD when [r] is not a valid code point. *)
Definition rune_string (r : Z) : string :=
  if bool_decide (r < 0 ∨ 0x10FFFF < r ∨ 0xD800 ≤ r ≤ 0xDFFF)%Z
  then byte 0xEF +:+ byte 0xBF +:+ byte 0xBD
  else if bool_decide (r < 0x80)%Z then byte r
  else if bool_decide (r < 0x800)%Z
  then byte (Z.lor 0xC0 (Z.shiftr r 6)) +:+
       byte (Z.lor 0x80 (Z.land r 0x3F))
  else if bool_decide (r < 0x10000)%Z
  then byte (Z.lor 0xE0 (Z.shiftr r 12)) +:+
       byte (Z.lor 0x80 (Z.land (Z.shiftr r 6) 0x3F)) +:+
       byte (Z.lor 0x80 (Z.land r 0x3F))
  else byte (Z.lor 0xF0 (Z.shiftr r 18)) +:+
       byte (Z.lor 0x80 (Z.land (Z.shiftr r 12) 0x3F)) +:+
       byte (Z.lor 0x80 (Z.land (Z.shiftr r 6) 0x3F)) +:+
       byte (Z.lor 0x80 (Z.land r 0x3F)).

(** [rune(i + '0')] for an [int] loop index [i]: the sum is taken at 64
    bits and converted to [int32]. *)
Definition rune_of_index (i : nat) : Z :=
  wrap KInt32 (wrap KInt (Z.of_nat i + 48)).

(** Truncation toward zero of a finite float; [None] for NaN and the
    infinities. *)
Definition trunc (f : spec_float) : option Z :=
  match f with
  | S754_zero _ => Some 0%Z
  | S754_finite s m e =>
      let mag := if bool_decide (0 ≤ e)%Z
                 then (Z.pos m * 2 ^ e)%Z
                 else (Z.pos m / 2 ^ (- e))%Z in
      Some (if s then (- mag)%Z else mag)
  | _ => None
  end.

(** [int(v)] for a float [v]: the truncation when [int] can represent
    it, and otherwise a result that depends on the implementation, given
    by [unrepresentable]. *)
Definition int_of_float (unrepresentable : spec_float → Z) (f : spec_float)
    : Z :=
  match trunc f with
  | Some z =>
      if bool_decide (- 2 ^ 63 ≤ z < 2 ^ 63)%Z then z else unrepresentable f
  | None => unrepresentable f
  end.

Definition is_nan (f : spec_float) : bool :=
  match f with S754_nan => true | _ => false end.

(** The number of entries of a tree, used to justify recursion on the
    values stored in a mapping. *)
Fixpoint vsize (v : value) : nat :=
  match v with
  | VSlice xs => S (foldr (λ x n, vsize x + n) 0 xs)
  | VMap m => S (map_fold (λ _ x n, vsize x + n) 0 m)
  | _ => 1
  end.

End Go.

Import Go.

(* ===================================================================== *)
(** ** The algorithms over trees                                         *)
(* ===================================================================== *)

Module Tree.

(** *** pkg/helmwrap/values.go *)

(** [splitPath]: the loop over the characters of [path], with its two
    local variables [parts] and [current]. *)
Fixpoint splitPath_loop (path : string) (parts : list string)
    (current : string) : list string :=
  match path with
  | EmptyString =>
      if decide (current ≠ "") then parts ++ [current] else parts
  | String char rest =>
      if decide (char = "."%char)
      then if decide (current ≠ "")
           then splitPath_loop rest (parts ++ [current]) ""
           else splitPath_loop rest parts current
      else splitPath_loop rest parts (current +:+ String char "")
  end.

Definition splitPath (path : string) : list string :=
  if decide (path = "") then [] else splitPath_loop path [] "".

(** The loop of [getValueAtPath] over the keys, [current] being its local
    variable. *)
Fixpoint getValueAtPath_loop (current : value) (keys : list string)
    : result value :=
  match keys with
  | [] => Ok current
  | key :: keys =>
      match current with
      | VMap v =>
          match v !! key with
          | Some val => getValueAtPath_loop val keys
          | None => Err (KeyNotFound key)
          end
      | _ => Err (NotMapAccess key)
      end
  end.

Definition getValueAtPath (data : value) (path : string) : result value :=
  if decide (path = "") then Ok data
  else getValueAtPath_loop data (splitPath path).

(** [extractPaths]: the slice behind the pointer [paths] is threaded
    through the calls.  [range] over a mapping visits every entry once in
    an order Go leaves unspecified; [map_fold] fixes one such order. *)
Fixpoint extractPaths (prefix : string) (data : value) (paths : list string)
    : list string :=
  match data with
  | VMap v =>
      map_fold (λ key value paths,
        let fullPath :=
          if decide (prefix ≠ "") then prefix +:+ "." +:+ key else key in
        extractPaths fullPath value (paths ++ [fullPath])) paths v
  | VSlice v =>
      (fix range (i : nat) (v : list value) (paths : list string) :=
         match v with
         | [] => paths
         | item :: v =>
             let indexPath :=
               prefix +:+ "[" +:+ rune_string (rune_of_index i) +:+ "]" in
             range (S i) v (extractPaths indexPath item (paths ++ [indexPath]))
         end) 0%nat v paths
  | _ => paths
  end.

(** [ExtractValuePaths], after [yaml.Unmarshal] has decoded the document
    into [data]. *)
Definition ExtractValuePaths (data : gmap string value) : list string :=
  extractPaths "" (VMap data) [].

Inductive ValueType :=
| ValueTypeString
| ValueTypeInt
| ValueTypeBool
| ValueTypeSlice
| ValueTypeMap
| ValueTypeUnknown.

Definition determineValueType (v : value) : ValueType :=
  match v with
  | VString _ => ValueTypeString
  | VInt _ _ => ValueTypeInt
  | VFloat _ _ => ValueTypeInt
  | VBool _ => ValueTypeBool
  | VSlice _ => ValueTypeSlice
  | VMap _ => ValueTypeMap
  | VNil => ValueTypeUnknown
  end.

(** *** pkg/helmwrap/client.go *)

(** [copySlice] and [copyMap] are mutually recursive; [copyValue] is the
    type switch they share, applied to one element. *)
Fixpoint copyValue (item : value) : value :=
  match item with
  | VMap v =>
      VMap (map_fold (λ key value (dst : gmap string Go.value),
                        <[key := copyValue value]> dst) ∅ v)
  | VSlice v => VSlice (map copyValue v)
  | v => v
  end.

Definition copyMap (src dst : gmap string value) : gmap string value :=
  map_fold (λ key value dst, <[key := copyValue value]> dst) dst src.

Definition copySlice (src : list value) : list value :=
  map copyValue src.

(** [setValueAtPath]: the navigation loop followed by the final store.
    The maps are updated in place in the source; here every level
    returns its updated map.  An empty [keys] reaches [keys[len(keys)-1]],
    which panics. *)
Fixpoint setValueAtPath_loop (current : gmap string value)
    (keys : list string) (value : value) : result (gmap string Go.value) :=
  match keys with
  | [] => Panic
  | [finalKey] => Ok (<[finalKey := value]> current)
  | key :: keys =>
      match current !! key with
      | Some (VMap nextMap) =>
          nextMap' ← setValueAtPath_loop nextMap keys value;
          Ok (<[key := VMap nextMap']> current)
      | Some _ => Err (NonMapNavigate key)
      | None =>
          newMap ← setValueAtPath_loop ∅ keys value;
          Ok (<[key := VMap newMap]> current)
      end
  end.

Definition setValueAtPath (data : gmap string value) (path : string)
    (value : value) : result (gmap string Go.value) :=
  if decide (path = "") then Err EmptyPath
  else setValueAtPath_loop data (splitPath path) value.

Section Modify.

(** What [int(v)] yields for a float that [int] cannot represent. *)
Variable unrepresentable : spec_float → Z.

Definition modifyValueAtPath (values : gmap string value) (path : string)
    (valueType : ValueType) : result (gmap string value) :=
  let modifiedValues := copyMap values ∅ in
  currentValue ← getValueAtPath (VMap modifiedValues) path;
  newValue ←
    match valueType with
    | ValueTypeString =>
        match currentValue with
        | VString strVal => Ok (VString ("helmhound-test-" +:+ strVal))
        | _ => Err (ExpectedString path)
        end
    | ValueTypeInt =>
        match currentValue with
        | VInt k v => Ok (VInt k (wrap k (v + 1)))
        | VFloat _ v =>
            Ok (VInt KInt (wrap KInt (int_of_float unrepresentable v + 1)))
        | _ => Err (ExpectedNumeric path)
        end
    | ValueTypeBool =>
        match currentValue with
        | VBool boolVal => Ok (VBool (negb boolVal))
        | _ => Err (ExpectedBoolean path)
        end
    | ValueTypeSlice =>
        match currentValue with
        | VSlice sliceVal =>
            Ok (VSlice (sliceVal ++ [VString "helmhound-test-element"]))
        | _ => Err (ExpectedSlice path)
        end
    | ValueTypeMap =>
        match currentValue with
        | VMap mapVal =>
            let modifiedMap := copyMap mapVal ∅ in
            Ok (VMap (<["helmhound-test-key" :=
                          VString "helmhound-test-value"]> modifiedMap))
        | _ => Err (ExpectedMap path)
        end
    | ValueTypeUnknown => Err Unsupported
    end;
  modifiedValues ← setValueAtPath modifiedValues path newValue;
  Ok modifiedValues.

End Modify.

(** *** pkg/yamldiff/diff.go *)

Definition buildPath (basePath key : string) : string :=
  if decide (basePath = "") then key else basePath +:+ "." +:+ key.

Definition buildArrayPath (basePath : string) (index : nat) : string :=
  let indexStr := "[" +:+ Itoa (Z.of_nat index) +:+ "]" in
  if decide (basePath = "") then indexStr else basePath +:+ indexStr.

(** [reflect.DeepEqual], as the [default] branch of the type switch uses
    it: on two non-nil values of one dynamic type that is neither a
    mapping nor a sequence.  Floats compare with the IEEE equality of
    [==], under which a NaN differs from itself. *)
Definition DeepEqual (x y : value) : bool :=
  match x, y with
  | VNil, VNil => true
  | VString a, VString b => bool_decide (a = b)
  | VInt k a, VInt k' b => bool_decide (k = k') && bool_decide (a = b)
  | VFloat k a, VFloat k' b => bool_decide (k = k') && SFeqb a b
  | VBool a, VBool b => bool_decide (a = b)
  | _, _ => false
  end.

(** [compareMap] and [compareSlice], with the recursive call to
    [compareValues] as a parameter; the slice behind [diffs] is threaded
    through. *)
Definition compareMap_with
    (compareValues : string → value → value → list string → list string)
    (basePath : string) (left right : gmap string value)
    (diffs : list string) : list string :=
  let diffs :=
    map_fold (λ key leftValue diffs,
      let newPath := buildPath basePath key in
      match right !! key with
      | Some rightValue => compareValues newPath leftValue rightValue diffs
      | None => diffs ++ [newPath]
      end) diffs left in
  map_fold (λ key _ diffs,
    match left !! key with
    | None => diffs ++ [buildPath basePath key]
    | Some _ => diffs
    end) diffs right.

(** The loop [for i := 0; i < maxLen; i++], advanced along both slices:
    [i] is the index of the heads of [left] and [right].  Once [left] is
    exhausted every further index satisfies [i >= len(left)]. *)
Fixpoint compareSlice_rest (basePath : string) (i : nat)
    (right : list value) (diffs : list string) : list string :=
  match right with
  | [] => diffs
  | _ :: right' =>
      compareSlice_rest basePath (S i) right'
        (diffs ++ [buildArrayPath basePath i])
  end.

Definition compareSlice_with
    (compareValues : string → value → value → list string → list string)
    (basePath : string) : nat → list value → list value → list string →
    list string :=
  fix loop (i : nat) (left right : list value) (diffs : list string) :=
    let newPath := buildArrayPath basePath i in
    match left, right with
    | [], _ => compareSlice_rest basePath i right diffs
    | _ :: left', [] => loop (S i) left' [] (diffs ++ [newPath])
    | l :: left', r :: right' =>
        loop (S i) left' right' (compareValues newPath l r diffs)
    end.

Fixpoint compareValues (path : string) (left right : value)
    (diffs : list string) {struct left} : list string :=
  if is_nil left && is_nil right then diffs
  else if is_nil left || is_nil right then diffs ++ [path]
  else if decide (TypeOf left ≠ TypeOf right) then diffs ++ [path]
  else
    match left, right with
    | VMap leftVal, VMap rightVal =>
        compareMap_with compareValues path leftVal rightVal diffs
    | VSlice leftVal, VSlice rightVal =>
        compareSlice_with compareValues path 0 leftVal rightVal diffs
    | _, _ =>
        if negb (DeepEqual left right) then diffs ++ [path] else diffs
    end.

Definition compareMap := compareMap_with compareValues.
Definition compareSlice (basePath : string) :=
  compareSlice_with compareValues basePath 0.

Definition CompareYAML (left right : gmap string value) : list string :=
  compareValues "" (VMap left) (VMap right) [].

Inductive DiffType := DiffTypeModified | DiffTypeAdded | DiffTypeRemoved.

(** [DiffValue]; the field [Type] of the source is [Type_] here. *)
Record DiffValue := {
  Left : value;
  Right : value;
  Type_ : DiffType;
}.

Definition findMapDifferencesWithValues_with
    (findDifferencesWithValues :
       string → value → value → gmap string DiffValue → gmap string DiffValue)
    (basePath : string) (left right : gmap string value)
    (diffs : gmap string DiffValue) : gmap string DiffValue :=
  let diffs :=
    map_fold (λ key leftValue diffs,
      let newPath := buildPath basePath key in
      match right !! key with
      | Some rightValue =>
          findDifferencesWithValues newPath leftValue rightValue diffs
      | None =>
          <[newPath := {| Left := leftValue; Right := VNil;
                          Type_ := DiffTypeRemoved |}]> diffs
      end) diffs left in
  map_fold (λ key rightValue diffs,
    match left !! key with
    | None =>
        <[buildPath basePath key :=
            {| Left := VNil; Right := rightValue;
               Type_ := DiffTypeAdded |}]> diffs
    | Some _ => diffs
    end) diffs right.

Fixpoint findSliceDifferencesWithValues_rest (basePath : string) (i : nat)
    (right : list value) (diffs : gmap string DiffValue)
    : gmap string DiffValue :=
  match right with
  | [] => diffs
  | r :: right' =>
      findSliceDifferencesWithValues_rest basePath (S i) right'
        (<[buildArrayPath basePath i :=
             {| Left := VNil; Right := r; Type_ := DiffTypeAdded |}]> diffs)
  end.

Definition findSliceDifferencesWithValues_with
    (findDifferencesWithValues :
       string → value → value → gmap string DiffValue → gmap string DiffValue)
    (basePath : string) : nat → list value → list value →
    gmap string DiffValue → gmap string DiffValue :=
  fix loop (i : nat) (left right : list value)
      (diffs : gmap string DiffValue) :=
    let newPath := buildArrayPath basePath i in
    match left, right with
    | [], _ => findSliceDifferencesWithValues_rest basePath i right diffs
    | l :: left', [] =>
        loop (S i) left' []
          (<[newPath := {| Left := l; Right := VNil;
                           Type_ := DiffTypeRemoved |}]> diffs)
    | l :: left', r :: right' =>
        loop (S i) left' right' (findDifferencesWithValues newPath l r diffs)
    end.

Fixpoint findDifferencesWithValues (path : string) (left right : value)
    (diffs : gmap string DiffValue) {struct left} : gmap string DiffValue :=
  if is_nil left && is_nil right then diffs
  else if is_nil left
  then <[path := {| Left := VNil; Right := right;
                    Type_ := DiffTypeAdded |}]> diffs
  else if is_nil right
  then <[path := {| Left := left; Right := VNil;
                    Type_ := DiffTypeRemoved |}]> diffs
  else if decide (TypeOf left ≠ TypeOf right)
  then <[path := {| Left := left; Right := right;
                    Type_ := DiffTypeModified |}]> diffs
  else
    match left, right with
    | VMap leftVal, VMap rightVal =>
        findMapDifferencesWithValues_with findDifferencesWithValues
          path leftVal rightVal diffs
    | VSlice leftVal, VSlice rightVal =>
        findSliceDifferencesWithValues_with findDifferencesWithValues
          path 0 leftVal rightVal diffs
    | _, _ =>
        if negb (DeepEqual left right)
        then <[path := {| Left := left; Right := right;
                          Type_ := DiffTypeModified |}]> diffs
        else diffs
    end.

Definition findMapDifferencesWithValues :=
  findMapDifferencesWithValues_with findDifferencesWithValues.
Definition findSliceDifferencesWithValues (basePath : string) :=
  findSliceDifferencesWithValues_with findDifferencesWithValues basePath 0.

Definition FindDifferencesWithValues (left right : gmap string value)
    : gmap string DiffValue :=
  findDifferencesWithValues "" (VMap left) (VMap right) ∅.

(** *** FormatValueReferences (pkg/helmwrap/values.go) *)

Record ValueReference := {
  File : string;
  Line : Z;
  Content : string;
  FullLine : string;
  ManifestPath : string;
}.

(** The line feed. *)
Definition LF : string := String (Ascii.ascii_of_nat 10) "".

(** The first loop: [fileGroups[ref.File] = append(fileGroups[ref.File], ref)]. *)
Definition groupByFile (references : list ValueReference)
    : gmap string (list ValueReference) :=
  foldl (λ fileGroups ref,
           <[File ref := default [] (fileGroups !! File ref) ++ [ref]]>
             fileGroups) ∅ references.

(** One pass of the inner loop: [fmt.Sprintf("%dL: %s\n", ...)]. *)
Definition formatReference (ref : ValueReference) : string :=
  let manifestInfo :=
    if decide (ManifestPath ref = "") then Content ref
    else ManifestPath ref in
  Itoa (Line ref) +:+ "L: " +:+ manifestInfo +:+ LF.

(** One pass of the outer loop, for the entry [fileName ↦ refs]. *)
Definition formatGroup (fileName : string) (refs : list ValueReference)
    (result : string) : string :=
  foldl (λ result ref, result +:+ formatReference ref)
        (result +:+ "=== " +:+ fileName +:+ " ===" +:+ LF) refs.

(** The order in which one execution of [range] visits the keys of a
    map: every key once, in any order. *)
Definition range_order {A} (m : gmap string A) (order : list string) : Prop :=
  NoDup order ∧ ∀ k, k ∈ order ↔ k ∈ dom m.

(** [FormatValueReferences], for the execution whose
    [range fileGroups] visits the keys in the order [order]. *)
Definition FormatValueReferences (order : list string)
    (references : list ValueReference) : string :=
  if decide (length references = 0)
  then "No references found for the specified value."
  else
    let fileGroups := groupByFile references in
    foldl (λ result fileName,
             match fileGroups !! fileName with
             | Some refs => formatGroup fileName refs result
             | None => result
             end) "" order.

(** *** Vocabulary of the properties *)

(** The character [c] occurs in [s]. *)
Fixpoint has_char (c : ascii) (s : string) : bool :=
  match s with
  | EmptyString => false
  | String c' s => bool_decide (c' = c) || has_char c s
  end.

(** A key that [splitPath] gives back as one segment: not empty and
    without ['.']. *)
Definition plain_key (key : string) : bool :=
  negb (bool_decide (key = "")) && negb (has_char "." key).

(** Every key of every mapping of the tree is plain. *)
Fixpoint plain_keys (v : value) : bool :=
  match v with
  | VMap m => map_fold (λ key x ok, plain_key key && plain_keys x && ok) true m
  | VSlice xs => forallb plain_keys xs
  | _ => true
  end.

(** The path of the entry [key] under [prefix], as [extractPaths]
    builds it. *)
Definition joinKey (prefix key : string) : string :=
  if decide (prefix ≠ "") then prefix +:+ "." +:+ key else key.

(** No key of [keys] before the last is bound, along the walk from
    [current], to a value that is not a mapping: the navigation loop of
    [setValueAtPath] goes through. *)
Fixpoint navigable (current : gmap string value) (keys : list string) : bool :=
  match keys with
  | [] | [_] => true
  | key :: keys =>
      match current !! key with
      | Some (VMap nextMap) => navigable nextMap keys
      | Some _ => false
      | None => true
      end
  end.

(** No float of the tree is a NaN. *)
Fixpoint nan_free (v : value) : bool :=
  match v with
  | VFloat _ f => negb (is_nan f)
  | VSlice xs => forallb nan_free xs
  | VMap m => map_fold (λ _ x ok, nan_free x && ok) true m
  | _ => true
  end.

(** The files of [references], each once, in the order of their first
    occurrence. *)
Definition firstSeen (references : list ValueReference) : list string :=
  foldl (λ seen ref, if decide (File ref ∈ seen) then seen
                     else seen ++ [File ref]) [] references.

(** The concatenation of a list of strings. *)
Definition concat_strings (l : list string) : string :=
  foldr String.append "" l.

(** The group of [fileName]: its header line and one line for each of
    its references, in the order of [references]. *)
Definition fileGroup (references : list ValueReference) (fileName : string)
    : string :=
  "=== " +:+ fileName +:+ " ===" +:+ LF +:+
  concat_strings
    (formatReference <$> filter (λ ref, File ref = fileName) references).

(** *** Locations *)

(** A step from a value into it: to the entry of a mapping under a key,
    or to the element of a sequence at an index. *)
Inductive step :=
| Key (key : string)
| Index (index : nat).

(** The value that the steps lead to from [v], through mappings
    ([map[string]interface{}]) and sequences ([[]interface{}]) only. *)
Fixpoint locate (v : value) (steps : list step) : option value :=
  match steps with
  | [] => Some v
  | Key key :: steps =>
      match v with
      | VMap m =>
          match m !! key with
          | Some x => locate x steps
          | None => None
          end
      | _ => None
      end
  | Index index :: steps =>
      match v with
      | VSlice xs =>
          match xs !! index with
          | Some x => locate x steps
          | None => None
          end
      | _ => None
      end
  end.

(** A step to the entry of a plain key. *)
Definition plain_step (s : step) : bool :=
  match s with
  | Key key => plain_key key
  | Index _ => false
  end.

(** The path that [extractPaths] builds along the steps, from [prefix]
    on. *)
Definition extractedStep (prefix : string) (s : step) : string :=
  match s with
  | Key key => joinKey prefix key
  | Index index =>
      prefix +:+ "[" +:+ rune_string (rune_of_index index) +:+ "]"
  end.

Definition extractedPath (steps : list step) : string :=
  foldl extractedStep "" steps.

(** The path that the differs build along the steps, with [buildPath]
    and [buildArrayPath]. *)
Definition diffStep (path : string) (s : step) : string :=
  match s with
  | Key key => buildPath path key
  | Index index => buildArrayPath path index
  end.

Definition diffPath (steps : list step) : string :=
  foldl diffStep "" steps.

End Tree.

(* ===================================================================== *)
(** ** The mutating functions over a store                               *)
(* ===================================================================== *)

(** Mappings and sequences are references in Go: [copyMap] and
    [setValueAtPath] write through them.  Here the objects live in a
    store, a value holds the location of its mapping or sequence, and
    the functions of pkg/helmwrap/client.go are state transformers. *)

Module Store.

Definition loc := nat.

Inductive val :=
| Nil
| Str (s : string)
| Int (k : intkind) (n : Z)
| Float (k : floatkind) (f : spec_float)
| Bool (b : bool)
| SliceRef (l : loc)
| MapRef (l : loc).

Inductive object :=
| OMap (m : gmap string val)
| OSlice (xs : list val).

(** The store: location [l] holds the [l]-th object; allocation appends. *)
Abbreviation store := (list object).

(** How a computation ends: normally, with an error value, with a
    run-time panic, without having finished within the recursion budget,
    or on a reference that is not in the store at the expected type. *)
Inductive res (A : Type) :=
| Done (a : A)
| Failed (e : error)
| Panicked
| OutOfFuel
| Wrong.
Arguments Done {A} a.
Arguments Failed {A} e.
Arguments Panicked {A}.
Arguments OutOfFuel {A}.
Arguments Wrong {A}.

Definition M (A : Type) : Type := store → res A * store.

#[global] Instance M_ret : MRet M := λ A a h, (Done a, h).
#[global] Instance M_bind : MBind M := λ A B f c h,
  match c h with
  | (Done a, h') => f a h'
  | (Failed e, h') => (Failed e, h')
  | (Panicked, h') => (Panicked, h')
  | (OutOfFuel, h') => (OutOfFuel, h')
  | (Wrong, h') => (Wrong, h')
  end.

Definition fail {A} (e : error) : M A := λ h, (Failed e, h).
Definition panic {A} : M A := λ h, (Panicked, h).
Definition out_of_fuel {A} : M A := λ h, (OutOfFuel, h).

(** [make(map[string]interface{})], [make([]interface{}, n)] *)
Definition alloc (o : object) : M loc := λ h, (Done (length h), h ++ [o]).

Definition read_map (l : loc) : M (gmap string val) := λ h,
  match h !! l with
  | Some (OMap m) => (Done m, h)
  | _ => (Wrong, h)
  end.

Definition read_slice (l : loc) : M (list val) := λ h,
  match h !! l with
  | Some (OSlice xs) => (Done xs, h)
  | _ => (Wrong, h)
  end.

(** [m[key] = v] *)
Definition map_store (l : loc) (key : string) (v : val) : M unit := λ h,
  match h !! l with
  | Some (OMap m) => (Done (), <[l := OMap (<[key := v]> m)]> h)
  | _ => (Wrong, h)
  end.

(** [s[i] = v] *)
Definition slice_store (l : loc) (i : nat) (v : val) : M unit := λ h,
  match h !! l with
  | Some (OSlice xs) =>
      if decide (i < length xs)
      then (Done (), <[l := OSlice (<[i := v]> xs)]> h)
      else (Panicked, h)
  | _ => (Wrong, h)
  end.

(** A [for ... range] loop over the entries [xs]. *)
Fixpoint for_each {A} (xs : list A) (body : A → M unit) : M unit :=
  match xs with
  | [] => mret ()
  | x :: xs => body x ≫= λ _, for_each xs body
  end.

Fixpoint getValueAtPath_loop (current : val) (keys : list string) : M val :=
  match keys with
  | [] => mret current
  | key :: keys =>
      match current with
      | MapRef v =>
          m ← read_map v;
          match m !! key with
          | Some val => getValueAtPath_loop val keys
          | None => fail (KeyNotFound key)
          end
      | _ => fail (NotMapAccess key)
      end
  end.

Definition getValueAtPath (data : val) (path : string) : M val :=
  if decide (path = "") then mret data
  else getValueAtPath_loop data (Tree.splitPath path).

(** [copyMap] and [copySlice].  A mapping or sequence that contains
    itself makes the source recurse forever; [fuel] bounds the depth of
    the recursion. *)
Fixpoint copyMap (fuel : nat) (src dst : loc) : M unit :=
  match fuel with
  | 0 => out_of_fuel
  | S fuel =>
      m ← read_map src;
      for_each (map_to_list m) (λ '(key, value),
        match value with
        | MapRef v =>
            nested ← alloc (OMap ∅);
            copyMap fuel v nested ≫= λ _,
            map_store dst key (MapRef nested)
        | SliceRef v =>
            copied ← copySlice fuel v;
            map_store dst key (SliceRef copied)
        | v => map_store dst key v
        end)
  end
with copySlice (fuel : nat) (src : loc) : M loc :=
  match fuel with
  | 0 => out_of_fuel
  | S fuel =>
      xs ← read_slice src;
      dst ← alloc (OSlice (replicate (length xs) Nil));
      for_each (imap (λ i item, (i, item)) xs) (λ '(i, item),
        match item with
        | MapRef v =>
            nested ← alloc (OMap ∅);
            copyMap fuel v nested ≫= λ _,
            slice_store dst i (MapRef nested)
        | SliceRef v =>
            copied ← copySlice fuel v;
            slice_store dst i (SliceRef copied)
        | v => slice_store dst i v
        end) ≫= λ _,
      mret dst
  end.

Fixpoint setValueAtPath_loop (current : loc) (keys : list string)
    (value : val) : M unit :=
  match keys with
  | [] => panic
  | [finalKey] => map_store current finalKey value
  | key :: keys =>
      m ← read_map current;
      match m !! key with
      | Some (MapRef nextMap) => setValueAtPath_loop nextMap keys value
      | Some _ => fail (NonMapNavigate key)
      | None =>
          newMap ← alloc (OMap ∅);
          map_store current key (MapRef newMap) ≫= λ _,
          setValueAtPath_loop newMap keys value
      end
  end.

Definition setValueAtPath (data : loc) (path : string) (value : val)
    : M unit :=
  if decide (path = "") then fail EmptyPath
  else setValueAtPath_loop data (Tree.splitPath path) value.

Section Modify.

Variable unrepresentable : spec_float → Z.

(** [modifyValueAtPath]: the result is the location of [modifiedValues].
    [append] on the slice that [make] has filled to its capacity
    allocates the longer sequence. *)
Definition modifyValueAtPath (fuel : nat) (values : loc) (path : string)
    (valueType : Tree.ValueType) : M loc :=
  modifiedValues ← alloc (OMap ∅);
  copyMap fuel values modifiedValues ≫= λ _,
  currentValue ← getValueAtPath (MapRef modifiedValues) path;
  newValue ←
    match valueType with
    | Tree.ValueTypeString =>
        match currentValue with
        | Str strVal => mret (Str ("helmhound-test-" +:+ strVal))
        | _ => fail (ExpectedString path)
        end
    | Tree.ValueTypeInt =>
        match currentValue with
        | Int k v => mret (Int k (wrap k (v + 1)))
        | Float _ v =>
            mret (Int KInt (wrap KInt (int_of_float unrepresentable v + 1)))
        | _ => fail (ExpectedNumeric path)
        end
    | Tree.ValueTypeBool =>
        match currentValue with
        | Bool boolVal => mret (Bool (negb boolVal))
        | _ => fail (ExpectedBoolean path)
        end
    | Tree.ValueTypeSlice =>
        match currentValue with
        | SliceRef sliceVal =>
            xs ← read_slice sliceVal;
            modifiedSlice ← alloc (OSlice xs);
            appended ← alloc (OSlice (xs ++ [Str "helmhound-test-element"]));
            mret (SliceRef appended)
        | _ => fail (ExpectedSlice path)
        end
    | Tree.ValueTypeMap =>
        match currentValue with
        | MapRef mapVal =>
            modifiedMap ← alloc (OMap ∅);
            copyMap fuel mapVal modifiedMap ≫= λ _,
            map_store modifiedMap "helmhound-test-key"
              (Str "helmhound-test-value") ≫= λ _,
            mret (MapRef modifiedMap)
        | _ => fail (ExpectedMap path)
        end
    | Tree.ValueTypeUnknown => fail Unsupported
    end;
  setValueAtPath modifiedValues path newValue ≫= λ _,
  mret modifiedValues.

End Modify.

(** The tree a value stands for in a store. *)
Inductive repr (h : store) : val → value → Prop :=
| repr_nil : repr h Nil VNil
| repr_str s : repr h (Str s) (VString s)
| repr_int k n : repr h (Int k n) (VInt k n)
| repr_float k f : repr h (Float k f) (VFloat k f)
| repr_bool b : repr h (Bool b) (VBool b)
| repr_slice l xs ts :
    h !! l = Some (OSlice xs) →
    Forall2 (repr h) xs ts →
    repr h (SliceRef l) (VSlice ts)
| repr_map l m tm :
    h !! l = Some (OMap m) →
    (∀ k, option_Forall2 (repr h) (m !! k) (tm !! k)) →
    repr h (MapRef l) (VMap tm).

(** *** Vocabulary of the properties *)

(** A value that, if it is a mapping or a sequence, lies at or above
    location [n]. *)
Definition above (n : nat) (v : val) : Prop :=
  match v with
  | MapRef l | SliceRef l => n ≤ l
  | _ => True
  end.

(** The values an object holds. *)
Definition holds (o : object) (v : val) : Prop :=
  match o with
  | OMap m => ∃ key, m !! key = Some v
  | OSlice xs => v ∈ xs
  end.

(** The objects at or above location [n] only hold mappings and
    sequences that are at or above [n] too. *)
Definition closed (n : nat) (h : store) : Prop :=
  ∀ l o v, n ≤ l → h !! l = Some o → holds o v → above n v.

(** What a computation started from the store [h0] maintains: the
    objects of [h0] are where and what they were, and the new objects
    refer to new objects only. *)
Definition Inv (h0 h : store) : Prop :=
  h0 `prefix_of` h ∧ closed (length h0) h.

(** [c] maintains [Inv h0], and a result it returns satisfies [Q]. *)
Definition safe (h0 : store) {A} (c : M A) (Q : A → Prop) : Prop :=
  ∀ h, Inv h0 h → Inv h0 (c h).2 ∧ ∀ a, (c h).1 = Done a → Q a.

(** *** Vocabulary of the refinement *)

(** [own h v t P]: in [h] the value [v] stands for the tree [t], its
    objects lie in [P], and no object is reached along two routes. *)
Inductive own (h : store) : val → value → (loc → Prop) → Prop :=
| own_nil P : own h Nil VNil P
| own_str s P : own h (Str s) (VString s) P
| own_int k n P : own h (Int k n) (VInt k n) P
| own_float k f P : own h (Float k f) (VFloat k f) P
| own_bool b P : own h (Bool b) (VBool b) P
| own_slice l xs ts (P : loc → Prop) (Ps : nat → loc → Prop) :
    h !! l = Some (OSlice xs) →
    P l →
    (∀ i, option_Forall2 (λ v t, own h v t (Ps i)) (xs !! i) (ts !! i)) →
    (∀ i x, Ps i x → P x ∧ x ≠ l) →
    (∀ i j x, Ps i x → Ps j x → i = j) →
    own h (SliceRef l) (VSlice ts) P
| own_map l m tm (P : loc → Prop) (Ps : string → loc → Prop) :
    h !! l = Some (OMap m) →
    P l →
    (∀ k, option_Forall2 (λ v t, own h v t (Ps k)) (m !! k) (tm !! k)) →
    (∀ k x, Ps k x → P x ∧ x ≠ l) →
    (∀ k1 k2 x, Ps k1 x → Ps k2 x → k1 = k2) →
    own h (MapRef l) (VMap tm) P.

(** The interval of locations from [a] up to [b]. *)
Definition interval (a b : nat) : loc → Prop := λ x, a ≤ x < b.

(** What [copyMap src dst] has done from [h] to [h'], once the keys
    [ks] of the source, a mapping that stands for [tm], are copied. *)
Definition copied_keys (ks : list string) (h h' : store) (dst : loc)
    (md : gmap string val) (tm : gmap string value) : Prop :=
  length h ≤ length h' ∧
  (∀ l, l < length h → l ≠ dst → h' !! l = h !! l) ∧
  ∃ md' (Ps : string → loc → Prop),
    h' !! dst = Some (OMap md') ∧
    (∀ k, match tm !! k with
          | Some t =>
              if decide (k ∈ ks)
              then ∃ v', md' !! k = Some v' ∧ own h' v' t (Ps k)
              else md' !! k = md !! k
          | None => md' !! k = md !! k
          end) ∧
    (∀ k x, Ps k x → length h ≤ x < length h') ∧
    (∀ k1 k2 x, Ps k1 x → Ps k2 x → k1 = k2).

(** What [copySlice] has done from [h] to [h'] on a sequence that
    stands for [ts]. *)
Definition copied_slice (h h' : store) (ts : list value) : Prop :=
  length h < length h' ∧
  (∀ l, l < length h → h' !! l = h !! l) ∧
  own h' (SliceRef (length h)) (VSlice ts) (interval (length h) (length h')).

(** Every object of [h0] is in [h], at its place. *)
Definition extends (h0 h : store) : Prop :=
  ∀ l o, h0 !! l = Some o → h !! l = Some o.

(** The whole of the source is copied. *)
Definition copied_map (h h' : store) (dst : loc) (md : gmap string val)
    (tm : gmap string value) : Prop :=
  ∃ ks, (∀ k t, tm !! k = Some t → k ∈ ks) ∧ copied_keys ks h h' dst md tm.

(** What the loop of [copySlice] has done from [h] to [h'], once the
    first [n] elements of the source, a sequence of length [len] that
    stands for [ts], are copied into the sequence allocated at
    [length h]. *)
Definition copied_elems (n : nat) (h h' : store) (ts : list value)
    (len : nat) : Prop :=
  length h < length h' ∧
  (∀ l, l < length h → h' !! l = h !! l) ∧
  ∃ ys (Ps : nat → loc → Prop),
    h' !! length h = Some (OSlice ys) ∧
    length ys = len ∧
    (∀ i t, i < n → ts !! i = Some t →
            ∃ v', ys !! i = Some v' ∧ own h' v' t (Ps i)) ∧
    (∀ i x, Ps i x → length h < x < length h') ∧
    (∀ i j x, Ps i x → Ps j x → i = j).

(** The end of a computation of the store model against the result of
    the tree model: the same error, the same panic, or a mapping that
    stands for the tree returned. *)
Definition agrees (r : result (gmap string value)) (out : res loc * store)
    : Prop :=
  match r with
  | Ok tm' =>
      ∃ l h', out = (Done l, h') ∧ repr h' (MapRef l) (VMap tm')
  | Err e => ∃ h', out = (Failed e, h')
  | Go.Panic => ∃ h', out = (Panicked, h')
  end.

End Store.

(* ===================================================================== *)
(** ** The standard library's [strings], on byte strings                 *)
(* ===================================================================== *)

Module Strings.

(** [strings.HasPrefix(s, prefix)] *)
Fixpoint HasPrefix (s prefix : string) : bool :=
  match prefix, s with
  | EmptyString, _ => true
  | String c prefix, String d s => bool_decide (d = c) && HasPrefix s prefix
  | String _ _, EmptyString => false
  end.

(** [strings.HasSuffix(s, suffix)]: the last [len(suffix)] bytes of [s]
    are [suffix]. *)
Definition HasSuffix (s suffix : string) : bool :=
  bool_decide (String.length suffix ≤ String.length s) &&
  bool_decide (String.substring (String.length s - String.length suffix)
                         (String.length suffix) s = suffix).

(** [strings.TrimSuffix(s, suffix)] *)
Definition TrimSuffix (s suffix : string) : string :=
  if HasSuffix s suffix
  then String.substring 0 (String.length s - String.length suffix) s
  else s.

(** [strings.Split(s, sep)] for a separator [sep] of one byte: the
    pieces of [s] between the occurrences of [sep], one more than there
    are occurrences.  [current] is the piece being read. *)
Fixpoint Split_from (sep : ascii) (s : string) (current : string)
    : list string :=
  match s with
  | EmptyString => [current]
  | String c s =>
      if decide (c = sep) then current :: Split_from sep s ""
      else Split_from sep s (current +:+ String c "")
  end.

Definition Split (s : string) (sep : ascii) : list string :=
  Split_from sep s "".

(** [strings.TrimPrefix(s, prefix)] *)
Definition TrimPrefix (s prefix : string) : string :=
  if HasPrefix s prefix
  then String.substring (String.length prefix)
         (String.length s - String.length prefix) s
  else s.

(** [strings.Contains(s, substr)] *)
Fixpoint Contains (s substr : string) : bool :=
  HasPrefix s substr ||
  match s with
  | EmptyString => false
  | String _ s => Contains s substr
  end.

(** [strings.SplitN(s, sep, 2)] for a separator of one byte: [s] cut at
    the first occurrence of [sep], or [s] alone when there is none. *)
Fixpoint SplitN2_from (sep : ascii) (s : string) (current : string)
    : list string :=
  match s with
  | EmptyString => [current]
  | String c s =>
      if decide (c = sep) then [current; s]
      else SplitN2_from sep s (current +:+ String c "")
  end.

Definition SplitN2 (s : string) (sep : ascii) : list string :=
  SplitN2_from sep s "".

(** [strings.Join(elems, sep)] *)
Fixpoint Join (elems : list string) (sep : string) : string :=
  match elems with
  | [] => ""
  | [elem] => elem
  | elem :: elems => elem +:+ sep +:+ Join elems sep
  end.

(** The code points for which [unicode.IsSpace] holds. *)
Definition space_runes : list Z :=
  [0x09; 0x0A; 0x0B; 0x0C; 0x0D; 0x20; 0x85; 0xA0; 0x1680;
   0x2000; 0x2001; 0x2002; 0x2003; 0x2004; 0x2005; 0x2006; 0x2007;
   0x2008; 0x2009; 0x200A; 0x2028; 0x2029; 0x202F; 0x205F; 0x3000]%Z.

(** Their UTF-8 encodings.  A string starts (ends) with a space
    character exactly when it starts (ends) with one of these byte
    sequences: a sequence of bytes that does not decode counts as the
    character U+FFFD, which is no space. *)
Definition spaces : list string := rune_string <$> space_runes.

(** [s] without the first of the [prefixes] it starts with. *)
Fixpoint strip_prefix (s : string) (prefixes : list string) : option string :=
  match prefixes with
  | [] => None
  | prefix :: prefixes =>
      if HasPrefix s prefix
      then Some (String.substring (String.length prefix)
                   (String.length s - String.length prefix) s)
      else strip_prefix s prefixes
  end.

Fixpoint strip_suffix (s : string) (suffixes : list string) : option string :=
  match suffixes with
  | [] => None
  | suffix :: suffixes =>
      if HasSuffix s suffix
      then Some (String.substring 0 (String.length s - String.length suffix) s)
      else strip_suffix s suffixes
  end.

(** [strings.TrimSpace(s)]: the leading and then the trailing space
    characters are removed one at a time; [n] bounds their number. *)
Fixpoint TrimLeftSpace (n : nat) (s : string) : string :=
  match n with
  | 0 => s
  | S n =>
      match strip_prefix s spaces with
      | Some s => TrimLeftSpace n s
      | None => s
      end
  end.

Fixpoint TrimRightSpace (n : nat) (s : string) : string :=
  match n with
  | 0 => s
  | S n =>
      match strip_suffix s spaces with
      | Some s => TrimRightSpace n s
      | None => s
      end
  end.

Definition TrimSpace (s : string) : string :=
  TrimRightSpace (String.length s) (TrimLeftSpace (String.length s) s).

End Strings.

(* ===================================================================== *)
(** ** The rest of the packages                                          *)
(* ===================================================================== *)

Module Values.

Import Tree.

(** *** pkg/helmwrap/values.go *)

(** [FilterValuesByPrefix]: [filtered] is the local slice the loop
    appends to. *)
Definition FilterValuesByPrefix (values : list string) (prefix : string)
    : list string :=
  if decide (prefix = "") then values
  else
    foldl (λ filtered value,
             if Strings.HasPrefix value prefix then filtered ++ [value]
             else filtered) [] values.

(** [getIndentLevel]: the loop over the characters of [line], [count]
    being its local variable.  A space and a tab are single bytes that
    occur in no other character, so the loop is read byte by byte. *)
Fixpoint getIndentLevel_loop (line : string) (count : nat) : nat :=
  match line with
  | EmptyString => count
  | String char line =>
      if decide (char = " "%char) then getIndentLevel_loop line (count + 1)
      else if decide (char = Ascii.ascii_of_nat 9)
           then getIndentLevel_loop line (count + 2)
           else count
  end.

Definition getIndentLevel (line : string) : nat :=
  getIndentLevel_loop line 0.

(** The string of [n] characters [c]. *)
Fixpoint repeated (c : ascii) (n : nat) : string :=
  match n with
  | 0 => ""
  | S n => String c (repeated c n)
  end.

(** The double quote, as a string. *)
Definition doubleQuote : string := String (Ascii.ascii_of_nat 34) "".

(** The test for a quoted key and [key[1 : len(key)-1]], which panics on
    a key of one byte. *)
Definition unquote (key : string) : result string :=
  if (Strings.HasPrefix key doubleQuote && Strings.HasSuffix key doubleQuote) ||
     (Strings.HasPrefix key "'" && Strings.HasSuffix key "'")
  then
    if decide (String.length key - 1 < 1) then Panic
    else Ok (String.substring 1 (String.length key - 1 - 1) key)
  else Ok key.

(** [strings.SplitN(line, ":", 2)] followed by the test on the number of
    parts and by [strings.TrimSpace(parts[0])]. *)
Definition keyOf (line : string) : option string :=
  let parts := Strings.SplitN2 line ":" in
  if decide (2 ≤ length parts)
  then Some (Strings.TrimSpace (default "" (parts !! 0)))
  else None.

(** The test that ends the loop of [extractManifestPath]. *)
Definition rootLevel (lineIndent : nat) (trimmedLine : string) : bool :=
  bool_decide (lineIndent = 0) &&
  (Strings.HasPrefix trimmedLine "kind:" ||
   Strings.HasPrefix trimmedLine "apiVersion:" ||
   Strings.HasPrefix trimmedLine "metadata:").

(** The loop of [extractManifestPath] over the lines before the current
    one, from the nearest one upwards: [above] holds them in that order,
    [pathParts] and [currentIndent] are the local variables. *)
Fixpoint parentKeys (above : list string) (pathParts : list string)
    (currentIndent : nat) : result (list string) :=
  match above with
  | [] => Ok pathParts
  | line :: above =>
      let trimmedLine := Strings.TrimSpace line in
      if bool_decide (trimmedLine = "") || Strings.HasPrefix trimmedLine "#"
      then parentKeys above pathParts currentIndent
      else
        let lineIndent := getIndentLevel line in
        let next (pathParts : list string) (currentIndent : nat) :=
          if rootLevel lineIndent trimmedLine then Ok pathParts
          else parentKeys above pathParts currentIndent in
        if bool_decide (lineIndent < currentIndent) &&
           Strings.Contains trimmedLine ":"
        then
          match keyOf trimmedLine with
          | Some parentKey =>
              if Strings.Contains parentKey "if" ||
                 Strings.Contains parentKey "range" ||
                 Strings.Contains parentKey "with" ||
                 Strings.Contains parentKey "define" ||
                 Strings.Contains parentKey "template"
              then parentKeys above pathParts currentIndent
              else
                parentKey ← unquote parentKey;
                if negb (bool_decide (parentKey = "")) &&
                   negb (Strings.Contains parentKey ".Values")
                then next (parentKey :: pathParts) lineIndent
                else next pathParts currentIndent
          | None => next pathParts currentIndent
          end
        else next pathParts currentIndent
  end.

(** [extractManifestPath]; an index below zero reaches
    [lines[currentLineIndex]], which panics. *)
Definition extractManifestPath (lines : list string) (currentLineIndex : Z)
    : result string :=
  if decide (Z.of_nat (length lines) ≤ currentLineIndex)%Z then Ok ""
  else if decide (currentLineIndex < 0)%Z then Panic
  else
    let index := Z.to_nat currentLineIndex in
    let line := default "" (lines !! index) in
    let currentLine := Strings.TrimSpace line in
    if Strings.Contains currentLine ":"
    then
      match keyOf currentLine with
      | Some key =>
          let key := Strings.TrimPrefix key "{{-" in
          let key := Strings.TrimSuffix key "-}}" in
          let key := Strings.TrimPrefix key "{{" in
          let key := Strings.TrimSuffix key "}}" in
          let key := Strings.TrimSpace key in
          key ← unquote key;
          if negb (bool_decide (key = "")) &&
             negb (Strings.Contains key ".Values")
          then
            let pathParts := [key] in
            let currentIndent := getIndentLevel line in
            pathParts ←
              parentKeys (reverse (take index lines)) pathParts currentIndent;
            if decide (0 < length pathParts)
            then Ok ("." +:+ Strings.Join pathParts ".")
            else Ok ""
          else Ok ""
      | None => Ok ""
      end
    else Ok "".

End Values.

Module Client.

Import Tree.

(** *** pkg/helmwrap/client.go *)

(** [extractChartNameFromURL]; [last parts] is [parts[len(parts)-1]]
    under the test [len(parts) > 0]. *)
Definition extractChartNameFromURL (chartUrl : string) : string :=
  let fallback :=
    let parts := Strings.Split (Strings.TrimSuffix chartUrl "/") "/" in
    match last parts with
    | Some name => name
    | None => "chart"
    end in
  if Strings.HasPrefix chartUrl "oci://"
  then
    let parts := Strings.Split chartUrl "/" in
    match last parts with
    | Some name => name
    | None => fallback
    end
  else fallback.

(** [deepMergeMap dst src]: the mapping [dst] after the call.  The
    recursive call updates the mapping that [dst[key]] refers to in
    place; here the updated mapping is stored back at [key].  The
    recursion is on the source, so it is written on [VMap src]. *)
Fixpoint deepMerge (src : value) (dst : gmap string value)
    : gmap string value :=
  match src with
  | VMap src =>
      map_fold (λ key srcValue dst,
        match dst !! key with
        | Some (VMap dstMap) =>
            match srcValue with
            | VMap _ => <[key := VMap (deepMerge srcValue dstMap)]> dst
            | _ => <[key := srcValue]> dst
            end
        | _ => <[key := srcValue]> dst
        end) dst src
  | _ => dst
  end.

Definition deepMergeMap (dst src : gmap string value) : gmap string value :=
  deepMerge (VMap src) dst.

(** The end of [mergeValues], once both documents are read and decoded
    and a values file is given: the defaults are copied and the custom
    values merged into the copy. *)
Definition mergeValues (defaultValues customValues : gmap string value)
    : gmap string value :=
  let mergedValues := copyMap defaultValues ∅ in
  deepMergeMap mergedValues customValues.

(** The cache of downloaded charts.  [loadCacheFile] and [saveCacheFile]
    read and write the file [cache.yaml]; the two functions below are
    [checkCacheEntry] and [addCacheEntry] on the [CacheFile] that the
    former has read, and [addCacheEntry] returns the [CacheFile] it
    hands to the latter, if any. *)
Record CacheEntry := {
  ChartURL : string;
  Version : string;
  ChartName : string;
  DownloadDir : string
}.

Record CacheFile := { Entries : list CacheEntry }.

Section Cache.

(** Whether [os.Stat] finds the path, and [filepath.Join]. *)
Variable Stat : string → bool.
Variable Join : string → string → string.

Definition checkCacheEntry (cacheFile : CacheFile)
    (chartUrl chartVersion : string) : CacheEntry * bool :=
  (fix range (entries : list CacheEntry) :=
     match entries with
     | [] =>
         ({| ChartURL := ""; Version := ""; ChartName := "";
             DownloadDir := "" |}, false)
     | entry :: entries =>
         if bool_decide (ChartURL entry = chartUrl) &&
            bool_decide (Version entry = chartVersion)
         then
           let chartPath := Join (DownloadDir entry) (ChartName entry) in
           if Stat chartPath then (entry, true) else range entries
         else range entries
     end) (Entries cacheFile).

Definition addCacheEntry (cacheFile : CacheFile)
    (chartUrl version chartName downloadDir : string) : option CacheFile :=
  (fix range (entries : list CacheEntry) :=
     match entries with
     | [] =>
         let newEntry :=
           {| ChartURL := chartUrl; Version := version;
              ChartName := chartName; DownloadDir := downloadDir |} in
         Some {| Entries := Entries cacheFile ++ [newEntry] |}
     | entry :: entries =>
         if bool_decide (ChartURL entry = chartUrl) &&
            bool_decide (Version entry = version)
         then None
         else range entries
     end) (Entries cacheFile).

End Cache.

End Client.

Module Yamldiff.

Import Tree.

(** *** pkg/yamldiff/diff.go *)

(** [extractManifestKey]: the loop over the characters of [path]; [i] is
    the index of the head of [rest] in [path]. *)
Fixpoint extractManifestKey_loop (path : string) (i : nat) (rest : string)
    : string :=
  match rest with
  | EmptyString => path
  | String char rest =>
      if decide (char = "."%char) then String.substring 0 i path
      else extractManifestKey_loop path (S i) rest
  end.

Definition extractManifestKey (path : string) : string :=
  extractManifestKey_loop path 0 path.

(** [grouped[manifestKey] = append(grouped[manifestKey], item)]; a key
    that is not bound reads as the nil slice. *)
Definition append_at {A} (grouped : gmap string (list A)) (manifestKey : string)
    (item : A) : gmap string (list A) :=
  <[manifestKey := default [] (grouped !! manifestKey) ++ [item]]> grouped.

Definition CompareYAMLGrouped (left right : gmap string value)
    : gmap string (list string) :=
  let diffs := compareValues "" (VMap left) (VMap right) [] in
  foldl (λ grouped path,
           let manifestKey := extractManifestKey path in
           append_at grouped manifestKey path) ∅ diffs.

Record GroupedDifferenceItem := {
  Path : string;
  DisplayText : string
}.

Definition createUserFriendlyDisplayText (path manifestKey : string)
    (left right : gmap string value) : string :=
  if decide (path = manifestKey) then "(affects entire manifest)" else path.

Definition CompareYAMLGroupedDetailed (left right : gmap string value)
    : gmap string (list GroupedDifferenceItem) :=
  let diffs := compareValues "" (VMap left) (VMap right) [] in
  foldl (λ grouped path,
           let manifestKey := extractManifestKey path in
           let displayText :=
             createUserFriendlyDisplayText path manifestKey left right in
           let item := {| Path := path; DisplayText := displayText |} in
           append_at grouped manifestKey item) ∅ diffs.

(** *** cmd/root.go *)

(** The count that the command prints: [totalPaths], summed over the
    groups in the order of the [range]. *)
Definition totalPaths (groupedDiffs : gmap string (list GroupedDifferenceItem))
    : nat :=
  map_fold (λ _ items totalPaths, totalPaths + length items) 0 groupedDiffs.

End Yamldiff.

Module Mutation.

Import Tree.

(** *** Vocabulary of the properties of modifyValueAtPath *)

(** The error with which [modifyValueAtPath] refuses a value that is not
    of the type asked for. *)
Definition expected (valueType : ValueType) (path : string) : error :=
  match valueType with
  | ValueTypeString => ExpectedString path
  | ValueTypeInt => ExpectedNumeric path
  | ValueTypeBool => ExpectedBoolean path
  | ValueTypeSlice => ExpectedSlice path
  | ValueTypeMap => ExpectedMap path
  | ValueTypeUnknown => Unsupported
  end.

(** The value [modifyValueAtPath] puts in the place of [currentValue]
    when it is asked for the type of [currentValue]. *)
Definition perturbed (unrepresentable : spec_float → Z) (currentValue : value)
    : value :=
  match currentValue with
  | VString strVal => VString ("helmhound-test-" +:+ strVal)
  | VInt k v => VInt k (wrap k (v + 1))
  | VFloat _ v => VInt KInt (wrap KInt (int_of_float unrepresentable v + 1))
  | VBool boolVal => VBool (negb boolVal)
  | VSlice sliceVal => VSlice (sliceVal ++ [VString "helmhound-test-element"])
  | VMap mapVal =>
      VMap (<["helmhound-test-key" := VString "helmhound-test-value"]> mapVal)
  | VNil => VNil
  end.

(** The path under which the differ reports the location that the
    segments [keys] lead to. *)
Definition joinPath (keys : list string) : string :=
  foldl buildPath "" keys.

(** The one path at which the differ sees [perturbed currentValue]
    differ from [currentValue], when the latter is at [path]. *)
Definition perturbedPath (path : string) (currentValue : value) : string :=
  match currentValue with
  | VSlice sliceVal => buildArrayPath path (length sliceVal)
  | VMap _ => buildPath path "helmhound-test-key"
  | _ => path
  end.

End Mutation.

Module Differ.

Import Tree.

(** *** Vocabulary of the properties of the differs *)

(** A float with the sign of a zero forgotten: [==] does not tell [+0]
    from [-0]. *)
Definition unsigned_float (f : spec_float) : spec_float :=
  match f with
  | S754_zero _ => S754_zero false
  | f => f
  end.

(** A tree with the sign of every float zero forgotten. *)
Fixpoint unsigned (v : value) : value :=
  match v with
  | VFloat k f => VFloat k (unsigned_float f)
  | VSlice xs => VSlice (map unsigned xs)
  | VMap m => VMap (unsigned <$> m)
  | v => v
  end.

(** A record whose type agrees with its two values: nothing on the left
    of an addition, nothing on the right of a removal, a value on both
    sides of a modification. *)
Definition consistent (d : DiffValue) : Prop :=
  match Type_ d with
  | DiffTypeAdded => Left d = VNil
  | DiffTypeRemoved => Right d = VNil
  | DiffTypeModified => Left d ≠ VNil ∧ Right d ≠ VNil
  end.

(** What [getValueAtPath_loop] finds at [keys], for the records: the
    value there, or nil for a key that is missing. *)
Definition found (v : value) (keys : list string) (x : value) : Prop :=
  getValueAtPath_loop v keys = Ok x ∨
  x = VNil ∧ ∃ key, getValueAtPath_loop v keys = Err (KeyNotFound key).

(** The records written one after the other into [diffs], a later one
    replacing an earlier one at the same path. *)
Definition written (diffs : gmap string DiffValue)
    (records : list (string * DiffValue)) : gmap string DiffValue :=
  foldl (λ diffs record, <[record.1 := record.2]> diffs) diffs records.

End Differ.

(* ===================================================================== *)
(** ** Properties                                                        *)
(* ===================================================================== *)

Import Tree.

(** *** Induction on trees *)

Lemma vsize_elem (x : value) (xs : list value) :
  x ∈ xs → vsize x ≤ foldr (λ x n, vsize x + n) 0 xs.
Proof.
  induction 1 as [x xs | x y xs _ IH]; simpl; lia.
Qed.

Lemma vsize_entry (k : string) (x : value) (m : gmap string value) :
  m !! k = Some x → vsize x < vsize (VMap m).
Proof.
  intros Hk. simpl. rewrite map_fold_foldr.
  apply elem_of_map_to_list in Hk.
  induction (map_to_list m) as [| [k' y] l IH]; [by apply elem_of_nil in Hk |].
  apply elem_of_cons in Hk as [Heq | Hin]; simpl.
  - inversion Heq; subst. lia.
  - specialize (IH Hin). lia.
Qed.

(** The induction principle that reaches below mappings and sequences. *)
Lemma value_ind' (P : value → Prop) :
  P VNil →
  (∀ s, P (VString s)) →
  (∀ k n, P (VInt k n)) →
  (∀ k f, P (VFloat k f)) →
  (∀ b, P (VBool b)) →
  (∀ xs, Forall P xs → P (VSlice xs)) →
  (∀ m, map_Forall (λ _, P) m → P (VMap m)) →
  ∀ v, P v.
Proof.
  intros Hnil Hstr Hint Hfloat Hbool Hslice Hmap v.
  cut (∀ n w, vsize w < n → P w); [intros H; apply (H (S (vsize v))); lia |].
  clear v. induction n as [| n IH]; intros w Hw; [lia |].
  destruct w; auto.
  - apply Hslice. apply Forall_forall. intros x Hx. apply IH.
    pose proof (vsize_elem x xs Hx). simpl in Hw. lia.
  - apply Hmap. intros k x Hk. apply IH.
    pose proof (vsize_entry k x m Hk). lia.
Qed.

(** *** Strings *)

Lemma append_nil_l (a : string) : "" +:+ a = a.
Proof. reflexivity. Qed.

Lemma append_cons (c : ascii) (a b : string) :
  String c a +:+ b = String c (a +:+ b).
Proof. reflexivity. Qed.

Lemma append_assoc (a b c : string) : (a +:+ b) +:+ c = a +:+ (b +:+ c).
Proof.
  induction a as [| x a IH]; [done |]. by rewrite !append_cons, IH.
Qed.

Lemma append_nil_r (a : string) : a +:+ "" = a.
Proof.
  induction a as [| x a IH]; [done |]. by rewrite append_cons, IH.
Qed.

Lemma append_nonempty_l (a b : string) : a ≠ "" → a +:+ b ≠ "".
Proof. by destruct a. Qed.

Lemma has_char_append (c : ascii) (a b : string) :
  has_char c (a +:+ b) = has_char c a || has_char c b.
Proof.
  induction a as [| x a IH]; [done |].
  rewrite append_cons. simpl. rewrite IH. by rewrite orb_assoc.
Qed.

Lemma plain_key_spec (key : string) :
  plain_key key = true ↔ key ≠ "" ∧ has_char "." key = false.
Proof.
  unfold plain_key. rewrite andb_true_iff, !negb_true_iff.
  by rewrite bool_decide_eq_false.
Qed.

(** *** splitPath inverts the joining of plain keys *)

Lemma splitPath_loop_key (key rest : string) (parts : list string)
    (current : string) :
  has_char "." key = false →
  splitPath_loop (key +:+ rest) parts current =
  splitPath_loop rest parts (current +:+ key).
Proof.
  revert current.
  induction key as [| c key IH]; intros current Hdot.
  - by rewrite append_nil_l, append_nil_r.
  - rewrite append_cons. simpl. simpl in Hdot. apply orb_false_iff in Hdot as [Hc Hkey].
    apply bool_decide_eq_false in Hc.
    rewrite decide_False by done.
    rewrite IH by done. by rewrite append_assoc, append_cons, append_nil_l.
Qed.

Lemma splitPath_loop_keys (ks : list string) (parts : list string)
    (current : string) :
  Forall (λ k, plain_key k = true) ks → current ≠ "" →
  splitPath_loop (foldr (λ k s, "." +:+ k +:+ s) "" ks) parts current =
  parts ++ current :: ks.
Proof.
  revert parts current.
  induction ks as [| k ks IH]; intros parts current Hks Hcur; simpl.
  - by rewrite decide_True.
  - apply Forall_cons in Hks as [Hk Hks].
    apply plain_key_spec in Hk as [Hne Hdot].
    rewrite decide_True by done. rewrite append_nil_l.
    rewrite splitPath_loop_key by done. rewrite append_nil_l.
    rewrite IH by done. by rewrite <- app_assoc.
Qed.

Lemma joinKeys_nonempty (ks : list string) (prefix : string) :
  prefix ≠ "" →
  foldl joinKey prefix ks = prefix +:+ foldr (λ k s, "." +:+ k +:+ s) "" ks.
Proof.
  revert prefix. induction ks as [| k ks IH]; intros prefix Hp; simpl.
  - by rewrite append_nil_r.
  - unfold joinKey at 2. rewrite decide_True by done.
    rewrite IH by (by apply append_nonempty_l).
    by rewrite !append_assoc.
Qed.

Lemma splitPath_joinKeys (ks : list string) :
  Forall (λ k, plain_key k = true) ks → ks ≠ [] →
  foldl joinKey "" ks ≠ "" ∧ splitPath (foldl joinKey "" ks) = ks.
Proof.
  destruct ks as [| k ks]; [done |]. intros Hks _.
  apply Forall_cons in Hks as [Hk Hks].
  pose proof Hk as [Hne Hdot]%plain_key_spec.
  simpl. change (joinKey "" k) with k.
  rewrite joinKeys_nonempty by done.
  split; [by apply append_nonempty_l |].
  unfold splitPath. rewrite decide_False by (by apply append_nonempty_l).
  rewrite splitPath_loop_key by done. rewrite append_nil_l.
  by rewrite splitPath_loop_keys.
Qed.

Lemma plain_keys_map (m : gmap string value) :
  plain_keys (VMap m) = true →
  map_Forall (λ k x, plain_key k = true ∧ plain_keys x = true) m.
Proof.
  simpl. rewrite map_fold_foldr, map_Forall_to_list.
  induction (map_to_list m) as [| [k x] l IH]; simpl; intros H; [done |].
  apply andb_true_iff in H as [[Hk Hx]%andb_true_iff Hl].
  constructor; [done | by apply IH].
Qed.

Lemma plain_keys_slice (xs : list value) :
  plain_keys (VSlice xs) = true → Forall (λ x, plain_keys x = true) xs.
Proof. simpl. intros H. apply Forall_forall. intros x Hx.
  rewrite forallb_forall in H. apply H. by apply list_elem_of_In. Qed.

(** *** Paths of sequence elements *)

(** C8 (where the code departs from it): the element at index 12 of a
    sequence gets the path [items[<]], the character with code
    [12 + '0'] between the brackets, and not [items[12]]; indices 10 and
    11 give [:] and [;]. *)
Theorem extractPaths_index_twelve :
  ExtractValuePaths {["items" := VSlice (replicate 13 VNil)]} =
  ["items"; "items[0]"; "items[1]"; "items[2]"; "items[3]"; "items[4]";
   "items[5]"; "items[6]"; "items[7]"; "items[8]"; "items[9]";
   "items[:]"; "items[;]"; "items[<]"].
Proof. vm_compute. reflexivity. Qed.

(** *** Extracted paths and getValueAtPath *)

(** C1 (as stated) fails: the path [items[0].name] is extracted, and
    [getValueAtPath] looks up the key [items[0]] in the top mapping.  A
    key with a ['.'] in it, or an empty key, gives an extracted path that
    [splitPath] cuts differently. *)
Lemma extracted_index_path_not_gettable :
  ("items[0].name" ∈
     ExtractValuePaths
       {["items" := VSlice [VMap {["name" := VString "item1"]}]]} ∧
   getValueAtPath
     (VMap {["items" := VSlice [VMap {["name" := VString "item1"]}]]})
     "items[0].name" = Err (KeyNotFound "items[0]")) ∧
  ("kubernetes.io/os" ∈
     ExtractValuePaths {["kubernetes.io/os" := VString "linux"]} ∧
   getValueAtPath (VMap {["kubernetes.io/os" := VString "linux"]})
     "kubernetes.io/os" = Err (KeyNotFound "kubernetes")) ∧
  ("x" ∈ ExtractValuePaths {["" := VMap {["x" := VBool true]}]} ∧
   getValueAtPath (VMap {["" := VMap {["x" := VBool true]}]}) "x" =
     Err (KeyNotFound "x")).
Proof.
  split_and!; try (vm_compute; reflexivity);
    apply list_elem_of_In; vm_compute; auto 20.
Qed.

(** *** The locations of a tree *)

Lemma locate_keys (keys : list string) :
  ∀ v w, locate v (Key <$> keys) = Some w → getValueAtPath_loop v keys = Ok w.
Proof.
  induction keys as [| key keys IH]; intros v w; simpl.
  - by intros [= ->].
  - destruct v as [| | | | | | m]; try done.
    destruct (m !! key); [apply IH | done].
Qed.

Lemma plain_steps_keys (steps : list step) :
  Forall (λ s, plain_step s = true) steps →
  ∃ keys, steps = Key <$> keys ∧ Forall (λ key, plain_key key = true) keys.
Proof.
  induction 1 as [| [key | i] steps Hs _ (keys & -> & Hkeys)].
  - by exists [].
  - exists (key :: keys). split; [done | by constructor].
  - done.
Qed.

Lemma extractedPath_keys (keys : list string) (prefix : string) :
  foldl extractedStep prefix (Key <$> keys) = foldl joinKey prefix keys.
Proof.
  revert prefix. induction keys as [| key keys IH]; intros prefix; [done |].
  simpl. apply IH.
Qed.

Lemma extractPaths_slice_eq (prefix : string) (xs : list value)
    (paths : list string) :
  extractPaths prefix (VSlice xs) paths =
  (fix range (i : nat) (v : list value) (paths : list string) :=
     match v with
     | [] => paths
     | item :: v =>
         let indexPath :=
           prefix +:+ "[" +:+ rune_string (rune_of_index i) +:+ "]" in
         range (S i) v (extractPaths indexPath item (paths ++ [indexPath]))
     end) 0%nat xs paths.
Proof. reflexivity. Qed.

Lemma extractPaths_map_eq (prefix : string) (m : gmap string value)
    (paths : list string) :
  extractPaths prefix (VMap m) paths =
  map_fold (λ key value paths,
    extractPaths (joinKey prefix key) value (paths ++ [joinKey prefix key]))
    paths m.
Proof. reflexivity. Qed.

(** [extractPaths] appends the paths of the walks into the value, each
    walk once. *)
Lemma extractPaths_walks (v : value) :
  ∃ walks : list (list step),
    NoDup walks ∧
    (∀ steps, steps ∈ walks ↔ steps ≠ [] ∧ is_Some (locate v steps)) ∧
    ∀ prefix paths,
      extractPaths prefix v paths =
      paths ++ ((λ steps, foldl extractedStep prefix steps) <$> walks).
Proof.
  induction v as [| s | k n | k f | b | xs IH | m IH] using value_ind'.
  1-5: exists []; split; [constructor |]; split;
    [| by intros; simpl; rewrite app_nil_r];
    intros steps; split; [by intros ?%elem_of_nil |];
    intros [Hne [w Hw]]; destruct steps as [| [key | i] steps]; done.
  - (* a sequence *)
    cut (∀ i,
      ∃ walks : list (list step),
        NoDup walks ∧
        (∀ steps, steps ∈ walks ↔
           ∃ j x rest, steps = Index (i + j) :: rest ∧ xs !! j = Some x ∧
                       is_Some (locate x rest)) ∧
        ∀ prefix paths,
          (fix range (i : nat) (v : list value) (paths : list string) :=
             match v with
             | [] => paths
             | item :: v =>
                 let indexPath :=
                   prefix +:+ "[" +:+ rune_string (rune_of_index i) +:+ "]" in
                 range (S i) v
                   (extractPaths indexPath item (paths ++ [indexPath]))
             end) i xs paths =
          paths ++ ((λ steps, foldl extractedStep prefix steps) <$> walks)).
    { intros H. destruct (H 0%nat) as (walks & Hnd & Hin & Heq).
      exists walks. split; [done |]. split; [| exact Heq].
      intros steps. rewrite Hin. split.
      - intros (j & x & rest & -> & Hj & Hx). split; [done |].
        simpl. by rewrite Hj.
      - intros [Hne Hw]. destruct steps as [| [key | j] rest]; try done;
          simpl in Hw; [by destruct Hw |].
        destruct (xs !! j) as [x |] eqn:Hj; [| by destruct Hw].
        by exists j, x, rest. }
    induction xs as [| x xs IHxs]; intros i.
    + exists []. split; [constructor |]. split.
      * intros steps. split; [by intros ?%elem_of_nil |].
        by intros (j & x & rest & _ & Hj & _).
      * intros. by rewrite app_nil_r.
    + apply Forall_cons in IH as [(wx & Hndx & Hinx & Heqx) IH].
      destruct (IHxs IH (S i)) as (wr & Hndr & Hinr & Heqr).
      exists (([Index i] :: ((Index i ::.) <$> wx)) ++ wr).
      split; [| split].
      * apply NoDup_app. split; [| split; [| done]].
        -- constructor.
           ++ intros (w & [= <-] & Hw)%list_elem_of_fmap.
              apply Hinx in Hw as [Hw _]. done.
           ++ apply NoDup_fmap_2_strong; [| done]. by intros ?? _ _ [= ->].
        -- intros steps Hsteps (j & y & rest & -> & _)%Hinr.
           apply elem_of_cons in Hsteps
             as [[= Hi] | (w & [= Hi] & _)%list_elem_of_fmap]; lia.
      * intros steps. rewrite elem_of_app, elem_of_cons, list_elem_of_fmap.
        split.
        -- intros [[-> | (w & -> & Hw)] | Hr].
           ++ exists 0%nat, x, []. rewrite Nat.add_0_r. by split_and!.
           ++ apply Hinx in Hw as [_ Hw].
              exists 0%nat, x, w. rewrite Nat.add_0_r. by split_and!.
           ++ apply Hinr in Hr as (j & y & rest & -> & Hj & Hy).
              exists (S j), y, rest. rewrite Nat.add_succ_r. by split_and!.
        -- intros (j & y & rest & -> & Hj & Hy). destruct j as [| j].
           ++ simpl in Hj. injection Hj as <-. rewrite Nat.add_0_r. left.
              destruct rest as [| s rest]; [by left | right].
              exists (s :: rest). split; [done |]. by apply Hinx.
           ++ right. apply Hinr. exists j, y, rest.
              rewrite Nat.add_succ_r. by split_and!.
      * intros prefix paths. rewrite Heqr, Heqx.
        rewrite fmap_app, fmap_cons, <- list_fmap_compose.
        rewrite <- !app_assoc. done.
  - (* a mapping *)
    pose proof (NoDup_fst_map_to_list m) as Hnodup.
    apply map_Forall_to_list in IH.
    cut (∃ walks : list (list step),
        NoDup walks ∧
        (∀ steps, steps ∈ walks ↔
           ∃ key x rest, steps = Key key :: rest ∧ (key, x) ∈ map_to_list m ∧
                         is_Some (locate x rest)) ∧
        ∀ prefix paths,
          foldr (uncurry (λ key value paths,
            extractPaths (joinKey prefix key) value
              (paths ++ [joinKey prefix key]))) paths (map_to_list m) =
          paths ++ ((λ steps, foldl extractedStep prefix steps) <$> walks)).
    { intros (walks & Hnd & Hin & Heq).
      exists walks. split; [done |]. split.
      - intros steps. rewrite Hin. split.
        + intros (key & x & rest & -> & Hk%elem_of_map_to_list & Hx).
          split; [done |]. simpl. by rewrite Hk.
        + intros [Hne Hw]. destruct steps as [| [key | j] rest]; try done;
            simpl in Hw; [| by destruct Hw].
          destruct (m !! key) as [x |] eqn:Hk; [| by destruct Hw].
          exists key, x, rest. by rewrite elem_of_map_to_list.
      - intros prefix paths.
        rewrite extractPaths_map_eq, map_fold_foldr. apply Heq. }
    induction (map_to_list m) as [| [k x] l IHl].
    + exists []. split; [constructor |]. split.
      * intros steps. split; [by intros ?%elem_of_nil |].
        by intros (key & y & rest & _ & ?%elem_of_nil & _).
      * intros. by rewrite app_nil_r.
    + apply Forall_cons in IH as [(wx & Hndx & Hinx & Heqx) IH].
      rewrite fmap_cons in Hnodup. apply NoDup_cons in Hnodup as [Hk Hnodup].
      destruct (IHl IH Hnodup) as (wl & Hndl & Hinl & Heql).
      exists (wl ++ ([Key k] :: ((Key k ::.) <$> wx))).
      split; [| split].
      * apply NoDup_app. split; [done |]. split.
        -- intros steps (key & y & rest & -> & Hy & _)%Hinl Hsteps.
           apply Hk. apply list_elem_of_fmap. exists (key, y).
           split; [| done]. simpl.
           apply elem_of_cons in Hsteps
             as [[= ->] | (w & [= -> _] & _)%list_elem_of_fmap]; done.
        -- constructor.
           ++ intros (w & [= <-] & Hw)%list_elem_of_fmap.
              apply Hinx in Hw as [Hw _]. done.
           ++ apply NoDup_fmap_2_strong; [| done]. by intros ?? _ _ [= ->].
      * intros steps. rewrite elem_of_app, elem_of_cons, list_elem_of_fmap.
        split.
        -- intros [Hl | [-> | (w & -> & Hw)]].
           ++ apply Hinl in Hl as (key & y & rest & -> & Hy & Hrest).
              exists key, y, rest. split_and!; [done | by right | done].
           ++ exists k, x, []. split_and!; [done | by left | done].
           ++ apply Hinx in Hw as [_ Hw].
              exists k, x, w. split_and!; [done | by left | done].
        -- intros (key & y & rest & -> & Hy & Hrest).
           apply elem_of_cons in Hy as [[= -> ->] | Hy].
           ++ right. destruct rest as [| s rest]; [by left | right].
              exists (s :: rest). split; [done |]. by apply Hinx.
           ++ left. apply Hinl. by exists key, y, rest.
      * intros prefix paths. simpl. rewrite Heqx, Heql.
        rewrite fmap_app, fmap_cons, <- list_fmap_compose.
        rewrite <- !app_assoc. done.
Qed.

(** C1 (amended): the extracted paths are the paths of the locations of
    the tree below its root, reached through mapping entries and sequence
    elements; at every location reached through mapping entries only,
    under keys that are not empty and have no ['.'], [getValueAtPath]
    succeeds at the extracted path and returns the value at that
    location. *)
Theorem extracted_paths_at_locations (data : gmap string value) :
  (∀ p, p ∈ ExtractValuePaths data ↔
        ∃ steps, steps ≠ [] ∧ is_Some (locate (VMap data) steps) ∧
                 p = extractedPath steps) ∧
  (∀ steps v,
     Forall (λ s, plain_step s = true) steps →
     locate (VMap data) steps = Some v →
     getValueAtPath (VMap data) (extractedPath steps) = Ok v).
Proof.
  split.
  - intros p. unfold ExtractValuePaths.
    destruct (extractPaths_walks (VMap data)) as (walks & _ & Hin & ->).
    rewrite app_nil_l, list_elem_of_fmap. split.
    + intros (steps & -> & [Hne Hw]%Hin). by exists steps.
    + intros (steps & Hne & Hw & ->). exists steps. split; [done |].
      by apply Hin.
  - intros steps v (keys & -> & Hkeys)%plain_steps_keys Hv%locate_keys.
    unfold extractedPath. rewrite extractedPath_keys.
    destruct keys as [| key keys]; [done |].
    destruct (splitPath_joinKeys (key :: keys) Hkeys) as [Hp Hsplit]; [done |].
    unfold getValueAtPath. rewrite decide_False by done. by rewrite Hsplit.
Qed.

Lemma extracted_paths_at_locations_witness :
  "database.host" ∈
    ExtractValuePaths
      (<["database" := VMap {["host" := VString "localhost"]}]>
         {["kubernetes.io/os" := VSlice [VString "linux"]]}) ∧
  getValueAtPath
    (VMap (<["database" := VMap {["host" := VString "localhost"]}]>
             {["kubernetes.io/os" := VSlice [VString "linux"]]}))
    "database.host" = Ok (VString "localhost").
Proof.
  destruct (extracted_paths_at_locations
              (<["database" := VMap {["host" := VString "localhost"]}]>
                 {["kubernetes.io/os" := VSlice [VString "linux"]]}))
    as [Hlisted Hget].
  split.
  - apply Hlisted. exists [Key "database"; Key "host"].
    split; [done |]. split; [| reflexivity]. vm_compute. by eexists.
  - apply (Hget [Key "database"; Key "host"]).
    + repeat constructor.
    + vm_compute. reflexivity.
Defined.

(** *** setValueAtPath *)

Lemma setValueAtPath_loop_cons (current : gmap string value)
    (key key2 : string) (keys : list string) (v : value) :
  setValueAtPath_loop current (key :: key2 :: keys) v =
  match current !! key with
  | Some (VMap nextMap) =>
      nextMap' ← setValueAtPath_loop nextMap (key2 :: keys) v;
      Ok (<[key := VMap nextMap']> current)
  | Some _ => Err (NonMapNavigate key)
  | None =>
      newMap ← setValueAtPath_loop ∅ (key2 :: keys) v;
      Ok (<[key := VMap newMap]> current)
  end.
Proof. reflexivity. Qed.

Lemma setValueAtPath_loop_get (keys : list string) (v : value) :
  ∀ current data',
    setValueAtPath_loop current keys v = Ok data' →
    getValueAtPath_loop (VMap data') keys = Ok v.
Proof.
  induction keys as [| key keys IH]; intros current data' Hset; [done |].
  destruct keys as [| key2 keys].
  - simpl in Hset. injection Hset as <-. simpl.
    by rewrite lookup_insert_eq.
  - rewrite setValueAtPath_loop_cons in Hset.
    set (rest := key2 :: keys) in *.
    destruct (current !! key) as [[| | | | | |nextMap] |] eqn:Hk; try done.
    + destruct (setValueAtPath_loop nextMap rest v) as [m'| |] eqn:Hrec;
        try done.
      simpl in Hset. injection Hset as <-.
      simpl. rewrite lookup_insert_eq. by eapply IH.
    + destruct (setValueAtPath_loop ∅ rest v) as [m'| |] eqn:Hrec; try done.
      simpl in Hset. injection Hset as <-.
      simpl. rewrite lookup_insert_eq. by eapply IH.
Qed.

Lemma navigable_cons (current : gmap string value) (key key2 : string)
    (keys : list string) :
  navigable current (key :: key2 :: keys) =
  match current !! key with
  | Some (VMap nextMap) => navigable nextMap (key2 :: keys)
  | Some _ => false
  | None => true
  end.
Proof. reflexivity. Qed.

Lemma setValueAtPath_loop_total (keys : list string) (v : value) :
  keys ≠ [] →
  ∀ current,
    if navigable current keys
    then ∃ data', setValueAtPath_loop current keys v = Ok data'
    else ∃ key, setValueAtPath_loop current keys v = Err (NonMapNavigate key).
Proof.
  induction keys as [| key keys IH]; intros Hne current; [done |].
  destruct keys as [| key2 keys]; [simpl; eauto |].
  rewrite navigable_cons, setValueAtPath_loop_cons.
  clear Hne. assert (Hrest : key2 :: keys ≠ []) by done.
  revert IH Hrest. generalize (key2 :: keys). intros rest IH Hrest.
  destruct (current !! key) as [[| | | | | |nextMap] |] eqn:Hk; eauto.
  - specialize (IH Hrest nextMap).
    destruct (navigable nextMap rest).
    + destruct IH as [m' ->]. simpl. eauto.
    + destruct IH as [k' ->]. simpl. eauto.
  - specialize (IH Hrest ∅).
    assert (Hnav : navigable ∅ rest = true).
    { clear. destruct rest as [| k2 rest]; [done |].
      destruct rest; [done |]. by rewrite navigable_cons, lookup_empty. }
    rewrite Hnav in IH. destruct IH as [m' ->]. simpl. eauto.
Qed.

(** C6: after a [setValueAtPath] that succeeds, [getValueAtPath] at the
    same path returns the value that was set. *)
Theorem getValueAtPath_setValueAtPath (data data' : gmap string value)
    (path : string) (v : value) :
  setValueAtPath data path v = Ok data' →
  getValueAtPath (VMap data') path = Ok v.
Proof.
  unfold setValueAtPath, getValueAtPath.
  case_decide; [done |]. apply setValueAtPath_loop_get.
Qed.

Lemma getValueAtPath_setValueAtPath_witness :
  getValueAtPath
    (VMap (<["new" := VMap {["nested" := VMap {["key" := VString "value"]}]}]>
             {["other" := VBool true]}))
    "new.nested.key" = Ok (VString "value").
Proof.
  apply (getValueAtPath_setValueAtPath {["other" := VBool true]}).
  vm_compute. reflexivity.
Defined.

(** C7 (as stated) fails: a non-empty path through a key that holds a
    scalar is refused with another error than [EmptyPath]. *)
Lemma setValueAtPath_through_scalar :
  setValueAtPath {["a" := VInt KInt 1]} "a.b" (VString "x") =
  Err (NonMapNavigate "a").
Proof. vm_compute. reflexivity. Qed.

(** C7 (amended): [setValueAtPath] fails with [EmptyPath] exactly when
    the path is empty.  On a path with at least one segment it succeeds
    when no key before the last is bound to a value that is not a
    mapping (missing keys included), and the final key then holds the
    value whatever it held before; otherwise it fails with the error of
    navigating through a non-map value. *)
Theorem setValueAtPath_outcomes (data : gmap string value) (path : string)
    (v : value) :
  (setValueAtPath data path v = Err EmptyPath ↔ path = "") ∧
  (splitPath path ≠ [] →
   if navigable data (splitPath path)
   then ∃ data', setValueAtPath data path v = Ok data' ∧
                 getValueAtPath (VMap data') path = Ok v
   else ∃ key, setValueAtPath data path v = Err (NonMapNavigate key)).
Proof.
  split.
  - unfold setValueAtPath. case_decide as Hp; [done |].
    split; [| done]. intros Hset. exfalso.
    destruct (splitPath path) as [| key keys] eqn:Hkeys; [done |].
    pose proof (setValueAtPath_loop_total (key :: keys) v ltac:(done) data) as H.
    destruct (navigable data (key :: keys)); destruct H as [x Hx]; congruence.
  - intros Hne.
    assert (Hp : path ≠ "") by (by intros ->).
    pose proof (setValueAtPath_loop_total _ v Hne data) as H.
    destruct (navigable data (splitPath path)).
    + destruct H as [data' Hset]. exists data'.
      assert (Hset' : setValueAtPath data path v = Ok data').
      { unfold setValueAtPath. by rewrite decide_False. }
      split; [done |]. unfold getValueAtPath. rewrite decide_False by done.
      by eapply setValueAtPath_loop_get.
    + destruct H as [key Hset]. exists key.
      unfold setValueAtPath. by rewrite decide_False.
Qed.

Lemma setValueAtPath_outcomes_witness :
  ∃ data',
    setValueAtPath ∅ "new.nested.key" (VString "value") = Ok data' ∧
    getValueAtPath (VMap data') "new.nested.key" = Ok (VString "value").
Proof.
  pose proof (proj2 (setValueAtPath_outcomes ∅ "new.nested.key"
                       (VString "value"))) as H.
  assert (Hkeys : splitPath "new.nested.key" = ["new"; "nested"; "key"])
    by (vm_compute; reflexivity).
  rewrite Hkeys in H. apply H. discriminate.
Defined.

(** *** modifyValueAtPath *)

Lemma foldr_insert_entries (l : list (string * value))
    (f : string → value → gmap string value → gmap string value) :
  Forall (λ '(k, x), ∀ dst, f k x dst = <[k := x]> dst) l →
  foldr (uncurry f) ∅ l = list_to_map l.
Proof.
  induction 1 as [| [k x] l Hx _ IH]; simpl; [done |].
  by rewrite Hx, IH.
Qed.

(** On trees the deep copy is the identity. *)
Lemma copyValue_id (v : value) : copyValue v = v.
Proof.
  induction v as [| | | | | xs IH | m IH] using value_ind'; simpl; try done.
  - f_equal. induction IH as [| x xs Hx _ IHxs]; simpl; [done |].
    by rewrite Hx, IHxs.
  - f_equal. rewrite map_fold_foldr.
    rewrite (foldr_insert_entries _
               (λ key value dst, <[key := copyValue value]> dst)).
    + apply list_to_map_to_list.
    + apply map_Forall_to_list in IH.
      eapply Forall_impl; [exact IH |]. intros [k x] Hx dst. simpl in Hx.
      by rewrite Hx.
Qed.

Lemma copyMap_empty (m : gmap string value) : copyMap m ∅ = m.
Proof.
  pose proof (copyValue_id (VMap m)) as H. simpl in H. by injection H.
Qed.

Lemma wrap_succ_ne (k : intkind) (n : Z) : wrap k (n + 1) ≠ n.
Proof.
  unfold wrap. destruct k; simpl; intros H.
  all: match type of H with
       | context [(?x mod ?m)%Z] =>
           pose proof (Z.div_mod x m ltac:(lia));
           pose proof (Z.mod_pos_bound x m ltac:(lia))
       end; lia.
Qed.

Lemma append_length (a b : string) :
  String.length (a +:+ b) = String.length a + String.length b.
Proof.
  induction a as [| c a IH]; [done |]. rewrite append_cons. simpl. by rewrite IH.
Qed.

Lemma getValueAtPath_loop_settable (keys : list string) (v : value) :
  keys ≠ [] →
  ∀ current w,
    getValueAtPath_loop (VMap current) keys = Ok w →
    ∃ data', setValueAtPath_loop current keys v = Ok data'.
Proof.
  intros Hne current w Hget.
  pose proof (setValueAtPath_loop_total keys v Hne current) as H.
  cut (navigable current keys = true); [by intros Hnav; rewrite Hnav in H |].
  clear H. revert current Hget.
  induction keys as [| key keys IH]; intros current Hget; [done |].
  destruct keys as [| key2 keys]; [done |].
  rewrite navigable_cons. simpl in Hget.
  destruct (current !! key) as [[| | | | | |nextMap] |]; try done.
  by apply IH.
Qed.

Lemma setValueAtPath_where_gettable (values : gmap string value)
    (path : string) (w v : value) :
  splitPath path ≠ [] →
  getValueAtPath (VMap values) path = Ok w →
  ∃ modified,
    setValueAtPath values path v = Ok modified ∧
    getValueAtPath (VMap modified) path = Ok v.
Proof.
  intros Hne Hget.
  assert (Hp : path ≠ "") by (by intros ->).
  unfold getValueAtPath, setValueAtPath in *.
  rewrite decide_False in Hget by done. rewrite !decide_False by done.
  destruct (getValueAtPath_loop_settable _ v Hne _ _ Hget) as [modified Hset].
  exists modified. split; [done |]. rewrite decide_False by done.
  by eapply setValueAtPath_loop_get.
Qed.

(** C4 (as stated) fails twice: at the empty path [getValueAtPath]
    returns the whole tree, a mapping, and [modifyValueAtPath] ends in
    [EmptyPath]; and a mapping that already binds the sentinel key to
    the sentinel value comes back unchanged. *)
Lemma modifyValueAtPath_not_always_changing :
  (getValueAtPath (VMap {["a" := VString "x"]}) "" =
     Ok (VMap {["a" := VString "x"]}) ∧
   modifyValueAtPath (λ _, 0%Z) {["a" := VString "x"]} "" ValueTypeMap =
     Err EmptyPath) ∧
  (getValueAtPath
     (VMap {["cfg" :=
               VMap {["helmhound-test-key" := VString "helmhound-test-value"]}]})
     "cfg" =
     Ok (VMap {["helmhound-test-key" := VString "helmhound-test-value"]}) ∧
   modifyValueAtPath (λ _, 0%Z)
     {["cfg" :=
         VMap {["helmhound-test-key" := VString "helmhound-test-value"]}]}
     "cfg" ValueTypeMap =
     Ok {["cfg" :=
            VMap {["helmhound-test-key" := VString "helmhound-test-value"]}]}).
Proof. repeat split; vm_compute; reflexivity. Qed.

(** C4 (amended): at a path with at least one segment where
    [getValueAtPath] succeeds with a value classified String, Int, Bool,
    Slice or Map, [modifyValueAtPath] at that classification succeeds, and
    the value at the path in the tree it returns differs from the one
    before, unless that value is a mapping that already binds the
    sentinel key to the sentinel value. *)
Theorem modifyValueAtPath_changes (unrepresentable : spec_float → Z)
    (values : gmap string value) (path : string) (currentValue : value) :
  splitPath path ≠ [] →
  getValueAtPath (VMap values) path = Ok currentValue →
  determineValueType currentValue ≠ ValueTypeUnknown →
  (∀ m, currentValue = VMap m →
        m !! "helmhound-test-key" ≠ Some (VString "helmhound-test-value")) →
  ∃ modified newValue,
    modifyValueAtPath unrepresentable values path
      (determineValueType currentValue) = Ok modified ∧
    getValueAtPath (VMap modified) path = Ok newValue ∧
    newValue ≠ currentValue.
Proof.
  intros Hne Hget Hty Hsentinel.
  unfold modifyValueAtPath. rewrite copyMap_empty, Hget.
  destruct currentValue as [| s | k n | k f | b | xs | m]; simpl; try done.
  - destruct (setValueAtPath_where_gettable values path _
                (VString ("helmhound-test-" +:+ s)) Hne Hget)
      as (modified & -> & Hget').
    eexists _, _. split_and!; [done | done |].
    intros [= H]. apply (f_equal String.length) in H.
    rewrite append_length in H. simpl in H. lia.
  - destruct (setValueAtPath_where_gettable values path _
                (VInt k (wrap k (n + 1))) Hne Hget)
      as (modified & -> & Hget').
    eexists _, _. split_and!; [done | done |].
    intros [= H]. by apply wrap_succ_ne in H.
  - destruct (setValueAtPath_where_gettable values path _
                (VInt KInt (wrap KInt (int_of_float unrepresentable f + 1)))
                Hne Hget)
      as (modified & -> & Hget').
    eexists _, _. split_and!; [done | done | done].
  - destruct (setValueAtPath_where_gettable values path _
                (VBool (negb b)) Hne Hget)
      as (modified & -> & Hget').
    eexists _, _. split_and!; [done | done |]. by destruct b.
  - destruct (setValueAtPath_where_gettable values path _
                (VSlice (xs ++ [VString "helmhound-test-element"])) Hne Hget)
      as (modified & -> & Hget').
    eexists _, _. split_and!; [done | done |].
    intros [= H]. apply (f_equal length) in H.
    rewrite length_app in H. simpl in H. lia.
  - rewrite copyMap_empty.
    destruct (setValueAtPath_where_gettable values path _
                (VMap (<["helmhound-test-key" :=
                           VString "helmhound-test-value"]> m)) Hne Hget)
      as (modified & -> & Hget').
    eexists _, _. split_and!; [done | done |].
    intros [= H]. apply (Hsentinel m eq_refl).
    rewrite <- H. apply lookup_insert_eq.
Qed.

Lemma modifyValueAtPath_changes_witness :
  ∃ modified newValue,
    modifyValueAtPath (λ _, 0%Z)
      {["server" := VMap {["port" := VInt KInt 8080]}]} "server.port"
      ValueTypeInt = Ok modified ∧
    getValueAtPath (VMap modified) "server.port" = Ok newValue ∧
    newValue ≠ VInt KInt 8080.
Proof.
  apply (modifyValueAtPath_changes (λ _, 0%Z)
           {["server" := VMap {["port" := VInt KInt 8080]}]} "server.port"
           (VInt KInt 8080)).
  - vm_compute. discriminate.
  - vm_compute. reflexivity.
  - discriminate.
  - discriminate.
Defined.

(** *** The mutually recursive functions, as the source names them *)

Lemma copyValue_map (v : gmap string value) :
  copyValue (VMap v) = VMap (copyMap v ∅).
Proof. reflexivity. Qed.

Lemma copyValue_slice (v : list value) :
  copyValue (VSlice v) = VSlice (copySlice v).
Proof. reflexivity. Qed.

Lemma compareValues_maps (path : string) (leftVal rightVal : gmap string value)
    (diffs : list string) :
  compareValues path (VMap leftVal) (VMap rightVal) diffs =
  compareMap path leftVal rightVal diffs.
Proof. reflexivity. Qed.

Lemma compareValues_slices (path : string) (leftVal rightVal : list value)
    (diffs : list string) :
  compareValues path (VSlice leftVal) (VSlice rightVal) diffs =
  compareSlice path leftVal rightVal diffs.
Proof. reflexivity. Qed.

Lemma findDifferencesWithValues_maps (path : string)
    (leftVal rightVal : gmap string value) (diffs : gmap string DiffValue) :
  findDifferencesWithValues path (VMap leftVal) (VMap rightVal) diffs =
  findMapDifferencesWithValues path leftVal rightVal diffs.
Proof. reflexivity. Qed.

Lemma findDifferencesWithValues_slices (path : string)
    (leftVal rightVal : list value) (diffs : gmap string DiffValue) :
  findDifferencesWithValues path (VSlice leftVal) (VSlice rightVal) diffs =
  findSliceDifferencesWithValues path leftVal rightVal diffs.
Proof. reflexivity. Qed.

(** *** The loops over two slices, index by index *)

Lemma foldl_seq_S {B} (f : B → nat → B) (b : B) (n : nat) :
  foldl f b (seq 0 (S n)) = foldl (λ b j, f b (S j)) (f b 0) (seq 0 n).
Proof.
  simpl. rewrite <- fmap_S_seq. generalize (f b 0) as c. generalize (seq 0 n) as l.
  induction l as [| j l IH]; intros c; simpl; [done |]. apply IH.
Qed.

Lemma foldl_ext {A B} (f g : B → A → B) (b : B) (l : list A) :
  (∀ b a, f b a = g b a) → foldl f b l = foldl g b l.
Proof.
  intros Hfg. revert b. induction l as [| a l IH]; intros b; simpl; [done |].
  by rewrite Hfg, IH.
Qed.

(** [compareSlice] as the source writes it: one pass per index below
    [maxLen], looking at [left[i]] and [right[i]]. *)
Lemma compareSlice_with_indexed
    (rec : string → value → value → list string → list string)
    (basePath : string) (left right : list value) :
  ∀ i diffs,
    compareSlice_with rec basePath i left right diffs =
    foldl (λ diffs j,
             let newPath := buildArrayPath basePath (i + j) in
             match left !! j, right !! j with
             | None, _ => diffs ++ [newPath]
             | Some _, None => diffs ++ [newPath]
             | Some l, Some r => rec newPath l r diffs
             end) diffs (seq 0 (length left `max` length right)).
Proof.
  revert right. induction left as [| l left IH]; intros right i diffs.
  - simpl. revert i diffs.
    induction right as [| r right IHr]; intros i diffs; [done |].
    cbn [compareSlice_rest length]. rewrite foldl_seq_S. cbn [lookup list_lookup].
    rewrite Nat.add_0_r. rewrite IHr.
    apply foldl_ext. intros b j. simpl.
    by rewrite Nat.add_succ_r.
  - destruct right as [| r right].
    + cbn [compareSlice_with length Nat.max]. rewrite foldl_seq_S.
      cbn [lookup list_lookup]. rewrite Nat.add_0_r.
      rewrite (IH [] (S i)). simpl. rewrite Nat.max_0_r.
      apply foldl_ext. intros b j. simpl. by rewrite Nat.add_succ_r.
    + cbn [compareSlice_with length Nat.max]. rewrite foldl_seq_S.
      cbn [lookup list_lookup]. rewrite Nat.add_0_r.
      rewrite (IH right (S i)).
      apply foldl_ext. intros b j. simpl. by rewrite Nat.add_succ_r.
Qed.

(** [findSliceDifferencesWithValues] likewise; below [maxLen] an index
    is within one of the two slices. *)
Lemma findSliceDifferencesWithValues_with_indexed
    (rec : string → value → value → gmap string DiffValue →
           gmap string DiffValue)
    (basePath : string) (left right : list value) :
  ∀ i diffs,
    findSliceDifferencesWithValues_with rec basePath i left right diffs =
    foldl (λ diffs j,
             let newPath := buildArrayPath basePath (i + j) in
             match left !! j, right !! j with
             | None, Some r =>
                 <[newPath := {| Left := VNil; Right := r;
                                 Type_ := DiffTypeAdded |}]> diffs
             | Some l, None =>
                 <[newPath := {| Left := l; Right := VNil;
                                 Type_ := DiffTypeRemoved |}]> diffs
             | Some l, Some r => rec newPath l r diffs
             | None, None => diffs
             end) diffs (seq 0 (length left `max` length right)).
Proof.
  revert right. induction left as [| l left IH]; intros right i diffs.
  - simpl. revert i diffs.
    induction right as [| r right IHr]; intros i diffs; [done |].
    cbn [findSliceDifferencesWithValues_rest length]. rewrite foldl_seq_S.
    cbn [lookup list_lookup]. rewrite Nat.add_0_r. rewrite IHr.
    apply foldl_ext. intros b j. simpl. by rewrite Nat.add_succ_r.
  - destruct right as [| r right].
    + cbn [findSliceDifferencesWithValues_with length Nat.max].
      rewrite foldl_seq_S. cbn [lookup list_lookup]. rewrite Nat.add_0_r.
      rewrite (IH [] (S i)). simpl. rewrite Nat.max_0_r.
      apply foldl_ext. intros b j. simpl. by rewrite Nat.add_succ_r.
    + cbn [findSliceDifferencesWithValues_with length Nat.max].
      rewrite foldl_seq_S. cbn [lookup list_lookup]. rewrite Nat.add_0_r.
      rewrite (IH right (S i)).
      apply foldl_ext. intros b j. simpl. by rewrite Nat.add_succ_r.
Qed.

(** *** The structural diff *)

Lemma foldr_fixed {A B} (f : A → B → B) (b : B) (l : list A) :
  Forall (λ a, ∀ b, f a b = b) l → foldr f b l = b.
Proof. induction 1 as [| a l Ha _ IH]; simpl; [done |]. by rewrite IH. Qed.

Lemma SFeqb_refl (f : spec_float) : is_nan f = false → SFeqb f f = true.
Proof.
  unfold SFeqb. destruct f as [s | s | | s m e]; simpl; try done.
  - by destruct s.
  - rewrite Z.compare_refl, Pos.compare_cont_refl. by destruct s.
Qed.

Lemma nan_free_map (m : gmap string value) :
  nan_free (VMap m) = true → map_Forall (λ _ x, nan_free x = true) m.
Proof.
  simpl. rewrite map_fold_foldr, map_Forall_to_list.
  induction (map_to_list m) as [| [k x] l IH]; simpl; intros H; [done |].
  apply andb_true_iff in H as [Hx Hl]. constructor; [done | by apply IH].
Qed.

Lemma nan_free_slice (xs : list value) :
  nan_free (VSlice xs) = true → Forall (λ x, nan_free x = true) xs.
Proof.
  simpl. intros H. apply Forall_forall. intros x Hx.
  rewrite forallb_forall in H. apply H. by apply list_elem_of_In.
Qed.

Lemma map_to_list_lookup (m : gmap string value) :
  Forall (λ '(k, x), m !! k = Some x) (map_to_list m).
Proof. apply Forall_forall. intros [k x]. apply elem_of_map_to_list. Qed.

(** Without NaN a tree shows no difference with itself, for either
    differ. *)
Lemma compareValues_same (v : value) :
  nan_free v = true →
  ∀ path diffs, compareValues path v v diffs = diffs.
Proof.
  induction v as [| s | k n | k f | b | xs IH | m IH] using value_ind';
    intros Hnan path diffs; simpl; try done.
  - by rewrite !bool_decide_eq_true_2.
  - rewrite decide_False by (by intros H; apply H).
    by rewrite !bool_decide_eq_true_2.
  - rewrite decide_False by (by intros H; apply H).
    simpl in Hnan. apply negb_true_iff in Hnan.
    rewrite bool_decide_eq_true_2 by done. by rewrite SFeqb_refl.
  - by rewrite bool_decide_eq_true_2.
  - apply nan_free_slice in Hnan.
    generalize 0%nat as i. revert diffs.
    induction xs as [| x xs IHxs]; intros diffs i; [done |].
    apply Forall_cons in IH as [IHx IH].
    apply Forall_cons in Hnan as [Hx Hnan].
    simpl. rewrite IHx by done. by apply IHxs.
  - apply nan_free_map in Hnan.
    unfold compareMap_with. rewrite !map_fold_foldr.
    apply map_Forall_to_list in IH, Hnan.
    pose proof (map_to_list_lookup m) as Hm.
    rewrite (foldr_fixed _ diffs).
    + apply foldr_fixed. eapply Forall_impl; [exact Hm |].
      intros [k x] Hk d. simpl. by rewrite Hk.
    + clear diffs.
      induction (map_to_list m) as [| [k x] l IHl]; constructor.
      * apply Forall_cons in IH as [IHx _].
        apply Forall_cons in Hnan as [Hx _].
        apply Forall_cons in Hm as [Hk _].
        intros d. simpl. rewrite Hk. by apply IHx.
      * apply Forall_cons in IH as [_ IH].
        apply Forall_cons in Hnan as [_ Hnan].
        apply Forall_cons in Hm as [_ Hm]. by apply IHl.
Qed.

Lemma findDifferencesWithValues_same (v : value) :
  nan_free v = true →
  ∀ path diffs, findDifferencesWithValues path v v diffs = diffs.
Proof.
  induction v as [| s | k n | k f | b | xs IH | m IH] using value_ind';
    intros Hnan path diffs; simpl; try done.
  - by rewrite !bool_decide_eq_true_2.
  - rewrite decide_False by (by intros H; apply H).
    by rewrite !bool_decide_eq_true_2.
  - rewrite decide_False by (by intros H; apply H).
    simpl in Hnan. apply negb_true_iff in Hnan.
    rewrite bool_decide_eq_true_2 by done. by rewrite SFeqb_refl.
  - by rewrite bool_decide_eq_true_2.
  - apply nan_free_slice in Hnan.
    generalize 0%nat as i. revert diffs.
    induction xs as [| x xs IHxs]; intros diffs i; [done |].
    apply Forall_cons in IH as [IHx IH].
    apply Forall_cons in Hnan as [Hx Hnan].
    simpl. rewrite IHx by done. by apply IHxs.
  - apply nan_free_map in Hnan.
    unfold findMapDifferencesWithValues_with. rewrite !map_fold_foldr.
    apply map_Forall_to_list in IH, Hnan.
    pose proof (map_to_list_lookup m) as Hm.
    rewrite (foldr_fixed _ diffs).
    + apply foldr_fixed. eapply Forall_impl; [exact Hm |].
      intros [k x] Hk d. simpl. by rewrite Hk.
    + clear diffs.
      induction (map_to_list m) as [| [k x] l IHl]; constructor.
      * apply Forall_cons in IH as [IHx _].
        apply Forall_cons in Hnan as [Hx _].
        apply Forall_cons in Hm as [Hk _].
        intros d. simpl. rewrite Hk. by apply IHx.
      * apply Forall_cons in IH as [_ IH].
        apply Forall_cons in Hnan as [_ Hnan].
        apply Forall_cons in Hm as [_ Hm]. by apply IHl.
Qed.

(** C2 (as stated) fails: [reflect.DeepEqual] finds a NaN different from
    itself, so a tree that holds one differs from itself at that path,
    for both differs. *)
Lemma compare_nan_with_itself :
  CompareYAML {["ratio" := VFloat KFloat64 S754_nan]}
              {["ratio" := VFloat KFloat64 S754_nan]} = ["ratio"] ∧
  FindDifferencesWithValues {["ratio" := VFloat KFloat64 S754_nan]}
                            {["ratio" := VFloat KFloat64 S754_nan]} =
  {["ratio" := {| Left := VFloat KFloat64 S754_nan;
                  Right := VFloat KFloat64 S754_nan;
                  Type_ := DiffTypeModified |}]}.
Proof. split; vm_compute; reflexivity. Qed.

(** C2 (amended): a tree without a floating-point NaN has the empty diff
    with itself, with the paths-only differ and with the one that
    produces records. *)
Theorem compare_with_itself (t : gmap string value) :
  nan_free (VMap t) = true →
  CompareYAML t t = [] ∧ FindDifferencesWithValues t t = ∅.
Proof.
  intros Hnan. split.
  - by apply compareValues_same.
  - by apply findDifferencesWithValues_same.
Qed.

Lemma compare_with_itself_witness :
  CompareYAML
    (<["key1" := VString "value1"]> {["key2" := VSlice [VInt KInt 42]]})
    (<["key1" := VString "value1"]> {["key2" := VSlice [VInt KInt 42]]}) = [] ∧
  FindDifferencesWithValues
    (<["key1" := VString "value1"]> {["key2" := VSlice [VInt KInt 42]]})
    (<["key1" := VString "value1"]> {["key2" := VSlice [VInt KInt 42]]}) = ∅.
Proof.
  apply (compare_with_itself
           (<["key1" := VString "value1"]> {["key2" := VSlice [VInt KInt 42]]})).
  vm_compute. reflexivity.
Defined.


(** *** The two differs report the same paths *)

Lemma record_step (acc : list string) (d : gmap string DiffValue)
    (p : string) (x : DiffValue) :
  list_to_set acc =@{gset string} dom d →
  list_to_set (acc ++ [p]) =@{gset string} dom (<[p := x]> d).
Proof.
  intros H. rewrite list_to_set_app_L, dom_insert_L, H.
  simpl. rewrite (right_id_L ∅ (∪)). apply (comm_L (∪)).
Qed.

Lemma compareValues_find_paths (left : value) :
  ∀ right path acc d,
    list_to_set acc =@{gset string} dom d →
    list_to_set (compareValues path left right acc) =@{gset string}
    dom (findDifferencesWithValues path left right d).
Proof.
  induction left as [| s | k n | k f | b | xs IH | m IH] using value_ind';
    intros right path acc d Hacc;
    destruct right as [| s' | k' n' | k' f' | b' | xs' | m']; simpl;
    try done; try (by apply record_step);
    try (case_decide; [by apply record_step |]);
    try (by destruct (negb _); [apply record_step |]).
  - (* two sequences *)
    revert xs' acc d Hacc. generalize 0%nat as i.
    induction xs as [| x xs IHxs]; intros i xs' acc d Hacc.
    + simpl. revert i acc d Hacc.
      induction xs' as [| x' xs' IHxs']; intros i acc d Hacc; [done |].
      simpl. apply IHxs'. by apply record_step.
    + apply Forall_cons in IH as [IHx IH].
      destruct xs' as [| x' xs']; simpl.
      * apply IHxs; [done |]. by apply record_step.
      * apply IHxs; [done |]. by apply IHx.
  - (* two mappings *)
    unfold compareMap_with, findMapDifferencesWithValues_with.
    rewrite !map_fold_foldr.
    apply map_Forall_to_list in IH.
    assert (Hfirst :
      list_to_set
        (foldr (uncurry (λ key leftValue diffs,
           match m' !! key with
           | Some rightValue =>
               compareValues (buildPath path key) leftValue rightValue diffs
           | None => diffs ++ [buildPath path key]
           end)) acc (map_to_list m)) =@{gset string}
      dom (foldr (uncurry (λ key leftValue diffs,
           match m' !! key with
           | Some rightValue =>
               findDifferencesWithValues (buildPath path key)
                 leftValue rightValue diffs
           | None =>
               <[buildPath path key :=
                   {| Left := leftValue; Right := VNil;
                      Type_ := DiffTypeRemoved |}]> diffs
           end)) d (map_to_list m))).
    { induction (map_to_list m) as [| [k x] l IHl]; [done |].
      apply Forall_cons in IH as [IHx IH]. simpl.
      destruct (m' !! k); [by apply IHx, IHl | by apply record_step, IHl]. }
    revert Hfirst. generalize
      (foldr (uncurry (λ key leftValue diffs,
           match m' !! key with
           | Some rightValue =>
               compareValues (buildPath path key) leftValue rightValue diffs
           | None => diffs ++ [buildPath path key]
           end)) acc (map_to_list m)).
    generalize
      (foldr (uncurry (λ key leftValue diffs,
           match m' !! key with
           | Some rightValue =>
               findDifferencesWithValues (buildPath path key)
                 leftValue rightValue diffs
           | None =>
               <[buildPath path key :=
                   {| Left := leftValue; Right := VNil;
                      Type_ := DiffTypeRemoved |}]> diffs
           end)) d (map_to_list m)).
    intros d1 acc1 H1.
    induction (map_to_list m') as [| [k x] l IHl]; [done |].
    simpl. destruct (m !! k); [done | by apply record_step].
Qed.

(** C10: the paths that [CompareYAML] returns are, as a set, the keys of
    the map that [FindDifferencesWithValues] returns. *)
Theorem CompareYAML_paths_are_diff_keys (left right : gmap string value) :
  list_to_set (CompareYAML left right) =@{gset string}
  dom (FindDifferencesWithValues left right).
Proof.
  apply compareValues_find_paths. by rewrite dom_empty_L.
Qed.

(** *** Where the dynamic types differ *)

Lemma written_app (diffs : gmap string DiffValue)
    (records1 records2 : list (string * DiffValue)) :
  Differ.written diffs (records1 ++ records2) =
  Differ.written (Differ.written diffs records1) records2.
Proof. apply foldl_app. Qed.

Lemma written_other (records : list (string * DiffValue)) (path : string) :
  path ∉ records.*1 →
  ∀ diffs, Differ.written diffs records !! path = diffs !! path.
Proof.
  induction records as [| [p x] records IH]; intros Hp diffs; [done |].
  apply not_elem_of_cons in Hp as [Hne Hp]. simpl in *.
  unfold Differ.written in *. simpl. rewrite IH by done.
  by apply lookup_insert_ne.
Qed.

Lemma filter_none {A} (P : A → Prop) `{!∀ a, Decision (P a)} (l : list A) :
  length (filter P l) = 0%nat → ∀ a, a ∈ l → ¬ P a.
Proof.
  induction l as [| b l IH]; intros Hlen a Ha; [by apply elem_of_nil in Ha |].
  destruct (decide (P b)) as [Hb | Hb].
  - by rewrite filter_cons_True in Hlen.
  - rewrite filter_cons_False in Hlen by done.
    apply elem_of_cons in Ha as [-> | Ha]; [done | by apply IH].
Qed.

Lemma written_once (records : list (string * DiffValue)) (path : string)
    (x : DiffValue) :
  (path, x) ∈ records →
  length (filter (λ p, p = path) records.*1) = 1%nat →
  ∀ diffs, Differ.written diffs records !! path = Some x.
Proof.
  induction records as [| [p y] records IH]; intros Hin Hone diffs;
    [by apply elem_of_nil in Hin |].
  rewrite fmap_cons in Hone. simpl in Hone.
  unfold Differ.written. simpl.
  fold (Differ.written (<[p := y]> diffs) records).
  destruct (decide (p = path)) as [-> | Hne].
  - rewrite filter_cons_True in Hone by done. simpl in Hone.
    assert (Hnone : path ∉ records.*1).
    { intros Hp.
      by apply (filter_none (λ p, p = path) records.*1 ltac:(lia) path Hp). }
    rewrite written_other by done.
    apply elem_of_cons in Hin as [[= <-] | Hin]; [by rewrite lookup_insert_eq |].
    destruct Hnone. apply list_elem_of_fmap. by exists (path, x).
  - rewrite filter_cons_False in Hone by done.
    apply elem_of_cons in Hin as [[= -> _] | Hin]; [done |].
    by apply IH.
Qed.

Lemma rest_replay (path : string) (right : list value) :
  ∀ i, ∃ records : list (string * DiffValue),
    (∀ paths, compareSlice_rest path i right paths = paths ++ records.*1) ∧
    (∀ diffs, findSliceDifferencesWithValues_rest path i right diffs =
              Differ.written diffs records).
Proof.
  induction right as [| r right IH]; intros i.
  - exists []. split; [intros; by rewrite app_nil_r | done].
  - destruct (IH (S i)) as (records & Hc & Hf).
    exists ((buildArrayPath path i,
             {| Left := VNil; Right := r; Type_ := DiffTypeAdded |})
            :: records).
    split.
    + intros paths. simpl. rewrite Hc. by rewrite <- app_assoc.
    + intros diffs. simpl. by rewrite Hf.
Qed.

(** Where one of the two values is neither a mapping nor a sequence, or
    their types differ, the only walk into both is the empty one. *)
Ltac differ_leaf_at_root :=
  let steps := fresh "steps" in
  let l := fresh "l" in
  let r := fresh "r" in
  let Hl := fresh "Hl" in
  let Hr := fresh "Hr" in
  intros steps l r Hl Hr ? ? ?;
  destruct steps as [| [?key | ?i] steps]; simpl in Hl, Hr; try done;
  injection Hl as <-; injection Hr as <-;
  first [done | by apply list_elem_of_singleton].

(** The records of a call that does not recurse: none, or one at the
    path. *)
Ltac differ_leaf_cases :=
  split_and!;
  [ intros ?; simpl; rewrite ?decide_True by done;
    rewrite ?decide_False by done;
    repeat match goal with H : _ = _ |- _ => rewrite H end; simpl;
    by rewrite ?app_nil_r
  | intros ?; simpl; rewrite ?decide_True by done;
    rewrite ?decide_False by done;
    by repeat match goal with H : _ = _ |- _ => rewrite H end
  | differ_leaf_at_root ].

Ltac differ_leaf path L R :=
  let Hty := fresh "Hty" in
  let Heq := fresh "Heq" in
  destruct (decide (TypeOf L ≠ TypeOf R)) as [Hty | Hty];
  [ exists [(path, {| Left := L; Right := R; Type_ := DiffTypeModified |})];
    simpl in Hty; differ_leaf_cases
  | destruct (DeepEqual L R) eqn:Heq;
    [ exists []; simpl in Hty; simpl in Heq; differ_leaf_cases
    | exists [(path, {| Left := L; Right := R;
                        Type_ := DiffTypeModified |})];
      simpl in Hty; simpl in Heq; differ_leaf_cases ] ].

(** The two differs write the same records, the one their paths and the
    other the records; the record of a location at which both sides are
    present with different types is among them. *)
Lemma differs_replay (left : value) :
  ∀ right path, ∃ records : list (string * DiffValue),
    (∀ paths, compareValues path left right paths = paths ++ records.*1) ∧
    (∀ diffs, findDifferencesWithValues path left right diffs =
              Differ.written diffs records) ∧
    (∀ steps l r,
       locate left steps = Some l → locate right steps = Some r →
       l ≠ VNil → r ≠ VNil → TypeOf l ≠ TypeOf r →
       (foldl diffStep path steps,
        {| Left := l; Right := r; Type_ := DiffTypeModified |}) ∈ records).
Proof.
  induction left as [| s | k n | k f | b | xs IH | m IH] using value_ind';
    intros right path.
  - (* nil on the left *)
    destruct right.
    1: exists []; split_and!;
         [intros; simpl; by rewrite app_nil_r | done | differ_leaf_at_root].
    all: eexists [(path, _)]; split_and!;
           [intros; simpl; done | intros; simpl; done | differ_leaf_at_root].
  - destruct right.
    1: eexists [(path, _)]; split_and!;
           [intros; simpl; done | intros; simpl; done | differ_leaf_at_root].
    all: match goal with
         | |- context [compareValues _ ?L ?R] => differ_leaf path L R
         end.
  - destruct right.
    1: eexists [(path, _)]; split_and!;
           [intros; simpl; done | intros; simpl; done | differ_leaf_at_root].
    all: match goal with
         | |- context [compareValues _ ?L ?R] => differ_leaf path L R
         end.
  - destruct right.
    1: eexists [(path, _)]; split_and!;
           [intros; simpl; done | intros; simpl; done | differ_leaf_at_root].
    all: match goal with
         | |- context [compareValues _ ?L ?R] => differ_leaf path L R
         end.
  - destruct right.
    1: eexists [(path, _)]; split_and!;
           [intros; simpl; done | intros; simpl; done | differ_leaf_at_root].
    all: match goal with
         | |- context [compareValues _ ?L ?R] => differ_leaf path L R
         end.
  - (* a sequence on the left *)
    destruct right as [| | | | | xs' |].
    1: eexists [(path, _)]; split_and!;
           [intros; simpl; done | intros; simpl; done | differ_leaf_at_root].
    1-4, 6: match goal with
         | |- context [compareValues _ ?L ?R] => differ_leaf path L R
         end.
    cut (∀ i xs', ∃ records : list (string * DiffValue),
      (∀ paths, compareSlice_with compareValues path i xs xs' paths =
                paths ++ records.*1) ∧
      (∀ diffs,
         findSliceDifferencesWithValues_with findDifferencesWithValues
           path i xs xs' diffs = Differ.written diffs records) ∧
      (∀ j x x' rest l r,
         xs !! j = Some x → xs' !! j = Some x' →
         locate x rest = Some l → locate x' rest = Some r →
         l ≠ VNil → r ≠ VNil → TypeOf l ≠ TypeOf r →
         (foldl diffStep (buildArrayPath path (i + j)) rest,
          {| Left := l; Right := r; Type_ := DiffTypeModified |}) ∈ records)).
    { intros H. destruct (H 0%nat xs') as (records & Hc & Hf & Hw).
      exists records. split_and!; [exact Hc | exact Hf |].
      intros steps l r Hl Hr Hnl Hnr Hty.
      destruct steps as [| [key | j] rest]; simpl in Hl, Hr; try done.
      - injection Hl as <-; injection Hr as <-. done.
      - destruct (xs !! j) as [x |] eqn:Hj; [| done].
        destruct (xs' !! j) as [x' |] eqn:Hj'; [| done].
        by apply (Hw j x x' rest l r). }
    clear xs'. induction xs as [| x xs IHxs]; intros i xs'.
    + destruct (rest_replay path xs' i) as (records & Hc & Hf).
      exists records. split_and!; [exact Hc | | done].
      intros diffs. destruct xs'; apply Hf.
    + apply Forall_cons in IH as [IHx IH].
      destruct xs' as [| x' xs'].
      * destruct (IHxs IH (S i) []) as (records & Hc & Hf & _).
        exists ((buildArrayPath path i,
                 {| Left := x; Right := VNil; Type_ := DiffTypeRemoved |})
                :: records).
        split_and!.
        -- intros paths. cbn [compareSlice_with]. rewrite Hc.
           by rewrite <- app_assoc.
        -- intros diffs. cbn [findSliceDifferencesWithValues_with].
           by rewrite Hf.
        -- done.
      * destruct (IHx x' (buildArrayPath path i)) as (rx & Hcx & Hfx & Hwx).
        destruct (IHxs IH (S i) xs') as (records & Hc & Hf & Hw).
        exists (rx ++ records). split_and!.
        -- intros paths. cbn [compareSlice_with]. rewrite Hc, Hcx.
           by rewrite fmap_app, app_assoc.
        -- intros diffs. cbn [findSliceDifferencesWithValues_with].
           by rewrite Hf, Hfx, written_app.
        -- intros j y y' rest l r Hj Hj' Hl Hr Hnl Hnr Hty.
           apply elem_of_app. destruct j as [| j]; simpl in Hj, Hj'.
           ++ injection Hj as <-; injection Hj' as <-. left.
              rewrite Nat.add_0_r. by apply Hwx.
           ++ right. rewrite Nat.add_succ_r. by apply (Hw j y y').
  - (* a mapping on the left *)
    destruct right as [| | | | | | m'].
    1: eexists [(path, _)]; split_and!;
           [intros; simpl; done | intros; simpl; done | differ_leaf_at_root].
    1-5: match goal with
         | |- context [compareValues _ ?L ?R] => differ_leaf path L R
         end.
    apply map_Forall_to_list in IH.
    assert (Hfirst : ∃ records : list (string * DiffValue),
      (∀ paths,
         foldr (uncurry (λ key leftValue diffs,
           match m' !! key with
           | Some rightValue =>
               compareValues (buildPath path key) leftValue rightValue diffs
           | None => diffs ++ [buildPath path key]
           end)) paths (map_to_list m) = paths ++ records.*1) ∧
      (∀ diffs,
         foldr (uncurry (λ key leftValue diffs,
           match m' !! key with
           | Some rightValue =>
               findDifferencesWithValues (buildPath path key)
                 leftValue rightValue diffs
           | None =>
               <[buildPath path key :=
                   {| Left := leftValue; Right := VNil;
                      Type_ := DiffTypeRemoved |}]> diffs
           end)) diffs (map_to_list m) = Differ.written diffs records) ∧
      (∀ key x x' rest l r,
         (key, x) ∈ map_to_list m → m' !! key = Some x' →
         locate x rest = Some l → locate x' rest = Some r →
         l ≠ VNil → r ≠ VNil → TypeOf l ≠ TypeOf r →
         (foldl diffStep (buildPath path key) rest,
          {| Left := l; Right := r; Type_ := DiffTypeModified |}) ∈ records)).
    { induction (map_to_list m) as [| [k x] entries IHentries].
      - exists []. split_and!; [intros; by rewrite app_nil_r | done |].
        by intros ?????? ?%elem_of_nil.
      - apply Forall_cons in IH as [IHx IH].
        destruct (IHentries IH) as (records & Hc & Hf & Hw).
        simpl in IHx. destruct (m' !! k) as [x' |] eqn:Hk.
        + destruct (IHx x' (buildPath path k)) as (rx & Hcx & Hfx & Hwx).
          exists (records ++ rx). split_and!.
          * intros paths. simpl. rewrite Hk, Hcx, Hc.
            by rewrite fmap_app, app_assoc.
          * intros diffs. simpl. by rewrite Hk, Hfx, Hf, written_app.
          * intros key y y' rest l r Hy Hy' Hl Hr Hnl Hnr Hty.
            apply elem_of_app.
            apply elem_of_cons in Hy as [[= -> ->] | Hy].
            -- right. rewrite Hk in Hy'. injection Hy' as <-. by apply Hwx.
            -- left. by apply (Hw key y y').
        + exists (records ++
                  [(buildPath path k,
                    {| Left := x; Right := VNil;
                       Type_ := DiffTypeRemoved |})]).
          split_and!.
          * intros paths. simpl. rewrite Hk, Hc.
            by rewrite fmap_app, app_assoc.
          * intros diffs. simpl. by rewrite Hk, Hf, written_app.
          * intros key y y' rest l r Hy Hy' Hl Hr Hnl Hnr Hty.
            apply elem_of_app. left.
            apply elem_of_cons in Hy as [[= -> ->] | Hy]; [congruence |].
            by apply (Hw key y y'). }
    assert (Hsecond : ∃ records : list (string * DiffValue),
      (∀ paths,
         foldr (uncurry (λ key (_ : value) diffs,
           match m !! key with
           | None => diffs ++ [buildPath path key]
           | Some _ => diffs
           end)) paths (map_to_list m') = paths ++ records.*1) ∧
      (∀ diffs,
         foldr (uncurry (λ key rightValue diffs,
           match m !! key with
           | None =>
               <[buildPath path key :=
                   {| Left := VNil; Right := rightValue;
                      Type_ := DiffTypeAdded |}]> diffs
           | Some _ => diffs
           end)) diffs (map_to_list m') = Differ.written diffs records)).
    { induction (map_to_list m') as [| [k x'] entries IHentries].
      - exists []. split; [intros; by rewrite app_nil_r | done].
      - destruct IHentries as (records & Hc & Hf).
        destruct (m !! k) as [x |] eqn:Hk.
        + exists records. split.
          * intros paths. simpl. by rewrite Hk, Hc.
          * intros diffs. simpl. by rewrite Hk, Hf.
        + exists (records ++
                  [(buildPath path k,
                    {| Left := VNil; Right := x';
                       Type_ := DiffTypeAdded |})]).
          split.
          * intros paths. simpl. rewrite Hk, Hc.
            by rewrite fmap_app, app_assoc.
          * intros diffs. simpl. by rewrite Hk, Hf, written_app. }
    destruct Hfirst as (r1 & Hc1 & Hf1 & Hw1).
    destruct Hsecond as (r2 & Hc2 & Hf2).
    exists (r1 ++ r2). split_and!.
    + intros paths. rewrite compareValues_maps.
      unfold compareMap, compareMap_with. rewrite !map_fold_foldr.
      rewrite Hc1, Hc2. by rewrite fmap_app, app_assoc.
    + intros diffs. rewrite findDifferencesWithValues_maps.
      unfold findMapDifferencesWithValues, findMapDifferencesWithValues_with.
      rewrite !map_fold_foldr. by rewrite Hf1, Hf2, written_app.
    + intros steps l r Hl Hr Hnl Hnr Hty.
      destruct steps as [| [key | j] rest]; simpl in Hl, Hr; try done.
      * injection Hl as <-; injection Hr as <-. done.
      * destruct (m !! key) as [x |] eqn:Hk; [| done].
        destruct (m' !! key) as [x' |] eqn:Hk'; [| done].
        apply elem_of_app. left. apply (Hw1 key x x'); try done.
        by apply elem_of_map_to_list.
Qed.

(** The call on two values that are present and of different types: it
    writes the one record, and the one path, and returns. *)
Lemma differing_types_local (path : string) (left right : value)
    (diffs : gmap string DiffValue) (paths : list string) :
  left ≠ VNil → right ≠ VNil → TypeOf left ≠ TypeOf right →
  findDifferencesWithValues path left right diffs =
    <[path := {| Left := left; Right := right;
                 Type_ := DiffTypeModified |}]> diffs ∧
  compareValues path left right paths = paths ++ [path].
Proof.
  intros Hl Hr Hty.
  destruct left; try done; destruct right; try done; simpl;
    rewrite ?decide_True by done; done.
Qed.

(** C3 (as stated) fails: between [{a: {b: 1}}] and
    [{a: {b: x}, a.b: 5}] the walk [a], [b] leads to an integer on the
    left and a string on the right, and the record at the path [a.b] is
    [Added] with nil and [5]: the entry of the key [a.b], which has the
    same path, is written after it.  The path is reported twice. *)
Lemma differing_types_overwritten :
  locate (VMap {["a" := VMap {["b" := VInt KInt 1]}]})
    [Key "a"; Key "b"] = Some (VInt KInt 1) ∧
  locate (VMap (<["a" := VMap {["b" := VString "x"]}]>
                  {["a.b" := VInt KInt 5]}))
    [Key "a"; Key "b"] = Some (VString "x") ∧
  diffPath [Key "a"; Key "b"] = "a.b" ∧
  FindDifferencesWithValues
    {["a" := VMap {["b" := VInt KInt 1]}]}
    (<["a" := VMap {["b" := VString "x"]}]> {["a.b" := VInt KInt 5]})
    !! "a.b" =
    Some {| Left := VNil; Right := VInt KInt 5; Type_ := DiffTypeAdded |} ∧
  CompareYAML
    {["a" := VMap {["b" := VInt KInt 1]}]}
    (<["a" := VMap {["b" := VString "x"]}]> {["a.b" := VInt KInt 5]}) =
    ["a.b"; "a.b"].
Proof. split_and!; vm_compute; reflexivity. Qed.

(** C3 (amended): at a location that the same walk reaches in both trees,
    where both sides are present and their dynamic types differ, the
    differ writes the record [Modified] with both values and goes no
    deeper; the path of the location is reported, and has a record; and
    when the path is reported once, the record at the path is that
    record [Modified]. *)
Theorem differing_types_modified (left right : gmap string value)
    (steps : list step) (l r : value) :
  locate (VMap left) steps = Some l →
  locate (VMap right) steps = Some r →
  l ≠ VNil → r ≠ VNil → TypeOf l ≠ TypeOf r →
  (∀ path diffs,
     findDifferencesWithValues path l r diffs =
     <[path := {| Left := l; Right := r; Type_ := DiffTypeModified |}]>
       diffs) ∧
  diffPath steps ∈ CompareYAML left right ∧
  is_Some (FindDifferencesWithValues left right !! diffPath steps) ∧
  (length (filter (λ path, path = diffPath steps) (CompareYAML left right))
     = 1%nat →
   FindDifferencesWithValues left right !! diffPath steps =
   Some {| Left := l; Right := r; Type_ := DiffTypeModified |}).
Proof.
  intros Hl Hr Hnl Hnr Hty.
  destruct (differs_replay (VMap left) (VMap right) "")
    as (records & Hc & Hf & Hw).
  specialize (Hw steps l r Hl Hr Hnl Hnr Hty).
  unfold CompareYAML, FindDifferencesWithValues, diffPath.
  rewrite Hc, Hf, app_nil_l.
  assert (Hin : foldl diffStep "" steps ∈ records.*1).
  { apply list_elem_of_fmap. by eexists (_, _). }
  split_and!.
  - intros path diffs.
    by destruct (differing_types_local path l r diffs [] Hnl Hnr Hty).
  - done.
  - pose proof (compareValues_find_paths (VMap left) (VMap right) "" [] ∅)
      as Hdom.
    rewrite Hc, Hf, app_nil_l in Hdom.
    apply elem_of_dom. rewrite <- Hdom; [| by rewrite dom_empty_L].
    by apply elem_of_list_to_set.
  - intros Hone. by apply written_once.
Qed.

Lemma differing_types_modified_witness :
  "a.b" ∈
    CompareYAML
      (<["a" := VMap {["b" := VInt KInt 1]}]> {["c" := VInt KInt 2]})
      (<["a" := VMap {["b" := VString "x"]}]> {["c" := VInt KInt 2]}) ∧
  FindDifferencesWithValues
    (<["a" := VMap {["b" := VInt KInt 1]}]> {["c" := VInt KInt 2]})
    (<["a" := VMap {["b" := VString "x"]}]> {["c" := VInt KInt 2]})
    !! "a.b" =
    Some {| Left := VInt KInt 1; Right := VString "x";
            Type_ := DiffTypeModified |}.
Proof.
  destruct (differing_types_modified
              (<["a" := VMap {["b" := VInt KInt 1]}]> {["c" := VInt KInt 2]})
              (<["a" := VMap {["b" := VString "x"]}]> {["c" := VInt KInt 2]})
              [Key "a"; Key "b"] (VInt KInt 1) (VString "x"))
    as (_ & Hin & _ & Hrecord).
  - vm_compute. reflexivity.
  - vm_compute. reflexivity.
  - discriminate.
  - discriminate.
  - discriminate.
  - split; [exact Hin |]. apply Hrecord. vm_compute. reflexivity.
Defined.

(** *** FormatValueReferences *)

Lemma groupByFile_lookup (references : list ValueReference) (f : string) :
  ∀ g : gmap string (list ValueReference),
    foldl (λ fileGroups ref,
             <[File ref := default [] (fileGroups !! File ref) ++ [ref]]>
               fileGroups) g references !! f =
    match filter (λ ref, File ref = f) references with
    | [] => g !! f
    | refs => Some (default [] (g !! f) ++ refs)
    end.
Proof.
  induction references as [| ref references IH]; intros g; [done |].
  simpl. rewrite IH. rewrite filter_cons.
  destruct (decide (File ref = f)) as [-> | Hne].
  - rewrite lookup_insert_eq. simpl.
    destruct (filter _ references); [done |]. by rewrite <- app_assoc.
  - by rewrite lookup_insert_ne.
Qed.

Lemma groupByFile_files (references : list ValueReference) (f : string) :
  groupByFile references !! f =
  match filter (λ ref, File ref = f) references with
  | [] => None
  | refs => Some refs
  end.
Proof.
  unfold groupByFile. rewrite groupByFile_lookup, lookup_empty. done.
Qed.

Lemma groupByFile_dom (references : list ValueReference) (f : string) :
  f ∈ dom (groupByFile references) ↔ f ∈ File <$> references.
Proof.
  rewrite elem_of_dom, groupByFile_files, list_elem_of_fmap.
  destruct (filter _ references) as [| ref refs] eqn:Hfilter.
  - split; [by intros [? ?] |]. intros (ref & -> & Hin).
    assert (ref ∈ filter (λ r, File r = File ref) references)
      by (by apply list_elem_of_filter).
    rewrite Hfilter in H. by apply elem_of_nil in H.
  - split; [| by eauto]. intros _.
    assert (Hin : ref ∈ filter (λ r, File r = f) references)
      by (rewrite Hfilter; left).
    apply list_elem_of_filter in Hin as [<- Hin]. eauto.
Qed.

Lemma firstSeen_acc (references : list ValueReference) :
  ∀ seen,
    NoDup seen →
    NoDup (foldl (λ seen ref, if decide (File ref ∈ seen) then seen
                              else seen ++ [File ref]) seen references) ∧
    ∀ f, f ∈ foldl (λ seen ref, if decide (File ref ∈ seen) then seen
                                else seen ++ [File ref]) seen references ↔
         f ∈ seen ∨ f ∈ File <$> references.
Proof.
  induction references as [| ref references IH]; intros seen Hnd; simpl.
  - split; [done |]. intros f. rewrite elem_of_nil. tauto.
  - destruct (decide (File ref ∈ seen)) as [Hin | Hnin].
    + destruct (IH seen Hnd) as [Hnd' Hiff]. split; [done |].
      intros f. rewrite Hiff, elem_of_cons.
      split; [tauto |]. intros [? | [-> | ?]]; tauto.
    + assert (Hnd1 : NoDup (seen ++ [File ref])).
      { apply NoDup_app. split_and!; [done | | apply NoDup_singleton].
        intros x Hx ->%list_elem_of_singleton. done. }
      destruct (IH _ Hnd1) as [Hnd' Hiff]. split; [done |].
      intros f. rewrite Hiff, elem_of_app, list_elem_of_singleton, elem_of_cons.
      tauto.
Qed.

Lemma foldl_append_lines (refs : list ValueReference) (init : string) :
  foldl (λ result ref, result +:+ formatReference ref) init refs =
  init +:+ concat_strings (formatReference <$> refs).
Proof.
  revert init. induction refs as [| ref refs IH]; intros init; simpl.
  - by rewrite append_nil_r.
  - rewrite IH. by rewrite append_assoc.
Qed.

Lemma formatGroup_append (fileName : string) (refs : list ValueReference)
    (result : string) :
  formatGroup fileName refs result =
  result +:+ "=== " +:+ fileName +:+ " ===" +:+ LF +:+
  concat_strings (formatReference <$> refs).
Proof.
  unfold formatGroup. rewrite foldl_append_lines. by rewrite !append_assoc.
Qed.

Lemma format_groups_in_order (references : list ValueReference)
    (order : list string) :
  (∀ f, f ∈ order → f ∈ File <$> references) →
  ∀ result,
    foldl (λ result fileName,
             match groupByFile references !! fileName with
             | Some refs => formatGroup fileName refs result
             | None => result
             end) result order =
    result +:+ concat_strings (fileGroup references <$> order).
Proof.
  induction order as [| f order IH]; intros Hin result; simpl.
  - by rewrite append_nil_r.
  - rewrite IH by (intros g Hg; apply Hin; by right).
    assert (Hf : is_Some (groupByFile references !! f)).
    { apply elem_of_dom, groupByFile_dom, Hin. by left. }
    rewrite groupByFile_files in *.
    destruct (filter (λ ref, File ref = f) references) as [| r rs] eqn:Hfilter;
      [by destruct Hf |].
    rewrite formatGroup_append. unfold fileGroup. rewrite Hfilter.
    by rewrite !append_assoc.
Qed.

(** C9 (as stated) fails: [range] over the map of groups may visit
    [pod.yaml] first, although [deployment.yaml] occurs first in the
    input. *)
Lemma FormatValueReferences_not_first_seen :
  range_order
    (groupByFile
       [ {| File := "deployment.yaml"; Line := 10; Content := ".Values.image";
            FullLine := ""; ManifestPath := "" |};
         {| File := "pod.yaml"; Line := 5; Content := ".Values.image";
            FullLine := ""; ManifestPath := "" |} ])
    ["pod.yaml"; "deployment.yaml"] ∧
  FormatValueReferences ["pod.yaml"; "deployment.yaml"]
    [ {| File := "deployment.yaml"; Line := 10; Content := ".Values.image";
         FullLine := ""; ManifestPath := "" |};
      {| File := "pod.yaml"; Line := 5; Content := ".Values.image";
         FullLine := ""; ManifestPath := "" |} ] ≠
  concat_strings
    (fileGroup
       [ {| File := "deployment.yaml"; Line := 10; Content := ".Values.image";
            FullLine := ""; ManifestPath := "" |};
         {| File := "pod.yaml"; Line := 5; Content := ".Values.image";
            FullLine := ""; ManifestPath := "" |} ] <$>
     firstSeen
       [ {| File := "deployment.yaml"; Line := 10; Content := ".Values.image";
            FullLine := ""; ManifestPath := "" |};
         {| File := "pod.yaml"; Line := 5; Content := ".Values.image";
            FullLine := ""; ManifestPath := "" |} ]).
Proof.
  split.
  - split.
    + apply (bool_decide_unpack _). by vm_compute.
    + intros k. rewrite groupByFile_dom. simpl.
      rewrite !elem_of_cons, !elem_of_nil. tauto.
  - vm_compute. discriminate.
Qed.

(** C9 (amended): for a non-empty list of references the output is one
    group per distinct file, the groups in the order in which [range]
    happens to visit the map of groups, which need not be the order of
    first occurrence; each group is the header line of the file followed
    by one line per reference of that file, in input order. *)
Theorem FormatValueReferences_groups (order : list string)
    (references : list ValueReference) :
  references ≠ [] →
  range_order (groupByFile references) order →
  FormatValueReferences order references =
    concat_strings (fileGroup references <$> order) ∧
  order ≡ₚ firstSeen references.
Proof.
  intros Hne [Hnd Hdom]. split.
  - unfold FormatValueReferences.
    rewrite decide_False by (by destruct references).
    rewrite format_groups_in_order; [done |].
    intros f Hf. by apply groupByFile_dom, Hdom.
  - destruct (firstSeen_acc references [] (NoDup_nil_2)) as [Hnd' Hiff].
    apply NoDup_Permutation; [done | done |].
    intros f. unfold firstSeen. rewrite Hiff, Hdom, groupByFile_dom.
    rewrite elem_of_nil. tauto.
Qed.

Lemma FormatValueReferences_groups_witness :
  FormatValueReferences ["service.yaml"]
    [ {| File := "service.yaml"; Line := 5; Content := ".Values.port";
         FullLine := ""; ManifestPath := "" |};
      {| File := "service.yaml"; Line := 8; Content := ".Values.port";
         FullLine := ""; ManifestPath := ".spec.ports" |} ] =
    concat_strings
      (fileGroup
         [ {| File := "service.yaml"; Line := 5; Content := ".Values.port";
              FullLine := ""; ManifestPath := "" |};
           {| File := "service.yaml"; Line := 8; Content := ".Values.port";
              FullLine := ""; ManifestPath := ".spec.ports" |} ] <$>
       ["service.yaml"]) ∧
  ["service.yaml"] ≡ₚ
    firstSeen
      [ {| File := "service.yaml"; Line := 5; Content := ".Values.port";
           FullLine := ""; ManifestPath := "" |};
        {| File := "service.yaml"; Line := 8; Content := ".Values.port";
           FullLine := ""; ManifestPath := ".spec.ports" |} ].
Proof.
  apply FormatValueReferences_groups; [discriminate |].
  split.
  - apply (bool_decide_unpack _). by vm_compute.
  - intros k. rewrite groupByFile_dom. simpl.
    rewrite !elem_of_cons, !elem_of_nil. tauto.
Defined.

(** *** The caller's tree under modifyValueAtPath *)

Import Store.

Section Frame.
Context (h0 : store).
Local Abbreviation n0 := (length h0).

Lemma safe_ret {A} (a : A) (Q : A → Prop) : Q a → safe h0 (mret a) Q.
Proof. intros HQ h Hinv. split; [done |]. by intros a' [= <-]. Qed.

Lemma safe_fail {A} (e : error) (Q : A → Prop) : safe h0 (fail e) Q.
Proof. by intros h Hinv. Qed.

Lemma safe_panic {A} (Q : A → Prop) : safe h0 panic Q.
Proof. by intros h Hinv. Qed.

Lemma safe_out_of_fuel {A} (Q : A → Prop) : safe h0 out_of_fuel Q.
Proof. by intros h Hinv. Qed.

Lemma safe_bind {A B} (c : M A) (f : A → M B) (Q : A → Prop) (R : B → Prop) :
  safe h0 c Q → (∀ a, Q a → safe h0 (f a) R) → safe h0 (c ≫= f) R.
Proof.
  intros Hc Hf h Hinv. destruct (Hc h Hinv) as [Hinv' HQ].
  unfold mbind, M_bind.
  destruct (c h) as [[a | e | | |] h']; simpl in *; try done.
  exact (Hf a (HQ a eq_refl) h' Hinv').
Qed.

Lemma prefix_insert_above (h : store) (l : nat) (o : object) :
  h0 `prefix_of` h → n0 ≤ l → h0 `prefix_of` <[l := o]> h.
Proof.
  intros [k ->] Hl. exists (<[l - n0 := o]> k).
  by rewrite insert_app_r_alt.
Qed.

Lemma closed_insert (h : store) (l : nat) (o : object) :
  closed n0 h → (∀ v, holds o v → above n0 v) → closed n0 (<[l := o]> h).
Proof.
  intros Hcl Ho l' o' v Hl' Hlook Hv.
  destruct (decide (l' = l)) as [-> | Hne].
  - pose proof (lookup_lt_Some _ _ _ Hlook) as Hlt.
    rewrite length_insert in Hlt.
    rewrite list_lookup_insert_eq in Hlook by done.
    injection Hlook as <-. by apply Ho.
  - rewrite list_lookup_insert_ne in Hlook by done. by eapply Hcl.
Qed.

Lemma safe_alloc (o : object) :
  (∀ v, holds o v → above n0 v) → safe h0 (alloc o) (λ l, n0 ≤ l).
Proof.
  intros Ho h [Hpre Hcl]. simpl. split; [split |].
  - by apply prefix_app_r.
  - intros l o' v Hl Hlook Hv.
    destruct (decide (l < length h)) as [Hlt | Hge].
    + rewrite lookup_app_l in Hlook by done. by eapply Hcl.
    + rewrite lookup_app_r in Hlook by lia.
      destruct (l - length h) as [| n]; [| by destruct n].
      simpl in Hlook. injection Hlook as <-. by apply Ho.
  - intros a [= <-]. by apply prefix_length.
Qed.

Lemma safe_alloc_map : safe h0 (alloc (OMap ∅)) (λ l, n0 ≤ l).
Proof.
  apply safe_alloc. intros v [key Hkey]. by rewrite lookup_empty in Hkey.
Qed.

Lemma safe_alloc_slice (xs : list val) :
  Forall (above n0) xs → safe h0 (alloc (OSlice xs)) (λ l, n0 ≤ l).
Proof.
  intros Hxs. apply safe_alloc. intros v Hv.
  by eapply Forall_forall in Hxs.
Qed.

Lemma safe_read_map (l : loc) :
  n0 ≤ l →
  safe h0 (read_map l) (λ m, ∀ key v, m !! key = Some v → above n0 v).
Proof.
  intros Hl h [Hpre Hcl]. unfold read_map.
  destruct (h !! l) as [[m | xs] |] eqn:Hlook; simpl; split; try done.
  intros a [= <-] key v Hkey. eapply Hcl; [done | done |]. by exists key.
Qed.

Lemma safe_read_map_any (l : loc) : safe h0 (read_map l) (λ _, True).
Proof.
  intros h Hinv. unfold read_map.
  by destruct (h !! l) as [[m | xs] |].
Qed.

Lemma safe_read_slice (l : loc) :
  n0 ≤ l → safe h0 (read_slice l) (Forall (above n0)).
Proof.
  intros Hl h [Hpre Hcl]. unfold read_slice.
  destruct (h !! l) as [[m | xs] |] eqn:Hlook; simpl; split; try done.
  intros a [= <-]. apply Forall_forall. intros v Hv. by eapply Hcl.
Qed.

Lemma safe_read_slice_any (l : loc) : safe h0 (read_slice l) (λ _, True).
Proof.
  intros h Hinv. unfold read_slice.
  by destruct (h !! l) as [[m | xs] |].
Qed.

Lemma safe_map_store (l : loc) (key : string) (v : val) :
  n0 ≤ l → above n0 v → safe h0 (map_store l key v) (λ _, True).
Proof.
  intros Hl Hv h [Hpre Hcl]. unfold map_store.
  destruct (h !! l) as [[m | xs] |] eqn:Hlook; simpl; try done.
  split; [| done]. split; [by apply prefix_insert_above |].
  apply closed_insert; [done |]. intros v' [key' Hkey'].
  destruct (decide (key' = key)) as [-> | Hk].
  - rewrite lookup_insert_eq in Hkey'. by injection Hkey' as <-.
  - rewrite lookup_insert_ne in Hkey' by done.
    eapply Hcl; [done | done |]. by exists key'.
Qed.

Lemma safe_slice_store (l : loc) (i : nat) (v : val) :
  n0 ≤ l → above n0 v → safe h0 (slice_store l i v) (λ _, True).
Proof.
  intros Hl Hv h [Hpre Hcl]. unfold slice_store.
  destruct (h !! l) as [[m | xs] |] eqn:Hlook; simpl; try done.
  case_decide; simpl; [| done].
  split; [| done]. split; [by apply prefix_insert_above |].
  apply closed_insert; [done |]. intros v' Hv'. simpl in Hv'.
  apply list_elem_of_lookup in Hv' as [j Hj].
  destruct (decide (j = i)) as [-> | Hne].
  - rewrite list_lookup_insert_eq in Hj by done. by injection Hj as <-.
  - rewrite list_lookup_insert_ne in Hj by done.
    eapply Hcl; [done | done |]. by eapply list_elem_of_lookup_2.
Qed.

Lemma safe_for_each {A} (xs : list A) (body : A → M unit) :
  (∀ x, safe h0 (body x) (λ _, True)) →
  safe h0 (for_each xs body) (λ _, True).
Proof.
  intros Hbody. induction xs as [| x xs IH]; simpl.
  - by apply safe_ret.
  - eapply safe_bind; [apply Hbody | by intros].
Qed.

(** [copyMap] writes to [dst] and to what it allocates; [copySlice]
    returns a sequence it has allocated. *)
Lemma safe_copy (fuel : nat) :
  (∀ src dst, n0 ≤ dst → safe h0 (copyMap fuel src dst) (λ _, True)) ∧
  (∀ src, safe h0 (copySlice fuel src) (λ l, n0 ≤ l)).
Proof.
  induction fuel as [| fuel [IHmap IHslice]];
    [split; intros; apply safe_out_of_fuel |].
  split.
  - intros src dst Hdst. simpl.
    eapply safe_bind; [apply safe_read_map_any |]. intros m _.
    apply safe_for_each. intros [key value].
    destruct value as [| s | k n | k f | b | v | v];
      try (by apply safe_map_store).
    + eapply safe_bind; [apply IHslice |]. intros copied Hcopied.
      by apply safe_map_store.
    + eapply safe_bind; [apply safe_alloc_map |]. intros nested Hnested.
      eapply safe_bind; [by apply IHmap |]. intros _ _.
      by apply safe_map_store.
  - intros src. simpl.
    eapply safe_bind; [apply safe_read_slice_any |]. intros xs _.
    eapply safe_bind.
    { apply safe_alloc_slice. by apply Forall_replicate. }
    intros dst Hdst.
    eapply safe_bind; [| by intros; apply safe_ret].
    apply safe_for_each. intros [i item].
    destruct item as [| s | k n | k f | b | v | v];
      try (by apply safe_slice_store).
    + eapply safe_bind; [apply IHslice |]. intros copied Hcopied.
      by apply safe_slice_store.
    + eapply safe_bind; [apply safe_alloc_map |]. intros nested Hnested.
      eapply safe_bind; [by apply IHmap |]. intros _ _.
      by apply safe_slice_store.
Qed.

Lemma safe_getValueAtPath_loop (keys : list string) :
  ∀ current, above n0 current →
    safe h0 (getValueAtPath_loop current keys) (above n0).
Proof.
  induction keys as [| key keys IH]; intros current Hcur; simpl.
  - by apply safe_ret.
  - destruct current as [| s | k n | k f | b | v | v];
      try apply safe_fail.
    eapply safe_bind; [by apply safe_read_map |]. intros m Hm.
    destruct (m !! key) as [val |] eqn:Hkey; [| apply safe_fail].
    apply IH. by eapply Hm.
Qed.

Lemma safe_setValueAtPath_loop (keys : list string) (value : val) :
  above n0 value →
  ∀ current, n0 ≤ current →
    safe h0 (setValueAtPath_loop current keys value) (λ _, True).
Proof.
  intros Hvalue.
  induction keys as [| key keys IH]; intros current Hcur;
    [apply safe_panic |].
  destruct keys as [| key2 keys]; [by apply safe_map_store |].
  change (setValueAtPath_loop current (key :: key2 :: keys) value) with
    (m ← read_map current;
     match m !! key with
     | Some (MapRef nextMap) =>
         setValueAtPath_loop nextMap (key2 :: keys) value
     | Some _ => fail (NonMapNavigate key)
     | None =>
         newMap ← alloc (OMap ∅);
         map_store current key (MapRef newMap) ≫= λ _,
         setValueAtPath_loop newMap (key2 :: keys) value
     end).
  eapply safe_bind; [by apply safe_read_map |]. intros m Hm.
  destruct (m !! key) as [[| s | k n | k f | b | v | nextMap] |] eqn:Hkey;
    try apply safe_fail.
  - apply IH. by apply (Hm key (MapRef nextMap)).
  - eapply safe_bind; [apply safe_alloc_map |]. intros newMap Hnew.
    eapply safe_bind; [by apply safe_map_store |]. intros _ _.
    by apply IH.
Qed.

Lemma safe_modifyValueAtPath (unrepresentable : spec_float → Z) (fuel : nat)
    (values : loc) (path : string) (valueType : Tree.ValueType) :
  safe h0 (modifyValueAtPath unrepresentable fuel values path valueType)
       (λ l, n0 ≤ l).
Proof.
  unfold modifyValueAtPath.
  eapply safe_bind; [apply safe_alloc_map |]. intros modifiedValues Hmod.
  eapply safe_bind; [by apply safe_copy |]. intros _ _.
  eapply safe_bind with (Q := above n0).
  { unfold getValueAtPath. case_decide; [by apply safe_ret |].
    by apply safe_getValueAtPath_loop. }
  intros currentValue Hcur.
  eapply safe_bind with (Q := above n0).
  { destruct valueType;
      destruct currentValue as [| s | k n | k f | b | v | v];
      try apply safe_fail; try (by apply safe_ret).
    - eapply safe_bind; [by apply safe_read_slice |]. intros xs Hxs.
      eapply safe_bind; [by apply safe_alloc_slice |].
      intros modifiedSlice _.
      eapply safe_bind.
      { apply safe_alloc_slice. apply Forall_app. split; [done |].
        by constructor. }
      intros appended Happended. by apply safe_ret.
    - eapply safe_bind; [apply safe_alloc_map |]. intros modifiedMap Hmm.
      eapply safe_bind; [by apply safe_copy |]. intros _ _.
      eapply safe_bind; [by apply safe_map_store |]. intros _ _.
      by apply safe_ret. }
  intros newValue Hnew.
  eapply safe_bind with (Q := λ _, True).
  { unfold setValueAtPath. case_decide; [apply safe_fail |].
    by apply safe_setValueAtPath_loop. }
  intros _ _. by apply safe_ret.
Qed.

End Frame.

Lemma Inv_initial (h0 : store) : Inv h0 h0.
Proof.
  split; [done |]. intros l o v Hl Hlook.
  apply lookup_lt_Some in Hlook. lia.
Qed.

Lemma Forall2_impl_r {A B} (R R' : A → B → Prop) (xs : list A)
    (ts : list B) :
  Forall (λ t, ∀ x, R x t → R' x t) ts →
  Forall2 R xs ts → Forall2 R' xs ts.
Proof.
  intros Hts Hall. induction Hall as [| x t xs ts Hx _ IH]; constructor.
  - apply Forall_cons in Hts as [Ht _]. by apply Ht.
  - apply Forall_cons in Hts as [_ Hts]. by apply IH.
Qed.

Lemma Forall2_functional_r {A B} (R : A → B → Prop) (xs : list A)
    (ts ts' : list B) :
  Forall (λ t, ∀ x t', R x t → R x t' → t' = t) ts →
  Forall2 R xs ts → Forall2 R xs ts' → ts' = ts.
Proof.
  intros Hts Hall. revert ts'.
  induction Hall as [| x t xs ts Hx _ IH]; intros ts' Hall';
    inversion Hall'; subst; [done |].
  apply Forall_cons in Hts as [Ht Hts]. f_equal; [by eapply Ht | by apply IH].
Qed.

(** A tree read in a store is read in every extension of the store. *)
Lemma repr_prefix (h h' : store) (t : value) :
  h `prefix_of` h' → ∀ v, repr h v t → repr h' v t.
Proof.
  intros Hpre.
  induction t as [| s | k n | k f | b | ts IH | tm IH] using value_ind';
    intros v Hrepr; inversion Hrepr; subst; try constructor.
  - econstructor; [by eapply prefix_lookup_Some |].
    by eapply Forall2_impl_r.
  - econstructor; [by eapply prefix_lookup_Some |].
    intros key.
    match goal with H : ∀ k, option_Forall2 _ _ _ |- _ =>
      specialize (H key); inversion H as [x t Hx Hm Htm |]; constructor
    end.
    eapply IH; [by symmetry |]. done.
Qed.

(** A value stands for at most one tree. *)
Lemma repr_functional (h : store) (t : value) :
  ∀ v t', repr h v t → repr h v t' → t' = t.
Proof.
  induction t as [| s | k n | k f | b | ts IH | tm IH] using value_ind';
    intros v t' Hrepr Hrepr'; inversion Hrepr; subst;
    inversion Hrepr'; subst; try done.
  - f_equal.
    repeat match goal with
    | H1 : h !! ?l = Some _, H2 : h !! ?l = Some _ |- _ =>
        rewrite H1 in H2; injection H2 as <-
    end.
    by eapply Forall2_functional_r.
  - f_equal.
    repeat match goal with
    | H1 : h !! ?l = Some _, H2 : h !! ?l = Some _ |- _ =>
        rewrite H1 in H2; injection H2 as <-
    end.
    apply map_eq. intros key.
    repeat match goal with H : ∀ k, option_Forall2 _ _ _ |- _ =>
      specialize (H key) end.
    match goal with
    | H : option_Forall2 _ (m !! key) (tm !! key),
      H' : option_Forall2 _ (m !! key) (?tm' !! key) |- _ =>
        inversion H as [x t Hx Hm Htm | Hm Htm];
        inversion H' as [x' t2 Hx' Hm' Htm' | Hm' Htm']; try congruence
    end.
    f_equal. rewrite <- Hm in Hm'. injection Hm' as ->.
    eapply IH; [by symmetry | done | done].
Qed.

(** *** The two models read the same values *)

Lemma getValueAtPath_loop_repr (h : store) (keys : list string) :
  ∀ v t,
    repr h v t →
    match Tree.getValueAtPath_loop t keys with
    | Ok tw => ∃ w, getValueAtPath_loop v keys h = (Done w, h) ∧ repr h w tw
    | Err e => getValueAtPath_loop v keys h = (Failed e, h)
    | Go.Panic => False
    end.
Proof.
  induction keys as [| key keys IH]; intros v t Hrepr; simpl; [by eauto |].
  inversion Hrepr as [| | | | | l xs ts Hl Hxs | l m tm Hl Hm]; subst;
    try done.
  unfold mbind, M_bind, read_map. rewrite Hl.
  specialize (Hm key).
  inversion Hm as [x tx Hx Hmk Htmk | Hmk Htmk]; [| done].
  by apply IH.
Qed.

(** On a store value that stands for a tree, [getValueAtPath] of the
    store model returns what [getValueAtPath] of the tree model returns,
    and leaves the store as it is. *)
Lemma getValueAtPath_repr (h : store) (v : val) (t : value) (path : string) :
  repr h v t →
  match Tree.getValueAtPath t path with
  | Ok tw => ∃ w, getValueAtPath v path h = (Done w, h) ∧ repr h w tw
  | Err e => getValueAtPath v path h = (Failed e, h)
  | Go.Panic => False
  end.
Proof.
  intros Hrepr. unfold getValueAtPath, Tree.getValueAtPath.
  case_decide; [by eauto |]. by apply getValueAtPath_loop_repr.
Qed.

(** C5: whatever [modifyValueAtPath] returns (a copy, an error, a
    panic, or nothing within the recursion budget), every object of the
    store it started from is unchanged in the store it leaves; hence a
    value that stood for a tree before the call stands for that tree, and
    for no other, after it.  The mapping it returns is a new object, and
    the new objects hold new mappings and sequences only: the result
    shares nothing with the input. *)
Theorem modifyValueAtPath_leaves_input (unrepresentable : spec_float → Z)
    (fuel : nat) (values : loc) (path : string) (valueType : Tree.ValueType)
    (h : store) :
  h `prefix_of`
    (modifyValueAtPath unrepresentable fuel values path valueType h).2 ∧
  (∀ v t,
     repr h v t →
     repr (modifyValueAtPath unrepresentable fuel values path valueType h).2
          v t ∧
     ∀ t',
       repr (modifyValueAtPath unrepresentable fuel values path valueType h).2
            v t' →
       t' = t) ∧
  (∀ modifiedValues,
     (modifyValueAtPath unrepresentable fuel values path valueType h).1 =
       Done modifiedValues →
     length h ≤ modifiedValues ∧
     closed (length h)
       (modifyValueAtPath unrepresentable fuel values path valueType h).2).
Proof.
  destruct (safe_modifyValueAtPath h unrepresentable fuel values path
              valueType h (Inv_initial h)) as [[Hpre Hcl] Hres].
  split_and!; [done | | by intros l Hl; split; [apply Hres |]].
  intros v t Hrepr.
  assert (Hrepr' := repr_prefix _ _ _ Hpre _ Hrepr).
  split; [done |]. intros t' Ht'. by eapply repr_functional.
Qed.

Lemma modifyValueAtPath_leaves_input_witness :
  [OMap {["a" := MapRef 1]}; OMap {["b" := Str "x"]}] `prefix_of`
    (modifyValueAtPath (λ _, 0%Z) 3 0 "a.b" Tree.ValueTypeString
       [OMap {["a" := MapRef 1]}; OMap {["b" := Str "x"]}]).2.
Proof.
  apply (modifyValueAtPath_leaves_input (λ _, 0%Z) 3 0 "a.b"
           Tree.ValueTypeString
           [OMap {["a" := MapRef 1]}; OMap {["b" := Str "x"]}]).
Defined.

(** *** The store model against the tree model *)

(** *** Separated trees *)

Lemma own_frame (h h' : store) (t : value) :
  ∀ v P, own h v t P → (∀ x, P x → h' !! x = h !! x) → own h' v t P.
Proof.
  induction t as [| s | k n | k f | b | ts IH | tm IH] using value_ind';
    intros v P Hown Hsame; inversion Hown; subst; try constructor.
  - eapply own_slice; try done; [by rewrite Hsame |].
    intros i. match goal with H : ∀ i, option_Forall2 _ _ _ |- _ =>
      specialize (H i); inversion H as [x t Hx Hxs Hts |]; constructor end.
    eapply (proj1 (Forall_lookup _ _) IH); [by symmetry | done |].
    intros y Hy. apply Hsame. naive_solver.
  - eapply own_map; try done; [by rewrite Hsame |].
    intros key. match goal with H : ∀ k, option_Forall2 _ _ _ |- _ =>
      specialize (H key); inversion H as [x t Hx Hm Htm |]; constructor end.
    eapply IH; [by symmetry | done |].
    intros y Hy. apply Hsame. naive_solver.
Qed.

Lemma own_repr (h : store) (t : value) :
  ∀ v P, own h v t P → repr h v t.
Proof.
  induction t as [| s | k n | k f | b | ts IH | tm IH] using value_ind';
    intros v P Hown; inversion Hown; subst; try constructor.
  - econstructor; [done |]. apply Forall2_lookup. intros i.
    match goal with H : ∀ i, option_Forall2 _ _ _ |- _ =>
      specialize (H i); inversion H as [x t Hx Hxs Hts |]; constructor end.
    eapply (proj1 (Forall_lookup _ _) IH); [by symmetry | done].
  - econstructor; [done |]. intros key.
    match goal with H : ∀ k, option_Forall2 _ _ _ |- _ =>
      specialize (H key); inversion H as [x t Hx Hm Htm |]; constructor end.
    eapply IH; [by symmetry | done].
Qed.

Lemma own_weaken (h : store) (v : val) (t : value) (P Q : loc → Prop) :
  own h v t P → (∀ x, P x → Q x) → own h v t Q.
Proof.
  intros Hown HPQ. inversion Hown; subst; try constructor.
  - eapply own_slice; try done; [by apply HPQ | naive_solver].
  - eapply own_map; try done; [by apply HPQ | naive_solver].
Qed.

(** A scalar that stands for a tree owns it, whatever the objects. *)
Lemma repr_scalar_own (h h' : store) (v : val) (t : value) (P : loc → Prop) :
  repr h v t → above 0 v → (∀ l, v ≠ MapRef l ∧ v ≠ SliceRef l) →
  own h' v t P.
Proof.
  intros Hrepr _ Hv. inversion Hrepr; subst; try constructor.
  - by destruct (Hv l).
  - by destruct (Hv l).
Qed.

(** *** Loops *)

Lemma for_each_inv {A} (body : A → M unit) (I : list A → store → Prop)
    (xs : list A) (h : store) :
  I [] h →
  (∀ pre x post h1,
     xs = pre ++ x :: post → I pre h1 →
     ∃ h2, body x h1 = (Done (), h2) ∧ I (pre ++ [x]) h2) →
  ∃ h', for_each xs body h = (Done (), h') ∧ I xs h'.
Proof.
  intros Hinit Hstep.
  cut (∀ post pre h1, xs = pre ++ post → I pre h1 →
         ∃ h', for_each post body h1 = (Done (), h') ∧ I xs h').
  { intros H. by apply (H xs [] h). }
  induction post as [| x post IH]; intros pre h1 Hxs Hpre.
  - rewrite app_nil_r in Hxs. subst. by exists h1.
  - destruct (Hstep pre x post h1 Hxs Hpre) as (h2 & Hbody & Hpre').
    destruct (IH (pre ++ [x]) h2) as (h' & Hrun & Hfinal);
      [by rewrite <- app_assoc | done |].
    exists h'. split; [| done].
    simpl. unfold mbind, M_bind. by rewrite Hbody.
Qed.

(** *** The primitive operations, run *)

Lemma run_bind {A B} (c : M A) (f : A → M B) (h h' : store) (a : A) :
  c h = (Done a, h') → (c ≫= f) h = f a h'.
Proof. intros Hc. unfold mbind, M_bind. by rewrite Hc. Qed.

Lemma run_read_map (h : store) (l : loc) (m : gmap string val) :
  h !! l = Some (OMap m) → read_map l h = (Done m, h).
Proof. intros Hl. unfold read_map. by rewrite Hl. Qed.

Lemma run_read_slice (h : store) (l : loc) (xs : list val) :
  h !! l = Some (OSlice xs) → read_slice l h = (Done xs, h).
Proof. intros Hl. unfold read_slice. by rewrite Hl. Qed.

Lemma run_map_store (h : store) (l : loc) (m : gmap string val)
    (key : string) (v : val) :
  h !! l = Some (OMap m) →
  map_store l key v h = (Done (), <[l := OMap (<[key := v]> m)]> h).
Proof. intros Hl. unfold map_store. by rewrite Hl. Qed.

Lemma run_slice_store (h : store) (l : loc) (xs : list val) (i : nat)
    (v : val) :
  h !! l = Some (OSlice xs) → i < length xs →
  slice_store l i v h = (Done (), <[l := OSlice (<[i := v]> xs)]> h).
Proof.
  intros Hl Hi. unfold slice_store. rewrite Hl. by rewrite decide_True.
Qed.

Lemma repr_map_inv (h : store) (l : loc) (tm : gmap string value) :
  repr h (MapRef l) (VMap tm) →
  ∃ m, h !! l = Some (OMap m) ∧
       ∀ k, option_Forall2 (repr h) (m !! k) (tm !! k).
Proof. inversion 1; subst; eauto. Qed.

Lemma repr_slice_inv (h : store) (l : loc) (ts : list value) :
  repr h (SliceRef l) (VSlice ts) →
  ∃ xs, h !! l = Some (OSlice xs) ∧ Forall2 (repr h) xs ts.
Proof. inversion 1; subst; eauto. Qed.

Lemma vsize_slice_elem (ts : list value) (i : nat) (t : value) :
  ts !! i = Some t → vsize t < vsize (VSlice ts).
Proof.
  intros Hi. apply list_elem_of_lookup_2 in Hi.
  pose proof (vsize_elem _ _ Hi). simpl. lia.
Qed.

Lemma repr_extends (h h' : store) (t : value) :
  extends h h' → ∀ v, repr h v t → repr h' v t.
Proof.
  intros Hext.
  induction t as [| s | k n | k f | b | ts IH | tm IH] using value_ind';
    intros v Hrepr; inversion Hrepr; subst; try constructor.
  - econstructor; [by apply Hext |]. by eapply Forall2_impl_r.
  - econstructor; [by apply Hext |].
    intros key.
    match goal with H : ∀ k, option_Forall2 _ _ _ |- _ =>
      specialize (H key); inversion H as [x t Hx Hm Htm |]; constructor
    end.
    eapply IH; [by symmetry |]. done.
Qed.

Lemma copied_keys_store (pre : list string) (h h1 h1' : store) (dst : loc)
    (md : gmap string val) (tm : gmap string value) (key : string)
    (t : value) (v' : val) (Pnew : loc → Prop) :
  copied_keys pre h h1 dst md tm →
  key ∉ pre → tm !! key = Some t → dst < length h →
  length h1 ≤ length h1' →
  (∀ l, l < length h1 → h1' !! l = h1 !! l) →
  own h1' v' t Pnew →
  (∀ x, Pnew x → length h1 ≤ x < length h1') →
  ∃ h2, map_store dst key v' h1' = (Done (), h2) ∧
        copied_keys (pre ++ [key]) h h2 dst md tm.
Proof.
  intros (Hlen & Hframe & md1 & Ps & Hdst & Hkeys & Hbound & Hdisj)
    Hfresh Hkey Hdstlt Hlen' Hframe' Hown Hnew.
  assert (Hdst' : h1' !! dst = Some (OMap md1))
    by (rewrite Hframe' by lia; done).
  eexists. split; [by apply run_map_store |].
  assert (Hsame : ∀ x, x ≠ dst →
            <[dst := OMap (<[key := v']> md1)]> h1' !! x = h1' !! x)
    by (intros x Hx; by rewrite list_lookup_insert_ne).
  split_and!.
  - rewrite length_insert. lia.
  - intros l Hl Hne. rewrite Hsame by done. rewrite Hframe' by lia.
    by apply Hframe.
  - exists (<[key := v']> md1),
      (λ k, if decide (k = key) then Pnew else Ps k).
    split_and!.
    + apply list_lookup_insert_eq. by eapply lookup_lt_Some.
    + intros k. specialize (Hkeys k).
      destruct (decide (k = key)) as [-> | Hk].
      * rewrite Hkey. rewrite decide_True by (apply elem_of_app; right; left).
        exists v'. rewrite lookup_insert_eq. split; [done |].
        eapply own_frame; [done |]. intros x Hx. apply Hsame.
        apply Hnew in Hx. lia.
      * rewrite lookup_insert_ne by done.
        destruct (tm !! k) as [tk |]; [| done].
        destruct (decide (k ∈ pre)) as [Hin | Hnin].
        -- rewrite decide_True by (apply elem_of_app; by left).
           destruct Hkeys as (vk & Hvk & Hownk). exists vk. split; [done |].
           eapply own_frame; [done |]. intros x Hx.
           apply Hbound in Hx. rewrite Hsame by lia. apply Hframe'. lia.
        -- rewrite decide_False; [done |].
           intros [Hin | Hin%list_elem_of_singleton]%elem_of_app; done.
    + intros k x. rewrite length_insert. case_decide.
      * intros Hx%Hnew. lia.
      * intros Hx%Hbound. lia.
    + intros k1 k2 x. repeat case_decide; subst; try done.
      * intros Hx%Hnew Hx'%Hbound. lia.
      * intros Hx%Hbound Hx'%Hnew. lia.
      * apply Hdisj.
Qed.

Lemma extends_frame (h0 h h' : store) (dst : loc) :
  extends h0 h → length h0 ≤ dst →
  (∀ l, l < length h → l ≠ dst → h' !! l = h !! l) →
  extends h0 h'.
Proof.
  intros Hext Hdst Hframe l o Hl.
  pose proof (lookup_lt_Some _ _ _ Hl) as Hlt.
  pose proof (lookup_lt_Some _ _ _ (Hext _ _ Hl)) as Hlt'.
  rewrite Hframe by lia. by apply Hext.
Qed.

Lemma extends_below (h0 h h' : store) :
  extends h0 h → (∀ l, l < length h → h' !! l = h !! l) → extends h0 h'.
Proof.
  intros Hext Hframe l o Hl.
  pose proof (lookup_lt_Some _ _ _ (Hext _ _ Hl)) as Hlt.
  rewrite Hframe by done. by apply Hext.
Qed.

Lemma extends_length (h0 h : store) : extends h0 h → length h0 ≤ length h.
Proof.
  intros Hext. destruct (decide (length h0 ≤ length h)) as [| Hgt]; [done |].
  destruct (lookup_lt_is_Some_2 h0 (length h)) as [o Ho]; [lia |].
  apply Hext, lookup_lt_Some in Ho. lia.
Qed.

(** A copied mapping owns what it stands for. *)
Lemma copied_map_own (h h' : store) (dst : loc) (tm : gmap string value) :
  copied_map h h' dst ∅ tm → dst < length h →
  own h' (MapRef dst) (VMap tm)
      (λ x, x = dst ∨ interval (length h) (length h') x).
Proof.
  intros (ks & Hall & Hlen & Hframe & md' & Ps & Hdst & Hkeys & Hbound & Hdisj)
    Hlt.
  eapply (own_map _ _ _ _ _ Ps); [done | by left | | |done].
  - intros k. specialize (Hkeys k).
    destruct (tm !! k) as [t |] eqn:Htk.
    + rewrite decide_True in Hkeys by (by eapply Hall).
      destruct Hkeys as (v' & -> & Hown). by constructor.
    + rewrite Hkeys, lookup_empty. constructor.
  - intros k x Hx%Hbound. unfold interval. lia.
Qed.

Lemma copied_elems_store (n : nat) (h h1 h1' : store) (ts : list value)
    (len : nat) (t : value) (v' : val) (Pnew : loc → Prop) :
  copied_elems n h h1 ts len →
  n < len → ts !! n = Some t →
  length h1 ≤ length h1' →
  (∀ l, l < length h1 → h1' !! l = h1 !! l) →
  own h1' v' t Pnew →
  (∀ x, Pnew x → length h1 ≤ x < length h1') →
  ∃ h2, slice_store (length h) n v' h1' = (Done (), h2) ∧
        copied_elems (S n) h h2 ts len.
Proof.
  intros (Hlen & Hframe & ys & Ps & Hdst & Hys & Helems & Hbound & Hdisj)
    Hn Hts Hlen' Hframe' Hown Hnew.
  assert (Hdst' : h1' !! length h = Some (OSlice ys))
    by (rewrite Hframe' by lia; done).
  eexists. split; [apply run_slice_store; [done | lia] |].
  assert (Hsame : ∀ x, x ≠ length h →
            <[length h := OSlice (<[n := v']> ys)]> h1' !! x = h1' !! x)
    by (intros x Hx; by rewrite list_lookup_insert_ne).
  split_and!.
  - rewrite length_insert. lia.
  - intros l Hl. rewrite Hsame by lia. rewrite Hframe' by lia.
    by apply Hframe.
  - exists (<[n := v']> ys), (λ i, if decide (i = n) then Pnew else Ps i).
    split_and!.
    + apply list_lookup_insert_eq. by eapply lookup_lt_Some.
    + by rewrite length_insert.
    + intros i ti Hi Hti. destruct (decide (i = n)) as [-> | Hne].
      * exists v'. rewrite list_lookup_insert_eq by lia. split; [done |].
        assert (ti = t) as -> by congruence.
        eapply own_frame; [done |]. intros x Hx. apply Hsame.
        apply Hnew in Hx. lia.
      * rewrite list_lookup_insert_ne by done.
        destruct (Helems i ti) as (vi & Hvi & Howni); [lia | done |].
        exists vi. split; [done |].
        eapply own_frame; [done |]. intros x Hx.
        apply Hbound in Hx. rewrite Hsame by lia. apply Hframe'. lia.
    + intros i x. rewrite length_insert. case_decide.
      * intros Hx%Hnew. lia.
      * intros Hx%Hbound. lia.
    + intros i j x. repeat case_decide; subst; try done.
      * intros Hx%Hnew Hx'%Hbound. lia.
      * intros Hx%Hbound Hx'%Hnew. lia.
      * apply Hdisj.
Qed.

Section CopyStep.
Context (h0 : store) (fuel : nat).

Hypothesis IHmap : ∀ tm src dst h md,
  vsize (VMap tm) ≤ fuel → extends h0 h →
  repr h0 (MapRef src) (VMap tm) →
  length h0 ≤ dst → h !! dst = Some (OMap md) →
  ∃ h', copyMap fuel src dst h = (Done (), h') ∧ copied_map h h' dst md tm.

Hypothesis IHslice : ∀ ts src h,
  vsize (VSlice ts) ≤ fuel → extends h0 h →
  repr h0 (SliceRef src) (VSlice ts) →
  ∃ h', copySlice fuel src h = (Done (length h), h') ∧ copied_slice h h' ts.

(** The value [v] of the source, which stands for [t], is copied from
    the store [h1]: the copy [v'] owns [t] in new objects. *)
Lemma copy_value (h1 : store) (v : val) (t : value) :
  vsize t ≤ fuel → extends h0 h1 → repr h0 v t →
  ∃ h1' v' (Pnew : loc → Prop),
    length h1 ≤ length h1' ∧
    (∀ l, l < length h1 → h1' !! l = h1 !! l) ∧
    own h1' v' t Pnew ∧
    (∀ x, Pnew x → length h1 ≤ x < length h1') ∧
    ∀ (k : val → M unit),
      match v with
      | MapRef src =>
          nested ← alloc (OMap ∅);
          copyMap fuel src nested ≫= λ _, k (MapRef nested)
      | SliceRef src => copied ← copySlice fuel src; k (SliceRef copied)
      | v0 => k v0
      end h1 = k v' h1'.
Proof.
  intros Hsize Hext Hrepr.
  destruct v as [| s | kd n | kd f | b | src | src].
  1-5: (eexists h1, _, (λ _ : loc, False); split_and!; cycle 4;
        [intros k; reflexivity | done | done
        | inversion Hrepr; subst; constructor | done]).
  - (* a sequence *)
    inversion Hrepr as [| | | | | l xs ts Hl Hxs |]; subst.
    destruct (IHslice ts src h1 Hsize Hext Hrepr) as (h1' & Hrun & Hcopied).
    destruct Hcopied as (Hlen & Hframe & Hown).
    exists h1', (SliceRef (length h1)), (interval (length h1) (length h1')).
    split_and!; try done; [lia |].
    intros k. by rewrite (run_bind _ _ _ _ _ Hrun).
  - (* a mapping *)
    inversion Hrepr as [| | | | | | l m tm Hl Hm]; subst.
    destruct (IHmap tm src (length h1) (h1 ++ [OMap ∅]) ∅)
      as (h1' & Hrun & Hcopied); try done.
    { intros l o Hlo. rewrite lookup_app_l; [by apply Hext |].
      by eapply lookup_lt_Some, Hext. }
    { by apply extends_length. }
    { by rewrite lookup_app_r, Nat.sub_diag. }
    pose proof (copied_map_own _ _ _ _ Hcopied) as Hown.
    rewrite length_app in Hown. simpl in Hown.
    destruct Hcopied as (ks & _ & Hlen & Hframe & _).
    rewrite length_app in Hlen, Hframe. simpl in Hlen, Hframe.
    exists h1', (MapRef (length h1)), (interval (length h1) (length h1')).
    split_and!.
    + lia.
    + intros l Hl'. rewrite Hframe by lia. by rewrite lookup_app_l.
    + eapply own_weaken; [apply Hown; lia |].
      intros x [-> | Hx]; unfold interval in *; lia.
    + done.
    + intros k. unfold alloc.
      rewrite (run_bind _ _ h1 (h1 ++ [OMap ∅]) (length h1)) by done.
      by rewrite (run_bind _ _ _ _ _ Hrun).
Qed.

End CopyStep.

(** [copyMap] and [copySlice] on a source that stands for a tree, with
    fuel for its size: they return, and the copy owns the tree in
    objects allocated meanwhile. *)
Lemma copy_spec (h0 : store) (fuel : nat) :
  (∀ tm src dst h md,
     vsize (VMap tm) ≤ fuel → extends h0 h →
     repr h0 (MapRef src) (VMap tm) →
     length h0 ≤ dst → h !! dst = Some (OMap md) →
     ∃ h', copyMap fuel src dst h = (Done (), h') ∧
           copied_map h h' dst md tm) ∧
  (∀ ts src h,
     vsize (VSlice ts) ≤ fuel → extends h0 h →
     repr h0 (SliceRef src) (VSlice ts) →
     ∃ h', copySlice fuel src h = (Done (length h), h') ∧
           copied_slice h h' ts).
Proof.
  induction fuel as [| fuel [IHmap IHslice]];
    [split; intros; simpl in *; lia |].
  split.
  - intros tm src dst h md Hsize Hext Hrepr Hdst Hmd.
    destruct (repr_map_inv _ _ _ Hrepr) as (m & Hsrc & Hm).
    simpl. rewrite (run_bind _ _ h h m) by (by apply run_read_map, Hext).
    pose proof (lookup_lt_Some _ _ _ Hmd) as Hdstlt.
    destruct (for_each_inv
      (λ '(key, value),
         match value with
         | MapRef v =>
             nested ← alloc (OMap ∅);
             copyMap fuel v nested ≫= λ _, map_store dst key (MapRef nested)
         | SliceRef v =>
             copied ← copySlice fuel v; map_store dst key (SliceRef copied)
         | v => map_store dst key v
         end)
      (λ pre h1, copied_keys pre.*1 h h1 dst md tm)
      (map_to_list m) h) as (h' & Hrun & Hfinal).
    + (* nothing copied yet *)
      split_and!; [done | done |].
      exists md, (λ _ _, False). split_and!; try done.
      intros k. by destruct (tm !! k).
    + (* one entry *)
      intros pre [key value] post h1 Hxs Hinv.
      assert (Hkv : m !! key = Some value).
      { apply elem_of_map_to_list. rewrite Hxs.
        apply elem_of_app. right. left. }
      assert (Hfresh : key ∉ pre.*1).
      { pose proof (NoDup_fst_map_to_list m) as Hnd.
        rewrite Hxs, fmap_app in Hnd. apply NoDup_app in Hnd as (_ & Hnd & _).
        intros Hin. apply (Hnd key Hin). simpl. left. }
      pose proof (Hm key) as Hk. rewrite Hkv in Hk.
      inversion Hk as [? t Hvt Heq Htk |]; subst.
      symmetry in Htk.
      assert (Hext1 : extends h0 h1).
      { destruct Hinv as (_ & Hframe & _). by eapply extends_frame. }
      destruct (copy_value h0 fuel IHmap IHslice h1 value t)
        as (h1' & v' & Pnew & Hlen' & Hframe' & Hown & Hnew & Heq);
        [pose proof (vsize_entry _ _ _ Htk); lia | done | done |].
      rewrite (Heq (λ v, map_store dst key v)).
      rewrite fmap_app. simpl.
      by eapply copied_keys_store.
    + exists h'. split; [done |].
      exists (map_to_list m).*1. split; [| done].
      intros k t Htk. pose proof (Hm k) as Hk. rewrite Htk in Hk.
      inversion Hk as [v ? Hvt Hmk |]; subst.
      apply list_elem_of_fmap. exists (k, v). split; [done |].
      by apply elem_of_map_to_list.
  - intros ts src h Hsize Hext Hrepr.
    destruct (repr_slice_inv _ _ _ Hrepr) as (xs & Hsrc & Hxs).
    simpl. rewrite (run_bind _ _ h h xs) by (by apply run_read_slice, Hext).
    unfold alloc at 1.
    rewrite (run_bind _ _ h (h ++ [OSlice (replicate (length xs) Nil)])
               (length h)) by done.
    set (h1 := h ++ [OSlice (replicate (length xs) Nil)]).
    destruct (for_each_inv
      (λ '(i, item),
         match item with
         | MapRef v =>
             nested ← alloc (OMap ∅);
             copyMap fuel v nested ≫= λ _,
             slice_store (length h) i (MapRef nested)
         | SliceRef v =>
             copied ← copySlice fuel v;
             slice_store (length h) i (SliceRef copied)
         | v => slice_store (length h) i v
         end)
      (λ pre h2, copied_elems (length pre) h h2 ts (length xs))
      (imap (λ i item, (i, item)) xs) h1) as (h' & Hrun & Hfinal).
    + (* nothing copied yet *)
      subst h1. split_and!.
      * rewrite length_app. simpl. lia.
      * intros l Hl. by rewrite lookup_app_l.
      * exists (replicate (length xs) Nil), (λ _ _, False).
        split_and!; try done.
        -- by rewrite lookup_app_r, Nat.sub_diag.
        -- by rewrite length_replicate.
        -- intros i t Hi. simpl in Hi. lia.
    + (* one element *)
      intros pre [i item] post h2 Hdecomp Hinv.
      assert (Hi : i = length pre ∧ xs !! i = Some item).
      { assert (Hlook : imap (λ i item, (i, item)) xs !! length pre
                          = Some (i, item)).
        { rewrite Hdecomp. rewrite lookup_app_r by done.
          by rewrite Nat.sub_diag. }
        rewrite list_lookup_imap in Hlook.
        destruct (xs !! length pre) as [item' |] eqn:Hitem; [| done].
        simpl in Hlook. injection Hlook as <- <-. done. }
      destruct Hi as [-> Hitem].
      destruct (Forall2_lookup_l _ _ _ _ _ Hxs Hitem) as (t & Ht & Hvt).
      assert (Hext2 : extends h0 h2).
      { destruct Hinv as (Hlen2 & Hframe2 & _).
        eapply extends_below; [exact Hext | done]. }
      destruct (copy_value h0 fuel IHmap IHslice h2 item t)
        as (h2' & v' & Pnew & Hlen' & Hframe' & Hown & Hnew & Heq);
        [pose proof (vsize_slice_elem _ _ _ Ht); lia | done | done |].
      rewrite (Heq (λ v, slice_store (length h) (length pre) v)).
      rewrite length_app. simpl. rewrite Nat.add_1_r.
      eapply copied_elems_store; try done.
      by eapply lookup_lt_Some.
    + rewrite (run_bind _ _ _ _ _ Hrun). exists h'. split; [done |].
      rewrite length_imap in Hfinal.
      destruct Hfinal as (Hlen & Hframe & ys & Ps & Hdst & Hys & Helems
                          & Hbound & Hdisj).
      split_and!; [done | done |].
      pose proof (Forall2_length _ _ _ Hxs) as Hlenxs.
      eapply (own_slice _ _ ys _ _ Ps); [done | | | | done].
      * unfold interval. lia.
      * intros i. destruct (decide (i < length xs)) as [Hi | Hi].
        -- destruct (lookup_lt_is_Some_2 ts i) as [t Ht]; [lia |].
           destruct (Helems i t Hi Ht) as (v' & -> & Hown).
           rewrite Ht. by constructor.
        -- rewrite (lookup_ge_None_2 ys) by lia.
           rewrite (lookup_ge_None_2 ts) by lia. constructor.
      * intros i x Hx%Hbound. unfold interval. lia.
Qed.

(** *** setValueAtPath on a separated tree *)

Lemma own_map_inv (h : store) (v : val) (tm : gmap string value)
    (P : loc → Prop) :
  own h v (VMap tm) P →
  ∃ l m (Ps : string → loc → Prop),
    v = MapRef l ∧ h !! l = Some (OMap m) ∧ P l ∧
    (∀ k, option_Forall2 (λ v t, own h v t (Ps k)) (m !! k) (tm !! k)) ∧
    (∀ k x, Ps k x → P x ∧ x ≠ l) ∧
    (∀ k1 k2 x, Ps k1 x → Ps k2 x → k1 = k2).
Proof. inversion 1; subst. by eexists _, _, _. Qed.

(** Where the tree has a value at [keys], [setValueAtPath_loop] stores
    [value] in place of it and touches nothing else of the tree: neither
    the objects outside [P] nor those of the old value.  The tree the
    root then stands for is the one the tree model computes, for whatever
    tree [value] stands for. *)
Lemma setValueAtPath_loop_own (value : val) (keys : list string) :
  ∀ h c tm (P : loc → Prop) told,
    own h (MapRef c) (VMap tm) P →
    Tree.getValueAtPath_loop (VMap tm) keys = Ok told →
    keys ≠ [] →
    ∃ h' vold (Pold : loc → Prop),
      setValueAtPath_loop c keys value h = (Done (), h') ∧
      length h' = length h ∧
      (∀ x, ¬ P x → h' !! x = h !! x) ∧
      getValueAtPath_loop (MapRef c) keys h = (Done vold, h) ∧
      own h vold told Pold ∧
      (∀ x, Pold x → h' !! x = h !! x) ∧
      (∀ tv, repr h' value tv →
         ∃ tm', Tree.setValueAtPath_loop tm keys tv = Ok tm' ∧
                repr h' (MapRef c) (VMap tm')).
Proof.
  induction keys as [| key keys IH]; intros h c tm P told Hown Hget Hne;
    [done |].
  destruct (own_map_inv _ _ _ _ Hown)
    as (l & m & Ps & [= <-] & Hc & HPc & Hkids & Hin & Hdisj).
  pose proof (Hkids key) as Hkey.
  simpl in Hget.
  destruct (tm !! key) as [tnext |] eqn:Htk; [| done].
  inversion Hkey as [vnext ? Hnext Hmk Heq |]; subst. symmetry in Hmk.
  assert (Hsiblings : ∀ h',
            (∀ k x, k ≠ key → Ps k x → h' !! x = h !! x) →
            ∀ k, k ≠ key → option_Forall2 (repr h') (m !! k) (tm !! k)).
  { intros h' Hsame k Hk. specialize (Hkids k).
    inversion Hkids as [vk tk Hvk |]; constructor.
    eapply own_repr, own_frame; [done |]. intros x Hx. by eapply Hsame. }
  destruct keys as [| key2 keys].
  - (* the final key *)
    simpl in Hget. injection Hget as <-.
    exists (<[c := OMap (<[key := value]> m)]> h), vnext, (Ps key).
    assert (Hsame : ∀ x, x ≠ c →
              <[c := OMap (<[key := value]> m)]> h !! x = h !! x)
      by (intros x Hx; by rewrite list_lookup_insert_ne).
    split_and!.
    + by apply run_map_store.
    + by rewrite length_insert.
    + intros x Hx. apply Hsame. by intros ->.
    + simpl. rewrite (run_bind _ _ h h m) by (by apply run_read_map).
      by rewrite Hmk.
    + done.
    + intros x Hx. apply Hsame. by apply Hin in Hx as [_ ?].
    + intros tv Htv. exists (<[key := tv]> tm). split; [done |].
      eapply (repr_map _ _ (<[key := value]> m)).
      * apply list_lookup_insert_eq. by eapply lookup_lt_Some.
      * intros k. destruct (decide (k = key)) as [-> | Hk].
        -- rewrite !lookup_insert_eq. by constructor.
        -- rewrite !lookup_insert_ne by done.
           apply Hsiblings; [| done].
           intros k' x _ Hx. apply Hsame. by apply Hin in Hx as [_ ?].
  - (* a key on the way *)
    set (rest := key2 :: keys) in *.
    assert (Hrest : rest ≠ []) by done.
    assert (∃ tmn, tnext = VMap tmn) as [tmn ->].
    { destruct tnext; try done. by eexists. }
    destruct (own_map_inv _ _ _ _ Hnext) as (next & mn & _ & -> & _).
    destruct (IH h next tmn (Ps key) told Hnext Hget Hrest)
      as (h' & vold & Pold & Hrun & Hlen & Hframe & Hread & Hold & Hkeep
          & Hfinal).
    assert (Hc' : h' !! c = Some (OMap m)).
    { rewrite Hframe; [done |]. intros Hx. by apply Hin in Hx as [_ ?]. }
    exists h', vold, Pold. split_and!; try done.
    + change (setValueAtPath_loop c (key :: rest) value) with
        (m ← read_map c;
         match m !! key with
         | Some (MapRef nextMap) => setValueAtPath_loop nextMap rest value
         | Some _ => fail (NonMapNavigate key)
         | None =>
             newMap ← alloc (OMap ∅);
             map_store c key (MapRef newMap) ≫= λ _,
             setValueAtPath_loop newMap rest value
         end).
      rewrite (run_bind _ _ h h m) by (by apply run_read_map).
      by rewrite Hmk.
    + intros x Hx. apply Hframe. intros Hx'. by apply Hin in Hx' as [? _].
    + simpl. rewrite (run_bind _ _ h h m) by (by apply run_read_map).
      by rewrite Hmk.
    + intros tv Htv. destruct (Hfinal tv Htv) as (tmn' & Hset & Hrepr').
      exists (<[key := VMap tmn']> tm). split.
      * change (Tree.setValueAtPath_loop tm (key :: rest) tv) with
          (match tm !! key with
           | Some (VMap nextMap) =>
               nextMap' ← Tree.setValueAtPath_loop nextMap rest tv;
               Ok (<[key := VMap nextMap']> tm)
           | Some _ => Err (NonMapNavigate key)
           | None =>
               newMap ← Tree.setValueAtPath_loop ∅ rest tv;
               Ok (<[key := VMap newMap]> tm)
           end).
        rewrite Htk, Hset. done.
      * eapply (repr_map _ _ m); [done |].
        intros k. destruct (decide (k = key)) as [-> | Hk].
        -- rewrite Hmk, lookup_insert_eq. by constructor.
        -- rewrite lookup_insert_ne by done.
           apply Hsiblings; [| done].
           intros k' x Hk' Hx. apply Hframe. intros Hx'.
           by pose proof (Hdisj _ _ _ Hx Hx').
Qed.

(** *** modifyValueAtPath: the store model against the tree model *)

Lemma vsize_getValueAtPath_loop (keys : list string) :
  ∀ t tw, Tree.getValueAtPath_loop t keys = Ok tw → vsize tw ≤ vsize t.
Proof.
  induction keys as [| key keys IH]; intros t tw Hget; simpl in Hget.
  - by injection Hget as <-.
  - destruct t as [| | | | | | tm]; try done.
    destruct (tm !! key) as [tnext |] eqn:Hk; [| done].
    pose proof (vsize_entry _ _ _ Hk). pose proof (IH _ _ Hget). lia.
Qed.

Lemma getValueAtPath_loop_extends (keys : list string) :
  ∀ v w h h',
    getValueAtPath_loop v keys h = (Done w, h) → extends h h' →
    getValueAtPath_loop v keys h' = (Done w, h').
Proof.
  induction keys as [| key keys IH]; intros v w h h' Hget Hext; simpl in *.
  - by injection Hget as <-.
  - destruct v as [| | | | | | l]; try done.
    destruct (h !! l) as [[m | xs] |] eqn:Hl;
      try (unfold mbind, M_bind, read_map in Hget; rewrite Hl in Hget; done).
    rewrite (run_bind _ _ h h m) in Hget by (by apply run_read_map).
    rewrite (run_bind _ _ h' h' m) by (by apply run_read_map, Hext).
    destruct (m !! key) as [val |]; [| done]. by eapply IH.
Qed.

Lemma bind_Ok {A B} (a : A) (f : A → result B) : (Ok a ≫= f) = f a.
Proof. reflexivity. Qed.

Lemma bind_Err {A B} (e : error) (f : A → result B) : (Err e ≫= f) = Err e.
Proof. reflexivity. Qed.

Lemma run_bind_failed {A B} (c : M A) (f : A → M B) (h h' : store)
    (e : error) :
  c h = (Failed e, h') → (c ≫= f) h = (Failed e, h').
Proof. intros Hc. unfold mbind, M_bind. by rewrite Hc. Qed.

Lemma run_ret {A} (a : A) (h : store) : (mret a : M A) h = (Done a, h).
Proof. reflexivity. Qed.

Lemma run_fail {A} (e : error) (h : store) :
  (fail e : M A) h = (Failed e, h).
Proof. reflexivity. Qed.

Lemma run_alloc (o : object) (h : store) :
  alloc o h = (Done (length h), h ++ [o]).
Proof. reflexivity. Qed.

Lemma getValueAtPath_extends (v w : val) (path : string) (h h' : store) :
  getValueAtPath v path h = (Done w, h) → extends h h' →
  getValueAtPath v path h' = (Done w, h').
Proof.
  unfold getValueAtPath. case_decide.
  - by intros [= <-] _.
  - apply getValueAtPath_loop_extends.
Qed.

Lemma vsize_getValueAtPath (t tw : value) (path : string) :
  Tree.getValueAtPath t path = Ok tw → vsize tw ≤ vsize t.
Proof.
  unfold Tree.getValueAtPath. case_decide.
  - by intros [= <-].
  - apply vsize_getValueAtPath_loop.
Qed.

Lemma modify_finish (h2 : store) (n0 : loc) (tm : gmap string value)
    (P1 : loc → Prop) (path : string) (tw : value) (newValue : val)
    (tnew : value) :
  own h2 (MapRef n0) (VMap tm) P1 →
  Tree.getValueAtPath (VMap tm) path = Ok tw →
  (∀ h' vold (Pold : loc → Prop),
     length h' = length h2 →
     (∀ x, ¬ P1 x → h' !! x = h2 !! x) →
     getValueAtPath (MapRef n0) path h2 = (Done vold, h2) →
     own h2 vold tw Pold →
     (∀ x, Pold x → h' !! x = h2 !! x) →
     repr h' newValue tnew) →
  agrees (Tree.setValueAtPath tm path tnew ≫= (λ modified, Ok modified))
         ((setValueAtPath n0 path newValue ≫= λ _, mret n0) h2).
Proof.
  intros Hown Hget Hnew.
  unfold Tree.setValueAtPath, setValueAtPath, Tree.getValueAtPath,
    getValueAtPath in *.
  destruct (decide (path = "")) as [-> | Hpath]; [simpl; by eauto |].
  destruct (Tree.splitPath path) as [| key keys] eqn:Hkeys;
    [simpl; by eauto |].
  destruct (setValueAtPath_loop_own newValue (key :: keys) h2 n0 tm P1 tw
              Hown Hget ltac:(done))
    as (h' & vold & Pold & Hrun & Hlen & Hframe & Hread & Hold & Hkeep
        & Hfinal).
  destruct (Hfinal tnew) as (tm' & -> & Hrepr); [by eapply Hnew |].
  rewrite bind_Ok. exists n0, h'. split; [| done].
  by rewrite (run_bind _ _ _ _ _ Hrun).
Qed.

Lemma own_extend (h h' : store) (v : val) (t : value) (P : loc → Prop) :
  own h v t P → (∀ x, P x → x < length h) →
  (∀ x, x < length h → h' !! x = h !! x) → own h' v t P.
Proof.
  intros Hown Hlt Hsame. eapply own_frame; [done |].
  intros x Hx. by apply Hsame, Hlt.
Qed.

(** X30: on a store in which [values] stands for the tree [tm], and with
    fuel for the size of the tree, [modifyValueAtPath] of the store model
    ends as [modifyValueAtPath] of the tree model does: with the same
    error, or with a mapping that stands for the tree it returns. *)
Lemma modifyValueAtPath_refines (unrepresentable : spec_float → Z)
    (fuel : nat) (h : store) (values : loc) (tm : gmap string value)
    (path : string) (valueType : Tree.ValueType) :
  repr h (MapRef values) (VMap tm) →
  vsize (VMap tm) ≤ fuel →
  agrees (Tree.modifyValueAtPath unrepresentable tm path valueType)
         (modifyValueAtPath unrepresentable fuel values path valueType h).
Proof.
  intros Hrepr Hfuel.
  unfold modifyValueAtPath, Tree.modifyValueAtPath. rewrite copyMap_empty.
  rewrite (run_bind _ _ h (h ++ [OMap ∅]) (length h)) by done.
  destruct (proj1 (copy_spec h fuel) tm values (length h) (h ++ [OMap ∅]) ∅)
    as (h1 & Hcopy & Hcopied); try done.
  { intros l o Hl. rewrite lookup_app_l; [done | by eapply lookup_lt_Some]. }
  { by rewrite lookup_app_r, Nat.sub_diag. }
  rewrite (run_bind _ _ _ _ _ Hcopy).
  pose proof (copied_map_own _ _ _ _ Hcopied) as Hown1.
  rewrite length_app in Hown1. simpl in Hown1.
  specialize (Hown1 ltac:(lia)).
  set (n0 := length h) in *.
  set (P1 := λ x, x = n0 ∨ interval (n0 + 1) (length h1) x) in *.
  assert (HP1 : ∀ x, P1 x → x < length h1).
  { destruct Hcopied as (ks & _ & Hlen & _). rewrite length_app in Hlen.
    simpl in Hlen. intros x [-> | Hx]; unfold interval in *; lia. }
  pose proof (getValueAtPath_repr h1 (MapRef n0) (VMap tm) path
                (own_repr _ _ _ _ Hown1)) as Hget.
  destruct (Tree.getValueAtPath (VMap tm) path) as [tw | e |] eqn:Htget;
    [| | done].
  2:{ rewrite bind_Err. exists h1. by apply run_bind_failed. }
  destruct Hget as (w & Hrunget & Hw).
  rewrite (run_bind _ _ _ _ _ Hrunget), bind_Ok.
  destruct valueType; inversion Hw; subst;
    try (rewrite bind_Err; exists h1; by apply run_bind_failed).
  all: try (rewrite bind_Ok, (run_bind _ _ h1 h1 _) by apply run_ret;
            eapply modify_finish; [exact Hown1 | exact Htget |];
            intros; constructor).
  - (* a sequence: the longer one holds the elements of the old one *)
    match goal with
    | H : h1 !! l = Some (OSlice xs), H' : Forall2 (repr h1) xs ts |- _ =>
        rename H into Hl; rename H' into Hxs
    end.
    set (h2 := (h1 ++ [OSlice xs]) ++
               [OSlice (xs ++ [Str "helmhound-test-element"])]).
    assert (Hext2 : ∀ x, x < length h1 → h2 !! x = h1 !! x).
    { intros x Hx. subst h2. rewrite !lookup_app_l; [done | done |].
      rewrite length_app. lia. }
    assert (Hnv :
      (xs0 ← read_slice l;
       _ ← alloc (OSlice xs0);
       appended ← alloc (OSlice (xs0 ++ [Str "helmhound-test-element"]));
       mret (SliceRef appended)) h1
      = (Done (SliceRef (S (length h1))), h2)).
    { rewrite (run_bind _ _ h1 h1 xs) by (by apply run_read_slice).
      rewrite (run_bind _ _ _ _ _ (run_alloc _ _)).
      rewrite (run_bind _ _ _ _ _ (run_alloc _ _)).
      rewrite length_app. simpl. by rewrite Nat.add_1_r. }
    rewrite bind_Ok, (run_bind _ _ _ _ _ Hnv).
    eapply modify_finish; [by eapply own_extend | exact Htget |].
    intros h' vold Pold Hlen Hframe Hread Hold Hkeep.
    assert (Hvold : vold = SliceRef l).
    { assert (Hread' : getValueAtPath (MapRef n0) path h2
                       = (Done (SliceRef l), h2)).
      { eapply getValueAtPath_extends; [done |].
        intros x o Hx. rewrite Hext2; [done | by eapply lookup_lt_Some]. }
      congruence. }
    subst vold.
    assert (Hl' : h' !! l = Some (OSlice xs)).
    { inversion Hold; subst. rewrite Hkeep by done.
      rewrite Hext2; [done | by eapply lookup_lt_Some]. }
    pose proof (own_repr _ _ _ _ (own_frame _ _ _ _ _ Hold Hkeep)) as Hr.
    destruct (repr_slice_inv _ _ _ Hr) as (xs' & Hl'' & Hxs').
    assert (xs' = xs) as -> by congruence.
    eapply (repr_slice _ _ (xs ++ [Str "helmhound-test-element"])).
    + rewrite Hframe by (intros Hx%HP1; lia). subst h2.
      rewrite lookup_app_r; rewrite length_app; simpl; [| lia].
      by replace (S (length h1) - (length h1 + 1)) with 0 by lia.
    + apply Forall2_app; [done |]. by repeat constructor.
  - (* a mapping: a second copy, with the sentinel entry *)
    rename tm0 into tsub.
    rewrite copyMap_empty.
    destruct (proj1 (copy_spec h1 fuel) tsub l (length h1)
                (h1 ++ [OMap ∅]) ∅)
      as (h1b & Hcopy2 & Hcopied2); try done.
    { pose proof (vsize_getValueAtPath _ _ _ Htget). lia. }
    { intros x o Hx. rewrite lookup_app_l; [done | by eapply lookup_lt_Some]. }
    { by rewrite lookup_app_r, Nat.sub_diag. }
    destruct Hcopied2 as (ks & Hall & Hlen2 & Hframe2 & md' & Ps & Hmm
                          & Hkeys & Hbound & _).
    rewrite length_app in Hlen2, Hframe2, Hbound. simpl in Hlen2, Hframe2, Hbound.
    set (mm := length h1) in *.
    set (h2 := <[mm := OMap (<["helmhound-test-key" :=
                                 Str "helmhound-test-value"]> md')]> h1b).
    assert (Hnv :
      (modifiedMap ← alloc (OMap ∅);
       copyMap fuel l modifiedMap ≫= λ _,
       map_store modifiedMap "helmhound-test-key"
         (Str "helmhound-test-value") ≫= λ _,
       mret (MapRef modifiedMap)) h1
      = (Done (MapRef mm), h2)).
    { rewrite (run_bind _ _ _ _ _ (run_alloc _ _)).
      rewrite (run_bind _ _ _ _ _ Hcopy2).
      by rewrite (run_bind _ _ _ _ _ (run_map_store _ _ _ _ _ Hmm)). }
    rewrite bind_Ok, (run_bind _ _ _ _ _ Hnv).
    assert (Hsame2 : ∀ x, x ≠ mm → h2 !! x = h1b !! x)
      by (intros x Hx; subst h2; by rewrite list_lookup_insert_ne).
    eapply modify_finish; [| exact Htget |].
    { eapply own_frame; [exact Hown1 |]. intros x Hx%HP1.
      rewrite Hsame2 by lia. rewrite Hframe2 by lia.
      by rewrite lookup_app_l. }
    intros h' vold Pold Hlen Hframe Hread Hold Hkeep.
    assert (Hnew : ∀ x, mm ≤ x → h' !! x = h2 !! x).
    { intros x Hx. apply Hframe. intros Hx'%HP1. lia. }
    eapply (repr_map _ _ (<["helmhound-test-key" :=
                              Str "helmhound-test-value"]> md')).
    + rewrite Hnew by done. subst h2.
      apply list_lookup_insert_eq. by eapply lookup_lt_Some.
    + intros k. destruct (decide (k = "helmhound-test-key")) as [-> | Hk].
      * rewrite !lookup_insert_eq. by repeat constructor.
      * rewrite !lookup_insert_ne by done. specialize (Hkeys k).
        destruct (tsub !! k) as [t |] eqn:Htk.
        -- rewrite decide_True in Hkeys by (by eapply Hall).
           destruct Hkeys as (v' & -> & Hown'). constructor.
           eapply own_repr, own_frame; [exact Hown' |].
           intros x Hx%Hbound. rewrite Hnew by lia. apply Hsame2. lia.
        -- rewrite Hkeys, lookup_empty. constructor.
Qed.

(* ===================================================================== *)
(** ** Further properties                                                *)
(* ===================================================================== *)

Import Tree.

(** *** splitPath *)

Lemma splitPath_unfold (path : string) : splitPath path = splitPath_loop path [] "".
Proof. unfold splitPath. case_decide; [by subst |]. done. Qed.

Lemma splitPath_loop_parts (path : string) :
  ∀ parts current,
    splitPath_loop path parts current =
    parts ++ splitPath_loop path [] current.
Proof.
  induction path as [| c path IH]; intros parts current; simpl.
  - case_decide; [done | by rewrite app_nil_r].
  - repeat case_decide; try apply IH.
    rewrite (IH (parts ++ [current])), (IH [current]).
    by rewrite <- app_assoc.
Qed.

Lemma splitPath_loop_dot (p q : string) :
  ∀ parts current,
    splitPath_loop (p +:+ "." +:+ q) parts current =
    splitPath_loop q (splitPath_loop p parts current) "".
Proof.
  induction p as [| c p IH]; intros parts current.
  - rewrite append_nil_l. simpl. case_decide; [done | by subst].
  - rewrite append_cons. simpl. repeat case_decide; apply IH.
Qed.

Lemma splitPath_loop_plain (path : string) :
  ∀ parts current,
    Forall (λ k, plain_key k = true) parts →
    has_char "." current = false →
    Forall (λ k, plain_key k = true) (splitPath_loop path parts current).
Proof.
  induction path as [| c path IH]; intros parts current Hparts Hcur; simpl.
  - case_decide; [| done]. apply Forall_app. split; [done |].
    constructor; [| done]. by apply plain_key_spec.
  - repeat case_decide; apply IH; try done.
    + apply Forall_app. split; [done |].
      constructor; [| done]. by apply plain_key_spec.
    + rewrite has_char_append, Hcur. simpl.
      rewrite bool_decide_eq_false_2; done.
Qed.

Lemma splitPath_dot (p q : string) :
  splitPath (p +:+ "." +:+ q) = splitPath p ++ splitPath q.
Proof.
  rewrite !splitPath_unfold, splitPath_loop_dot.
  apply splitPath_loop_parts.
Qed.

Lemma getValueAtPath_unfold (data : value) (path : string) :
  getValueAtPath data path = getValueAtPath_loop data (splitPath path).
Proof. unfold getValueAtPath. case_decide; [by subst |]. done. Qed.

Lemma getValueAtPath_loop_app (ks1 ks2 : list string) :
  ∀ data,
    getValueAtPath_loop data (ks1 ++ ks2) =
    w ← getValueAtPath_loop data ks1; getValueAtPath_loop w ks2.
Proof.
  induction ks1 as [| k ks1 IH]; intros data; [done |].
  simpl. destruct data; try done. destruct (m !! k); [apply IH | done].
Qed.

(** X1: reading along [p.q] is reading along [p] and then along [q]. *)
Theorem getValueAtPath_dot (data : value) (p q : string) :
  getValueAtPath data (p +:+ "." +:+ q) =
  w ← getValueAtPath data p; getValueAtPath w q.
Proof.
  rewrite getValueAtPath_unfold, splitPath_dot, getValueAtPath_loop_app.
  rewrite <- getValueAtPath_unfold.
  destruct (getValueAtPath data p); simpl; try done.
  by rewrite getValueAtPath_unfold.
Qed.

(** *** How getValueAtPath fails *)

Lemma getValueAtPath_loop_failure (keys : list string) :
  ∀ data,
    match getValueAtPath_loop data keys with
    | Ok _ => True
    | Err e =>
        ∃ ks1 key ks2 w,
          keys = ks1 ++ key :: ks2 ∧
          getValueAtPath_loop data ks1 = Ok w ∧
          match w with
          | VMap m => m !! key = None ∧ e = KeyNotFound key
          | _ => e = NotMapAccess key
          end
    | Panic => False
    end.
Proof.
  induction keys as [| k keys IH]; intros data; [done |].
  simpl.
  destruct data as [| | | | | | m];
    try (by exists [], k, keys; eexists; split_and!; [done | done |]).
  destruct (m !! k) as [val |] eqn:Hk.
  - specialize (IH val).
    destruct (getValueAtPath_loop val keys) as [w | e |]; try done.
    destruct IH as (ks1 & key & ks2 & w & -> & Hw & He).
    exists (k :: ks1), key, ks2, w. split_and!; [done | | done].
    simpl. by rewrite Hk.
  - exists [], k, keys, (VMap m). by split_and!.
Qed.

(** X2: [getValueAtPath] never panics, and when it fails the error names
    the first segment that cannot be followed: a key that the mapping
    reached so far lacks, or a key asked of a value that is no mapping. *)
Theorem getValueAtPath_failure (data : value) (path : string) :
  match getValueAtPath data path with
  | Ok _ => True
  | Err e =>
      ∃ ks1 key ks2 w,
        splitPath path = ks1 ++ key :: ks2 ∧
        getValueAtPath_loop data ks1 = Ok w ∧
        match w with
        | VMap m => m !! key = None ∧ e = KeyNotFound key
        | _ => e = NotMapAccess key
        end
  | Panic => False
  end.
Proof. rewrite getValueAtPath_unfold. apply getValueAtPath_loop_failure. Qed.

(** *** What setValueAtPath leaves alone *)

Lemma getValueAtPath_loop_empty (key : string) (keys : list string) :
  getValueAtPath_loop (VMap ∅) (key :: keys) = Err (KeyNotFound key).
Proof. simpl. by rewrite lookup_empty. Qed.

Lemma setValueAtPath_loop_frame (keys : list string) (v : value) :
  ∀ current data' qs w,
    setValueAtPath_loop current keys v = Ok data' →
    ¬ keys `prefix_of` qs → ¬ qs `prefix_of` keys →
    getValueAtPath_loop (VMap data') qs = Ok w ↔
    getValueAtPath_loop (VMap current) qs = Ok w.
Proof.
  induction keys as [| key keys IH]; intros current data' qs w Hset Hkq Hqk;
    [done |].
  destruct qs as [| q qs]; [by destruct Hqk; apply prefix_nil |].
  destruct keys as [| key2 keys].
  - simpl in Hset. injection Hset as <-.
    assert (key ≠ q) by (intros ->; apply Hkq, prefix_cons, prefix_nil).
    simpl. by rewrite lookup_insert_ne.
  - rewrite setValueAtPath_loop_cons in Hset.
    set (rest := key2 :: keys) in *.
    destruct (decide (key = q)) as [-> | Hne].
    + assert (Hkq' : ¬ rest `prefix_of` qs)
        by (intros H; by apply Hkq, prefix_cons).
      assert (Hqk' : ¬ qs `prefix_of` rest)
        by (intros H; by apply Hqk, prefix_cons).
      destruct (current !! q) as [[| | | | | |nextMap] |] eqn:Hk; try done.
      * destruct (setValueAtPath_loop nextMap rest v) as [m'| |] eqn:Hrec;
          try done.
        simpl in Hset. injection Hset as <-.
        simpl. rewrite lookup_insert_eq, Hk. by eapply IH.
      * destruct (setValueAtPath_loop ∅ rest v) as [m'| |] eqn:Hrec; try done.
        simpl in Hset. injection Hset as <-.
        simpl. rewrite lookup_insert_eq, Hk.
        rewrite (IH _ _ _ w Hrec Hkq' Hqk').
        destruct qs as [| q2 qs]; [by destruct Hqk'; apply prefix_nil |].
        by rewrite getValueAtPath_loop_empty.
    + assert (∃ x, data' = <[key := x]> current) as [x ->].
      { destruct (current !! key) as [[| | | | | |nextMap] |]; try done.
        - destruct (setValueAtPath_loop nextMap rest v); try done.
          injection Hset as <-. eauto.
        - destruct (setValueAtPath_loop ∅ rest v); try done.
          injection Hset as <-. eauto. }
      simpl. by rewrite lookup_insert_ne.
Qed.

(** X3: a successful [setValueAtPath] at [path] changes nothing at any
    path [q] whose segments neither extend those of [path] nor are
    extended by them: what [getValueAtPath] returned at [q] it still
    returns, and it returns nothing new there. *)
Theorem setValueAtPath_other_paths (data data' : gmap string value)
    (path q : string) (v w : value) :
  setValueAtPath data path v = Ok data' →
  ¬ splitPath path `prefix_of` splitPath q →
  ¬ splitPath q `prefix_of` splitPath path →
  getValueAtPath (VMap data') q = Ok w ↔ getValueAtPath (VMap data) q = Ok w.
Proof.
  unfold setValueAtPath. case_decide; [done |]. intros Hset Hpq Hqp.
  rewrite !getValueAtPath_unfold. by eapply setValueAtPath_loop_frame.
Qed.

Lemma setValueAtPath_other_paths_witness :
  getValueAtPath
    (VMap (<["a" := VMap (<["b" := VInt KInt 2]> {["c" := VBool true]})]> ∅))
    "a.c" = Ok (VBool true) ↔
  getValueAtPath
    (VMap {["a" := VMap (<["b" := VInt KInt 1]> {["c" := VBool true]})]})
    "a.c" = Ok (VBool true).
Proof.
  apply (setValueAtPath_other_paths
           {["a" := VMap (<["b" := VInt KInt 1]> {["c" := VBool true]})]}
           _ "a.b" "a.c" (VInt KInt 2)).
  - vm_compute. reflexivity.
  - assert (splitPath "a.b" = ["a"; "b"]) as -> by (by vm_compute).
    assert (splitPath "a.c" = ["a"; "c"]) as -> by (by vm_compute).
    intros H. apply prefix_cons_inv_2 in H. by apply prefix_cons_inv_1 in H.
  - assert (splitPath "a.b" = ["a"; "b"]) as -> by (by vm_compute).
    assert (splitPath "a.c" = ["a"; "c"]) as -> by (by vm_compute).
    intros H. apply prefix_cons_inv_2 in H. by apply prefix_cons_inv_1 in H.
Defined.

(** *** Setting twice, setting what is there *)

Lemma setValueAtPath_loop_twice (keys : list string) (v1 v2 : value) :
  ∀ current data1,
    setValueAtPath_loop current keys v1 = Ok data1 →
    setValueAtPath_loop data1 keys v2 = setValueAtPath_loop current keys v2.
Proof.
  induction keys as [| key keys IH]; intros current data1 Hset; [done |].
  destruct keys as [| key2 keys].
  - simpl in *. injection Hset as <-. by rewrite insert_insert_eq.
  - rewrite !setValueAtPath_loop_cons in *.
    set (rest := key2 :: keys) in *.
    destruct (current !! key) as [[| | | | | |nextMap] |] eqn:Hk; try done.
    + destruct (setValueAtPath_loop nextMap rest v1) as [m1| |] eqn:Hrec;
        try done.
      simpl in Hset. injection Hset as <-.
      rewrite lookup_insert_eq, (IH _ _ Hrec).
      destruct (setValueAtPath_loop nextMap rest v2); simpl; try done.
      by rewrite insert_insert_eq.
    + destruct (setValueAtPath_loop ∅ rest v1) as [m1| |] eqn:Hrec; try done.
      simpl in Hset. injection Hset as <-.
      rewrite lookup_insert_eq, (IH _ _ Hrec).
      destruct (setValueAtPath_loop ∅ rest v2); simpl; try done.
      by rewrite insert_insert_eq.
Qed.

Lemma setValueAtPath_loop_same (keys : list string) (v : value) :
  keys ≠ [] →
  ∀ current,
    getValueAtPath_loop (VMap current) keys = Ok v →
    setValueAtPath_loop current keys v = Ok current.
Proof.
  induction keys as [| key keys IH]; intros Hne current Hget; [done |].
  destruct keys as [| key2 keys].
  - simpl in *. destruct (current !! key) eqn:Hk; [| done].
    injection Hget as ->. by rewrite insert_id.
  - rewrite setValueAtPath_loop_cons.
    set (rest := key2 :: keys) in *. simpl in Hget.
    destruct (current !! key) as [val |] eqn:Hk; [| done].
    destruct val as [| | | | | |nextMap]; try done.
    rewrite IH by done. simpl. by rewrite insert_id.
Qed.

(** *** How modifyValueAtPath fails *)

(** X4: where the value at the path is not of the type asked for, or the
    type asked for is [ValueTypeUnknown], [modifyValueAtPath] fails with
    the error of that type, whatever the path. *)
Theorem modifyValueAtPath_mismatch (unrepresentable : spec_float → Z)
    (values : gmap string value) (path : string) (valueType : ValueType)
    (currentValue : value) :
  getValueAtPath (VMap values) path = Ok currentValue →
  determineValueType currentValue ≠ valueType ∨
    valueType = ValueTypeUnknown →
  modifyValueAtPath unrepresentable values path valueType =
  Err (Mutation.expected valueType path).
Proof.
  intros Hget Hty. unfold modifyValueAtPath. rewrite copyMap_empty, Hget.
  destruct valueType, currentValue; simpl; try done;
    by destruct Hty as [Hty | Hty].
Qed.

Lemma modifyValueAtPath_mismatch_witness :
  modifyValueAtPath (λ _, 0%Z) {["replicas" := VString "3"]} "replicas"
    ValueTypeInt = Err (ExpectedNumeric "replicas").
Proof.
  apply (modifyValueAtPath_mismatch (λ _, 0%Z) {["replicas" := VString "3"]}
           "replicas" ValueTypeInt (VString "3")).
  - vm_compute. reflexivity.
  - left. discriminate.
Defined.

Lemma modifyValueAtPath_inv (unrepresentable : spec_float → Z)
    (values modified : gmap string value) (path : string)
    (valueType : ValueType) :
  modifyValueAtPath unrepresentable values path valueType = Ok modified →
  ∃ currentValue,
    getValueAtPath (VMap values) path = Ok currentValue ∧
    determineValueType currentValue = valueType ∧
    currentValue ≠ VNil ∧
    setValueAtPath values path
      (Mutation.perturbed unrepresentable currentValue) = Ok modified.
Proof.
  unfold modifyValueAtPath. rewrite copyMap_empty.
  destruct (getValueAtPath (VMap values) path) as [w | |]; try done.
  intros H. exists w. split; [done |]. revert H.
  destruct valueType, w; simpl; try done; rewrite ?copyMap_empty;
    by destruct (setValueAtPath values path _).
Qed.

(** X5: a successful [modifyValueAtPath] at [path] changes nothing at any
    path [q] whose segments neither extend those of [path] nor are
    extended by them. *)
Theorem modifyValueAtPath_other_paths (unrepresentable : spec_float → Z)
    (values modified : gmap string value) (path q : string)
    (valueType : ValueType) (w : value) :
  modifyValueAtPath unrepresentable values path valueType = Ok modified →
  ¬ splitPath path `prefix_of` splitPath q →
  ¬ splitPath q `prefix_of` splitPath path →
  getValueAtPath (VMap modified) q = Ok w ↔
  getValueAtPath (VMap values) q = Ok w.
Proof.
  intros (old & _ & _ & _ & Hset)%modifyValueAtPath_inv Hpq Hqp.
  revert Hset. unfold setValueAtPath. case_decide; [done |]. intros Hset.
  rewrite !getValueAtPath_unfold. by eapply setValueAtPath_loop_frame.
Qed.

Lemma modifyValueAtPath_other_paths_witness :
  getValueAtPath
    (VMap {["a" := VMap (<["b" := VInt KInt 2]> {["c" := VBool true]})]})
    "a.c" = Ok (VBool true) ↔
  getValueAtPath
    (VMap {["a" := VMap (<["b" := VInt KInt 1]> {["c" := VBool true]})]})
    "a.c" = Ok (VBool true).
Proof.
  apply (modifyValueAtPath_other_paths (λ _, 0%Z)
           {["a" := VMap (<["b" := VInt KInt 1]> {["c" := VBool true]})]}
           _ "a.b" "a.c" ValueTypeInt).
  - vm_compute. reflexivity.
  - assert (splitPath "a.b" = ["a"; "b"]) as -> by (by vm_compute).
    assert (splitPath "a.c" = ["a"; "c"]) as -> by (by vm_compute).
    intros H. apply prefix_cons_inv_2 in H. by apply prefix_cons_inv_1 in H.
  - assert (splitPath "a.b" = ["a"; "b"]) as -> by (by vm_compute).
    assert (splitPath "a.c" = ["a"; "c"]) as -> by (by vm_compute).
    intros H. apply prefix_cons_inv_2 in H. by apply prefix_cons_inv_1 in H.
Defined.

(** *** The differ on a tree and its update *)

Lemma foldr_one {A B} (f : A → B → B) (l : list A) (a : A) :
  NoDup l → a ∈ l →
  (∀ a' b, a' ∈ l → a' ≠ a → f a' b = b) →
  ∀ b, foldr f b l = f a b.
Proof.
  induction l as [| a0 l IH]; intros Hnd Hin Hid b.
  - by apply elem_of_nil in Hin.
  - apply NoDup_cons in Hnd as [Ha0 Hnd]. simpl.
    apply elem_of_cons in Hin as [-> | Hin].
    + f_equal. apply foldr_fixed, Forall_forall. intros a' Ha' b'.
      apply Hid; [by right |]. by intros ->.
    + rewrite Hid; [| by left | by intros ->].
      apply IH; [done | done |]. intros a' b' Ha'. apply Hid. by right.
Qed.

Lemma map_fold_one {A B} (f : string → A → B → B) (m : gmap string A)
    (k : string) (x : A) :
  m !! k = Some x →
  (∀ j y b, m !! j = Some y → j ≠ k → f j y b = b) →
  ∀ b, map_fold f b m = f k x b.
Proof.
  intros Hk Hid b. rewrite map_fold_foldr.
  rewrite (foldr_one _ _ (k, x)); [done | apply NoDup_map_to_list | |].
  - by apply elem_of_map_to_list.
  - intros [j y] b' Hj%elem_of_map_to_list Hne. simpl.
    apply (Hid j y b' Hj). intros ->. congruence.
Qed.

Lemma map_fold_fixed {A B} (f : string → A → B → B) (m : gmap string A) :
  (∀ j y b, m !! j = Some y → f j y b = b) →
  ∀ b, map_fold f b m = b.
Proof.
  intros Hid b. rewrite map_fold_foldr. apply foldr_fixed, Forall_forall.
  intros [j y] Hj%elem_of_map_to_list b'. by apply Hid.
Qed.

(** Two mappings that differ at the one key [k], bound in both: the
    differ goes through at [k] only. *)
Lemma compareMap_with_insert
    (rec : string → value → value → list string → list string)
    (path : string) (m : gmap string value) (k : string) (x x' : value)
    (diffs : list string) :
  m !! k = Some x →
  (∀ j y p d, m !! j = Some y → j ≠ k → rec p y y d = d) →
  compareMap_with rec path m (<[k := x']> m) diffs =
  rec (buildPath path k) x x' diffs.
Proof.
  intros Hk Hsame. unfold compareMap_with.
  rewrite (map_fold_fixed _ (<[k := x']> m)).
  - rewrite (map_fold_one _ m k x Hk).
    + by rewrite lookup_insert_eq.
    + intros j y b Hj Hne. rewrite lookup_insert_ne by done. rewrite Hj.
      by apply (Hsame j).
  - intros j y b Hj. destruct (decide (j = k)) as [-> | Hne].
    + by rewrite Hk.
    + rewrite lookup_insert_ne in Hj by done. by rewrite Hj.
Qed.

Lemma findMapDifferencesWithValues_with_insert
    (rec : string → value → value → gmap string DiffValue →
           gmap string DiffValue)
    (path : string) (m : gmap string value) (k : string) (x x' : value)
    (diffs : gmap string DiffValue) :
  m !! k = Some x →
  (∀ j y p d, m !! j = Some y → j ≠ k → rec p y y d = d) →
  findMapDifferencesWithValues_with rec path m (<[k := x']> m) diffs =
  rec (buildPath path k) x x' diffs.
Proof.
  intros Hk Hsame. unfold findMapDifferencesWithValues_with.
  rewrite (map_fold_fixed _ (<[k := x']> m)).
  - rewrite (map_fold_one _ m k x Hk).
    + by rewrite lookup_insert_eq.
    + intros j y b Hj Hne. rewrite lookup_insert_ne by done. rewrite Hj.
      by apply (Hsame j).
  - intros j y b Hj. destruct (decide (j = k)) as [-> | Hne].
    + by rewrite Hk.
    + rewrite lookup_insert_ne in Hj by done. by rewrite Hj.
Qed.

Lemma nan_free_lookup (m : gmap string value) (k : string) (x : value) :
  nan_free (VMap m) = true → m !! k = Some x → nan_free x = true.
Proof. intros H%nan_free_map Hk. by apply (H k x). Qed.

Lemma nan_free_getValueAtPath_loop (keys : list string) :
  ∀ v w,
    nan_free v = true → getValueAtPath_loop v keys = Ok w →
    nan_free w = true.
Proof.
  induction keys as [| k keys IH]; intros v w Hv Hget.
  - simpl in Hget. by injection Hget as <-.
  - simpl in Hget. destruct v as [| | | | | | m]; try done.
    destruct (m !! k) as [x |] eqn:Hk; [| done].
    eapply IH; [| done]. by eapply nan_free_lookup.
Qed.

Lemma diff_setValueAtPath_loop (keys : list string) (v : value) :
  ∀ t t' old path,
    nan_free (VMap t) = true →
    getValueAtPath_loop (VMap t) keys = Ok old →
    setValueAtPath_loop t keys v = Ok t' →
    (∀ diffs, compareValues path (VMap t) (VMap t') diffs =
              compareValues (foldl buildPath path keys) old v diffs) ∧
    (∀ diffs, findDifferencesWithValues path (VMap t) (VMap t') diffs =
              findDifferencesWithValues (foldl buildPath path keys) old v
                diffs).
Proof.
  induction keys as [| key keys IH]; intros t t' old path Hnan Hget Hset;
    [done |].
  assert (Hsame : ∀ j y, t !! j = Some y → nan_free y = true)
    by (intros j y; by apply nan_free_lookup).
  destruct keys as [| key2 keys].
  - simpl in Hset, Hget. injection Hset as <-.
    destruct (t !! key) as [x |] eqn:Hk; [| done]. injection Hget as ->.
    split; intros diffs.
    + rewrite compareValues_maps. unfold compareMap.
      rewrite (compareMap_with_insert _ _ _ _ old); [done | done |].
      intros j y p d Hj _. apply compareValues_same. by apply (Hsame j).
    + rewrite findDifferencesWithValues_maps.
      unfold findMapDifferencesWithValues.
      rewrite (findMapDifferencesWithValues_with_insert _ _ _ _ old);
        [done | done |].
      intros j y p d Hj _. apply findDifferencesWithValues_same.
      by apply (Hsame j).
  - rewrite setValueAtPath_loop_cons in Hset.
    set (rest := key2 :: keys) in *. simpl in Hget.
    destruct (t !! key) as [x |] eqn:Hk; [| done].
    destruct x as [| | | | | | nextMap]; try done.
    destruct (setValueAtPath_loop nextMap rest v) as [next' | |] eqn:Hrec;
      try done.
    simpl in Hset. injection Hset as <-.
    destruct (IH nextMap next' old (buildPath path key)) as [IH1 IH2];
      [by eapply Hsame | done | done |].
    split; intros diffs.
    + rewrite compareValues_maps. unfold compareMap.
      rewrite (compareMap_with_insert _ _ _ _ (VMap nextMap)); [| done |].
      * apply IH1.
      * intros j y p d Hj _. apply compareValues_same. by apply (Hsame j).
    + rewrite findDifferencesWithValues_maps.
      unfold findMapDifferencesWithValues.
      rewrite (findMapDifferencesWithValues_with_insert _ _ _ _ (VMap nextMap));
        [| done |].
      * apply IH2.
      * intros j y p d Hj _. apply findDifferencesWithValues_same.
        by apply (Hsame j).
Qed.

(** X6: between a tree without NaN and the tree that [setValueAtPath]
    makes of it at a path where [getValueAtPath] finds a value, both
    differs report what they report between the old and the new value,
    under the joined segments of the path. *)
Theorem diff_setValueAtPath (t t' : gmap string value) (path : string)
    (old v : value) :
  nan_free (VMap t) = true →
  getValueAtPath (VMap t) path = Ok old →
  setValueAtPath t path v = Ok t' →
  CompareYAML t t' =
    compareValues (Mutation.joinPath (splitPath path)) old v [] ∧
  FindDifferencesWithValues t t' =
    findDifferencesWithValues (Mutation.joinPath (splitPath path)) old v ∅.
Proof.
  intros Hnan Hget Hset. rewrite getValueAtPath_unfold in Hget.
  revert Hset. unfold setValueAtPath. case_decide; [done |]. intros Hset.
  destruct (diff_setValueAtPath_loop _ _ _ _ _ "" Hnan Hget Hset) as [H1 H2].
  split; [apply H1 | apply H2].
Qed.

Lemma diff_setValueAtPath_witness :
  CompareYAML {["a" := VMap {["b" := VInt KInt 1]}]}
              {["a" := VMap {["b" := VInt KInt 2]}]} =
    compareValues (Mutation.joinPath (splitPath "a.b"))
      (VInt KInt 1) (VInt KInt 2) [] ∧
  FindDifferencesWithValues {["a" := VMap {["b" := VInt KInt 1]}]}
                            {["a" := VMap {["b" := VInt KInt 2]}]} =
    findDifferencesWithValues (Mutation.joinPath (splitPath "a.b"))
      (VInt KInt 1) (VInt KInt 2) ∅.
Proof.
  apply (diff_setValueAtPath {["a" := VMap {["b" := VInt KInt 1]}]}
           {["a" := VMap {["b" := VInt KInt 2]}]} "a.b").
  - vm_compute. reflexivity.
  - vm_compute. reflexivity.
  - vm_compute. reflexivity.
Defined.

(** *** The differ on a tree and its mutation *)

Lemma compareSlice_with_appended (basePath : string) (e : value)
    (xs : list value) :
  Forall (λ x, nan_free x = true) xs →
  ∀ i diffs,
    compareSlice_with compareValues basePath i xs (xs ++ [e]) diffs =
    diffs ++ [buildArrayPath basePath (i + length xs)].
Proof.
  induction 1 as [| x xs Hx _ IH]; intros i diffs; simpl.
  - by rewrite Nat.add_0_r.
  - rewrite compareValues_same by done. rewrite IH.
    by rewrite Nat.add_succ_r.
Qed.

Lemma compareMap_with_added
    (rec : string → value → value → list string → list string)
    (path : string) (m : gmap string value) (k : string) (x' : value)
    (diffs : list string) :
  m !! k = None →
  (∀ j y p d, m !! j = Some y → rec p y y d = d) →
  compareMap_with rec path m (<[k := x']> m) diffs =
  diffs ++ [buildPath path k].
Proof.
  intros Hk Hsame. unfold compareMap_with.
  rewrite (map_fold_fixed _ m).
  - rewrite (map_fold_one _ (<[k := x']> m) k x').
    + by rewrite Hk.
    + apply lookup_insert_eq.
    + intros j y b Hj Hne. rewrite lookup_insert_ne in Hj by done.
      by rewrite Hj.
  - intros j y b Hj.
    assert (j ≠ k) by (intros ->; congruence).
    rewrite lookup_insert_ne by done. rewrite Hj. by apply (Hsame j).
Qed.

Lemma compareValues_perturbed (unrepresentable : spec_float → Z)
    (path : string) (old : value) (diffs : list string) :
  nan_free old = true →
  old ≠ VNil →
  (∀ m, old = VMap m →
        m !! "helmhound-test-key" ≠ Some (VString "helmhound-test-value")) →
  compareValues path old (Mutation.perturbed unrepresentable old) diffs =
  diffs ++ [Mutation.perturbedPath path old].
Proof.
  intros Hnan Hnil Hsentinel.
  destruct old as [| s | k n | k f | b | xs | m]; try done.
  - simpl. rewrite bool_decide_eq_false_2; [done |].
    intros H. apply (f_equal String.length) in H.
    rewrite append_length in H. simpl in H. lia.
  - simpl. rewrite decide_False by (by intros H; apply H).
    rewrite bool_decide_eq_true_2 by done.
    rewrite bool_decide_eq_false_2; [done |].
    intros H. by apply (wrap_succ_ne k n).
  - simpl. rewrite bool_decide_eq_false_2; [done | by destruct b].
  - unfold Mutation.perturbed, Mutation.perturbedPath.
    rewrite compareValues_slices. unfold compareSlice.
    rewrite compareSlice_with_appended; [done |]. by apply nan_free_slice.
  - unfold Mutation.perturbed, Mutation.perturbedPath.
    rewrite compareValues_maps. unfold compareMap.
    assert (Hsame : ∀ j y, m !! j = Some y → nan_free y = true)
      by (intros j y; by apply nan_free_lookup).
    destruct (m !! "helmhound-test-key") as [other |] eqn:Hk.
    + rewrite (compareMap_with_insert _ _ _ _ other); [| done |].
      * specialize (Hsentinel m eq_refl).
        destruct other as [| s | | | | |]; try done.
        simpl. rewrite bool_decide_eq_false_2; [done |]. congruence.
      * intros j y p d Hj _. apply compareValues_same. by apply (Hsame j).
    + apply compareMap_with_added; [done |].
      intros j y p d Hj. apply compareValues_same. by apply (Hsame j).
Qed.

(** X7: between a tree without NaN and the tree [modifyValueAtPath]
    returns for it, [CompareYAML] reports exactly one path: the joined
    segments of the path for a string, a number or a boolean, the index
    of the new element below it for a sequence, and the sentinel key
    below it for a mapping (that does not bind the sentinel key to the
    sentinel value already). *)
Theorem CompareYAML_modifyValueAtPath (unrepresentable : spec_float → Z)
    (values modified : gmap string value) (path : string)
    (valueType : ValueType) (currentValue : value) :
  nan_free (VMap values) = true →
  getValueAtPath (VMap values) path = Ok currentValue →
  (∀ m, currentValue = VMap m →
        m !! "helmhound-test-key" ≠ Some (VString "helmhound-test-value")) →
  modifyValueAtPath unrepresentable values path valueType = Ok modified →
  CompareYAML values modified =
  [Mutation.perturbedPath (Mutation.joinPath (splitPath path)) currentValue].
Proof.
  intros Hnan Hget Hsentinel
    (old & Hget' & Hty & Hnil & Hset)%modifyValueAtPath_inv.
  assert (old = currentValue) as -> by congruence.
  rewrite getValueAtPath_unfold in Hget.
  revert Hset. unfold setValueAtPath. case_decide; [done |]. intros Hset.
  destruct (diff_setValueAtPath_loop _ _ _ _ _ "" Hnan Hget Hset) as [H1 _].
  unfold CompareYAML. rewrite H1.
  rewrite (compareValues_perturbed unrepresentable); [done | | done | done].
  by eapply nan_free_getValueAtPath_loop.
Qed.

Lemma CompareYAML_modifyValueAtPath_witness :
  CompareYAML
    {["server" := VMap {["ports" := VSlice [VInt KInt 80; VInt KInt 443]]}]}
    {["server" :=
        VMap {["ports" := VSlice [VInt KInt 80; VInt KInt 443;
                                  VString "helmhound-test-element"]]}]} =
  [Mutation.perturbedPath (Mutation.joinPath (splitPath "server.ports"))
     (VSlice [VInt KInt 80; VInt KInt 443])].
Proof.
  apply (CompareYAML_modifyValueAtPath (λ _, 0%Z)
           {["server" :=
               VMap {["ports" := VSlice [VInt KInt 80; VInt KInt 443]]}]}
           _ "server.ports" ValueTypeSlice).
  - vm_compute. reflexivity.
  - vm_compute. reflexivity.
  - discriminate.
  - vm_compute. reflexivity.
Defined.

(** *** The paths-only differ only appends *)

Lemma foldr_appends {A} (f : A → list string → list string) (l : list A) :
  Forall (λ a, ∀ d, f a d = d ++ f a []) l →
  ∀ d, foldr f d l = d ++ foldr f [] l.
Proof.
  induction 1 as [| a l Ha _ IH]; intros d; simpl.
  - by rewrite app_nil_r.
  - rewrite Ha, IH, (Ha (foldr f [] l)). by rewrite app_assoc.
Qed.

Lemma compareSlice_rest_appends (basePath : string) (right : list value) :
  ∀ i diffs,
    compareSlice_rest basePath i right diffs =
    diffs ++ compareSlice_rest basePath i right [].
Proof.
  induction right as [| r right IH]; intros i diffs; simpl.
  - by rewrite app_nil_r.
  - rewrite IH, (IH _ [_]). by rewrite app_assoc.
Qed.

Lemma compareValues_appends (left : value) :
  ∀ right path diffs,
    compareValues path left right diffs =
    diffs ++ compareValues path left right [].
Proof.
  induction left as [| s | k n | k f | b | xs IH | m IH] using value_ind';
    intros right path diffs;
    destruct right as [| s' | k' n' | k' f' | b' | xs' | m']; simpl;
    rewrite ?app_nil_r; try done;
    try (case_decide; [done |]);
    try (by destruct (negb _); rewrite ?app_nil_r).
  - (* two sequences *)
    generalize 0%nat as i. revert xs' diffs.
    induction xs as [| x xs IHxs]; intros xs' diffs i.
    + simpl. apply compareSlice_rest_appends.
    + apply Forall_cons in IH as [IHx IH].
      destruct xs' as [| x' xs']; simpl.
      * rewrite IHxs, (IHxs IH _ [_]) by done. by rewrite app_assoc.
      * rewrite IHxs, IHx, (IHxs IH _ (compareValues _ _ _ [])) by done.
        by rewrite app_assoc.
  - (* two mappings *)
    unfold compareMap_with. rewrite !map_fold_foldr.
    apply map_Forall_to_list in IH.
    rewrite (foldr_appends _ (map_to_list m')).
    2:{ apply Forall_forall. intros [k x] _ d. simpl.
        destruct (m !! k); [by rewrite app_nil_r | done]. }
    rewrite (foldr_appends _ (map_to_list m)).
    2:{ eapply Forall_impl; [exact IH |]. intros [k x] Hx d. simpl in *.
        destruct (m' !! k); [apply Hx | done]. }
    rewrite <- app_assoc. f_equal.
    symmetry. apply foldr_appends.
    apply Forall_forall. intros [k x] _ d. simpl.
    destruct (m !! k); [by rewrite app_nil_r | done].
Qed.

(** *** Which paths the paths-only differ reports *)

Lemma elem_of_foldr_appends {A} (f : A → list string → list string)
    (l : list A) (p : string) :
  (∀ a d, f a d = d ++ f a []) →
  ∀ d, p ∈ foldr f d l ↔ p ∈ d ∨ ∃ a, a ∈ l ∧ p ∈ f a [].
Proof.
  intros Hf d. induction l as [| a l IH]; simpl.
  - split; [by left |]. intros [H | (a & Ha & _)]; [done |].
    by apply elem_of_nil in Ha.
  - rewrite Hf, elem_of_app, IH. split.
    + intros [[H | (a' & Ha' & H)] | H]; [by left | |].
      * right. exists a'. split; [by right | done].
      * right. exists a. split; [by left | done].
    + intros [H | (a' & Ha' & H)]; [by left; left |].
      apply elem_of_cons in Ha' as [-> | Ha']; [by right |].
      left; right. by exists a'.
Qed.

Lemma elem_of_compareMap (path : string) (m m' : gmap string value)
    (diffs : list string) (p : string) :
  p ∈ compareMap path m m' diffs ↔
  p ∈ diffs ∨
  (∃ k x y, m !! k = Some x ∧ m' !! k = Some y ∧
            p ∈ compareValues (buildPath path k) x y []) ∨
  (∃ k, (is_Some (m !! k) ∧ m' !! k = None ∨
         m !! k = None ∧ is_Some (m' !! k)) ∧
        p = buildPath path k).
Proof.
  unfold compareMap, compareMap_with. rewrite !map_fold_foldr.
  rewrite elem_of_foldr_appends.
  2:{ intros [k y] d. simpl. destruct (m !! k); [by rewrite app_nil_r | done]. }
  rewrite elem_of_foldr_appends.
  2:{ intros [k x] d. simpl.
      destruct (m' !! k); [apply compareValues_appends | done]. }
  split.
  - intros [[H | ([k x] & Hk%elem_of_map_to_list & H)]
           | ([k y] & Hk%elem_of_map_to_list & H)]; [by left | |].
    + simpl in H. destruct (m' !! k) as [y |] eqn:Hk'.
      * right; left. by exists k, x, y.
      * apply list_elem_of_singleton in H as ->. right; right.
        exists k. split; [| done]. left. by rewrite Hk.
    + simpl in H. destruct (m !! k) as [x |] eqn:Hk'.
      * by apply elem_of_nil in H.
      * apply list_elem_of_singleton in H as ->. right; right.
        exists k. split; [| done]. right. by rewrite Hk.
  - intros [H | [(k & x & y & Hk & Hk' & H) | (k & Hk & ->)]];
      [by left; left | |].
    + left; right. exists (k, x). split; [by apply elem_of_map_to_list |].
      simpl. by rewrite Hk'.
    + destruct Hk as [[[x Hk] Hk'] | [Hk [y Hk']]].
      * left; right. exists (k, x). split; [by apply elem_of_map_to_list |].
        simpl. rewrite Hk'. by apply list_elem_of_singleton.
      * right. exists (k, y). split; [by apply elem_of_map_to_list |].
        simpl. rewrite Hk. by apply list_elem_of_singleton.
Qed.

Lemma elem_of_foldl_appends {A} (g : A → list string) (l : list A)
    (p : string) :
  ∀ d, p ∈ foldl (λ d a, d ++ g a) d l ↔ p ∈ d ∨ ∃ a, a ∈ l ∧ p ∈ g a.
Proof.
  induction l as [| a l IH]; intros d; simpl.
  - split; [by left |]. intros [H | (a & Ha & _)]; [done |].
    by apply elem_of_nil in Ha.
  - rewrite IH, elem_of_app. split.
    + intros [[H | H] | (a' & Ha' & H)]; [by left | |].
      * right. exists a. split; [by left | done].
      * right. exists a'. split; [by right | done].
    + intros [H | (a' & Ha' & H)]; [by left; left |].
      apply elem_of_cons in Ha' as [-> | Ha']; [by left; right |].
      right. by exists a'.
Qed.

Lemma elem_of_compareSlice (path : string) (xs xs' : list value)
    (diffs : list string) (p : string) :
  p ∈ compareSlice path xs xs' diffs ↔
  p ∈ diffs ∨
  ∃ j, j < length xs `max` length xs' ∧
       match xs !! j, xs' !! j with
       | Some x, Some y => p ∈ compareValues (buildArrayPath path j) x y []
       | _, _ => p = buildArrayPath path j
       end.
Proof.
  unfold compareSlice. rewrite compareSlice_with_indexed.
  rewrite (foldl_ext _
    (λ d j, d ++ match xs !! j, xs' !! j with
                 | Some x, Some y =>
                     compareValues (buildArrayPath path j) x y []
                 | _, _ => [buildArrayPath path j]
                 end)).
  2:{ intros d j. simpl.
      destruct (xs !! j), (xs' !! j); try done. apply compareValues_appends. }
  rewrite elem_of_foldl_appends. apply or_iff_compat_l.
  split; intros (j & Hj & H); exists j.
  - apply elem_of_seq in Hj. split; [lia |].
    destruct (xs !! j), (xs' !! j); try done;
      by apply list_elem_of_singleton in H.
  - split; [apply elem_of_seq; lia |].
    destruct (xs !! j), (xs' !! j); try done;
      by apply list_elem_of_singleton.
Qed.

(** *** The differ does not depend on the side *)

Lemma SFeqb_spec (a b : spec_float) :
  SFeqb a b = true ↔
  is_nan a = false ∧
  (a = b ∨ ∃ s s', a = S754_zero s ∧ b = S754_zero s').
Proof.
  unfold SFeqb. split.
  - destruct a as [s | s | | s m e], b as [s' | s' | | s' m' e']; simpl;
      try done; try (by destruct s); try (by destruct s').
    + intros _. split; [done |]. right. eauto.
    + destruct s, s'; try done; auto.
    + destruct s, s'; try done;
        destruct (Z.compare_spec e e') as [-> | |]; try done;
        rewrite Pos.compare_cont_spec; simpl;
        destruct (Pos.compare_spec m m') as [-> | |]; try done; auto.
  - intros [Hnan [<- | (s & s' & -> & ->)]]; [| done].
    destruct a as [s | s | | s m e]; simpl; try done.
    + by destruct s.
    + rewrite Z.compare_refl, Pos.compare_cont_refl. by destruct s.
Qed.

Lemma SFeqb_sym (a b : spec_float) : SFeqb a b = SFeqb b a.
Proof.
  apply eq_true_iff_eq. rewrite !SFeqb_spec. split.
  - intros [Hnan [<- | (s & s' & -> & ->)]]; [by auto |].
    split; [done |]. right. eauto.
  - intros [Hnan [<- | (s & s' & -> & ->)]]; [by auto |].
    split; [done |]. right. eauto.
Qed.

Lemma DeepEqual_sym (x y : value) : DeepEqual x y = DeepEqual y x.
Proof.
  destruct x, y; simpl; try done.
  - apply bool_decide_ext. naive_solver.
  - f_equal; apply bool_decide_ext; naive_solver.
  - rewrite SFeqb_sym. f_equal. apply bool_decide_ext. naive_solver.
  - apply bool_decide_ext. naive_solver.
Qed.

Lemma compareValues_scalars (path : string) (left right : value)
    (diffs : list string) :
  TypeOf left ≠ TMap → TypeOf left ≠ TSlice →
  compareValues path left right diffs =
  if is_nil left && is_nil right then diffs
  else if is_nil left || is_nil right then diffs ++ [path]
  else if decide (TypeOf left ≠ TypeOf right) then diffs ++ [path]
  else if negb (DeepEqual left right) then diffs ++ [path] else diffs.
Proof. intros Hm Hs. by destruct left, right. Qed.

Lemma compareValues_sym (left : value) :
  ∀ right path p,
    p ∈ compareValues path left right [] ↔
    p ∈ compareValues path right left [].
Proof.
  induction left as [| s | k n | k f | b | xs IH | m IH] using value_ind';
    intros right path p.
  1-5: destruct right;
    rewrite !compareValues_scalars by done;
    try match goal with
        | |- context [DeepEqual ?a ?b] => rewrite (DeepEqual_sym a b)
        end;
    simpl; try done; repeat case_decide; try done; congruence.
  - (* a sequence *)
    destruct right as [| | | | | xs' |]; try done.
    rewrite !compareValues_slices, !elem_of_compareSlice.
    apply or_iff_compat_l. rewrite (Nat.max_comm (length xs')).
    split; intros (j & Hj & H); exists j; (split; [done |]).
    + destruct (xs !! j) as [x |] eqn:Hx, (xs' !! j) as [y |]; try done.
      apply list_elem_of_lookup_2 in Hx.
      rewrite Forall_forall in IH. by apply (IH x Hx).
    + destruct (xs !! j) as [x |] eqn:Hx, (xs' !! j) as [y |]; try done.
      apply list_elem_of_lookup_2 in Hx.
      rewrite Forall_forall in IH. by apply (IH x Hx).
  - (* a mapping *)
    destruct right as [| | | | | | m']; try done.
    rewrite !compareValues_maps, !elem_of_compareMap.
    apply or_iff_compat_l. split.
    + intros [(k & x & y & Hk & Hk' & H) | (k & Hk & ->)].
      * left. exists k, y, x. split_and!; [done | done |].
        by apply (IH k x Hk).
      * right. exists k. split; [tauto | done].
    + intros [(k & y & x & Hk' & Hk & H) | (k & Hk & ->)].
      * left. exists k, x, y. split_and!; [done | done |].
        by apply (IH k x Hk).
      * right. exists k. split; [tauto | done].
Qed.

(** X8: [CompareYAML] reports the same paths whichever tree is on the
    left. *)
Theorem CompareYAML_sides (left right : gmap string value) :
  list_to_set (CompareYAML left right) =@{gset string}
  list_to_set (CompareYAML right left).
Proof.
  apply set_eq. intros p. rewrite !elem_of_list_to_set.
  apply compareValues_sym.
Qed.

(** *** No difference reported *)

Lemma SFeqb_unsigned (a b : spec_float) :
  SFeqb a b = true → Differ.unsigned_float a = Differ.unsigned_float b.
Proof.
  intros [_ [<- | (s & s' & -> & ->)]]%SFeqb_spec; done.
Qed.

Lemma compareValues_none (left : value) :
  ∀ right path,
    compareValues path left right [] = [] →
    Differ.unsigned left = Differ.unsigned right.
Proof.
  induction left as [| s | k n | k f | b | xs IH | m IH] using value_ind';
    intros right path.
  1-5: rewrite compareValues_scalars by done; destruct right; simpl;
    try done; repeat case_decide; try done;
    destruct (negb _) eqn:Hd; try done; intros _;
    apply negb_false_iff in Hd.
  - by apply bool_decide_eq_true in Hd as ->.
  - apply andb_true_iff in Hd as [Hk Hn].
    apply bool_decide_eq_true in Hk as ->.
    by apply bool_decide_eq_true in Hn as ->.
  - apply andb_true_iff in Hd as [Hk Hf].
    apply bool_decide_eq_true in Hk as ->.
    by rewrite (SFeqb_unsigned _ _ Hf).
  - by apply bool_decide_eq_true in Hd as ->.
  - (* a sequence *)
    destruct right as [| | | | | xs' |]; try done.
    rewrite compareValues_slices. intros Hnone. simpl. f_equal.
    assert (Hno : ∀ p, ¬ p ∈ compareSlice path xs xs' [])
      by (intros p; rewrite Hnone; apply not_elem_of_nil).
    assert (Hj : ∀ j, j < length xs `max` length xs' →
                 ∃ x y, xs !! j = Some x ∧ xs' !! j = Some y ∧
                        compareValues (buildArrayPath path j) x y [] = []).
    { intros j Hj.
      destruct (xs !! j) as [x |] eqn:Hx, (xs' !! j) as [y |] eqn:Hy.
      - exists x, y. split_and!; [done | done |].
        apply elem_of_nil_inv. intros p Hp. apply (Hno p).
        apply elem_of_compareSlice. right. exists j. by rewrite Hx, ?Hy.
      - destruct (Hno (buildArrayPath path j)).
        apply elem_of_compareSlice. right. exists j. by rewrite Hx, ?Hy.
      - destruct (Hno (buildArrayPath path j)).
        apply elem_of_compareSlice. right. exists j. by rewrite Hx, ?Hy.
      - destruct (Hno (buildArrayPath path j)).
        apply elem_of_compareSlice. right. exists j. by rewrite Hx, ?Hy. }
    apply list_eq. intros j. rewrite !list_lookup_fmap.
    destruct (decide (j < length xs `max` length xs')) as [Hlt | Hge].
    + destruct (Hj j Hlt) as (x & y & Hx & Hy & Hxy).
      rewrite Hx, Hy. simpl. f_equal.
      rewrite Forall_forall in IH.
      eapply IH; [by eapply list_elem_of_lookup_2 | done].
    + rewrite !lookup_ge_None_2; [done | lia | lia].
  - (* a mapping *)
    destruct right as [| | | | | | m']; try done.
    rewrite compareValues_maps. intros Hnone. simpl. f_equal.
    assert (Hno : ∀ p, ¬ p ∈ compareMap path m m' [])
      by (intros p; rewrite Hnone; apply not_elem_of_nil).
    apply map_eq. intros k. rewrite !lookup_fmap.
    destruct (m !! k) as [x |] eqn:Hx, (m' !! k) as [y |] eqn:Hy; simpl;
      try done.
    + f_equal. eapply (IH k x Hx).
      apply elem_of_nil_inv. intros p Hp. apply (Hno p).
      apply elem_of_compareMap. right; left. by exists k, x, y.
    + destruct (Hno (buildPath path k)).
      apply elem_of_compareMap. right; right. exists k.
      split; [| done]. left. by rewrite Hx.
    + destruct (Hno (buildPath path k)).
      apply elem_of_compareMap. right; right. exists k.
      split; [| done]. right. by rewrite Hy.
Qed.

(** X9: two trees between which [CompareYAML] reports no path are equal,
    up to the sign of float zeros. *)
Theorem CompareYAML_none (left right : gmap string value) :
  CompareYAML left right = [] →
  Differ.unsigned (VMap left) = Differ.unsigned (VMap right).
Proof. apply compareValues_none. Qed.

Lemma CompareYAML_none_witness :
  Differ.unsigned
    (VMap {["ratio" := VFloat KFloat64 (S754_zero false)]}) =
  Differ.unsigned
    (VMap {["ratio" := VFloat KFloat64 (S754_zero true)]}).
Proof.
  apply (CompareYAML_none
           {["ratio" := VFloat KFloat64 (S754_zero false)]}
           {["ratio" := VFloat KFloat64 (S754_zero true)]}).
  vm_compute. reflexivity.
Defined.

(** *** The records agree with their values *)

Lemma consistent_findDifferencesWithValues (left : value) :
  ∀ right path diffs,
    map_Forall (λ _, Differ.consistent) diffs →
    map_Forall (λ _, Differ.consistent)
               (findDifferencesWithValues path left right diffs).
Proof.
  induction left as [| s | k n | k f | b | xs IH | m IH] using value_ind';
    intros right path diffs Hd;
    destruct right as [| s' | k' n' | k' f' | b' | xs' | m']; simpl;
    try done;
    try (by apply map_Forall_insert_2);
    try (case_decide; [by apply map_Forall_insert_2 |]);
    try (by destruct (negb _); [apply map_Forall_insert_2 |]).
  - (* two sequences *)
    revert xs' diffs Hd. generalize 0%nat as i.
    induction xs as [| x xs IHxs]; intros i xs' diffs Hd.
    + simpl. revert i diffs Hd.
      induction xs' as [| x' xs' IHxs']; intros i diffs Hd; [done |].
      simpl. apply IHxs'. by apply map_Forall_insert_2.
    + apply Forall_cons in IH as [IHx IH].
      destruct xs' as [| x' xs']; simpl.
      * apply IHxs; [done |]. by apply map_Forall_insert_2.
      * apply IHxs; [done |]. by apply IHx.
  - (* two mappings *)
    unfold findMapDifferencesWithValues_with. rewrite !map_fold_foldr.
    apply map_Forall_to_list in IH.
    assert (Hfirst : map_Forall (λ _, Differ.consistent)
      (foldr (uncurry (λ key leftValue diffs,
           match m' !! key with
           | Some rightValue =>
               findDifferencesWithValues (buildPath path key)
                 leftValue rightValue diffs
           | None =>
               <[buildPath path key :=
                   {| Left := leftValue; Right := VNil;
                      Type_ := DiffTypeRemoved |}]> diffs
           end)) diffs (map_to_list m))).
    { induction (map_to_list m) as [| [k x] l IHl]; [done |].
      apply Forall_cons in IH as [IHx IH]. simpl.
      destruct (m' !! k); [by apply IHx, IHl |].
      by apply map_Forall_insert_2; [| apply IHl]. }
    revert Hfirst. generalize
      (foldr (uncurry (λ key leftValue diffs,
           match m' !! key with
           | Some rightValue =>
               findDifferencesWithValues (buildPath path key)
                 leftValue rightValue diffs
           | None =>
               <[buildPath path key :=
                   {| Left := leftValue; Right := VNil;
                      Type_ := DiffTypeRemoved |}]> diffs
           end)) diffs (map_to_list m)).
    intros d1 H1.
    induction (map_to_list m') as [| [k x] l IHl]; [done |].
    simpl. destruct (m !! k); [done | by apply map_Forall_insert_2].
Qed.

(** X10: every record of [FindDifferencesWithValues] agrees with its
    values: an addition has nothing on the left, a removal nothing on
    the right, and a modification a value on both sides. *)
Theorem FindDifferencesWithValues_consistent (left right : gmap string value)
    (path : string) (d : DiffValue) :
  FindDifferencesWithValues left right !! path = Some d →
  Differ.consistent d.
Proof.
  intros Hd.
  by apply (consistent_findDifferencesWithValues (VMap left) (VMap right) ""
              ∅ (map_Forall_empty _) path d).
Qed.

Lemma FindDifferencesWithValues_consistent_witness :
  Differ.consistent
    {| Left := VNil; Right := VString "new"; Type_ := DiffTypeAdded |}.
Proof.
  apply (FindDifferencesWithValues_consistent
           {["a" := VInt KInt 1]}
           (<["a" := VInt KInt 1]> {["b" := VString "new"]}) "b").
  vm_compute. reflexivity.
Defined.

(** *** Which paths extractPaths lists *)



(** X11: [ExtractValuePaths] lists one path for each location below the
    root that is reached through entries of mappings and elements of
    sequences: the paths are those of a list of walks that has every
    such location once. *)
Theorem ExtractValuePaths_locations (data : gmap string value) :
  ∃ walks : list (list step),
    NoDup walks ∧
    (∀ steps, steps ∈ walks ↔
              steps ≠ [] ∧ is_Some (locate (VMap data) steps)) ∧
    ExtractValuePaths data = extractedPath <$> walks.
Proof.
  destruct (extractPaths_walks (VMap data)) as (walks & Hnd & Hin & Heq).
  exists walks. split_and!; [done | done |]. apply (Heq "" []).
Qed.

Lemma extractPaths_keeps (v : value) :
  ∀ prefix paths p, p ∈ paths → p ∈ extractPaths prefix v paths.
Proof.
  induction v as [| s | k n | k f | b | xs IH | m IH] using value_ind';
    intros prefix paths p Hp; try done.
  - rewrite extractPaths_slice_eq. revert Hp.
    generalize 0%nat as i. revert paths.
    induction xs as [| x xs IHxs]; intros paths i Hp; [done |].
    apply Forall_cons in IH as [IHx IH].
    apply IHxs; [done |]. apply IHx. apply elem_of_app. by left.
  - rewrite extractPaths_map_eq, map_fold_foldr.
    apply map_Forall_to_list in IH.
    induction (map_to_list m) as [| [k x] l IHl]; [done |].
    apply Forall_cons in IH as [IHx IH]. simpl in *.
    apply IHx. apply elem_of_app. left. by apply IHl.
Qed.

Lemma joinKey_buildPath (prefix key : string) :
  joinKey prefix key = buildPath prefix key.
Proof. unfold joinKey, buildPath. by repeat case_decide. Qed.

Lemma extractPaths_reaches (keys : list string) :
  keys ≠ [] →
  ∀ v prefix paths w,
    getValueAtPath_loop v keys = Ok w →
    foldl buildPath prefix keys ∈ extractPaths prefix v paths.
Proof.
  induction keys as [| key keys IH]; intros Hne v prefix paths w Hget;
    [done |].
  simpl in Hget. destruct v as [| | | | | | m]; try done.
  destruct (m !! key) as [x |] eqn:Hk; [| done].
  rewrite extractPaths_map_eq, map_fold_foldr.
  apply elem_of_map_to_list in Hk.
  induction (map_to_list m) as [| [k' x'] l IHl];
    [by apply elem_of_nil in Hk |].
  simpl. apply elem_of_cons in Hk as [[= <- <-] | Hk].
  - rewrite joinKey_buildPath.
    destruct keys as [| key2 keys].
    + simpl. apply extractPaths_keeps, elem_of_app. right.
      by apply list_elem_of_singleton.
    + by eapply IH.
  - by apply extractPaths_keeps, elem_of_app; left; apply IHl.
Qed.

(** X12: every location that [getValueAtPath] reads through mappings is
    listed by [ExtractValuePaths], under the joined segments of its
    path. *)
Theorem gettable_paths_extracted (data : gmap string value) (path : string)
    (w : value) :
  splitPath path ≠ [] →
  getValueAtPath (VMap data) path = Ok w →
  Mutation.joinPath (splitPath path) ∈ ExtractValuePaths data.
Proof.
  intros Hne. rewrite getValueAtPath_unfold. intros Hget.
  by eapply extractPaths_reaches.
Qed.

Lemma gettable_paths_extracted_witness :
  Mutation.joinPath (splitPath "server.port") ∈
  ExtractValuePaths {["server" := VMap {["port" := VInt KInt 8080]}]}.
Proof.
  apply (gettable_paths_extracted
           {["server" := VMap {["port" := VInt KInt 8080]}]} "server.port"
           (VInt KInt 8080)).
  - vm_compute. discriminate.
  - vm_compute. reflexivity.
Defined.

(** *** FilterValuesByPrefix *)

Lemma HasPrefix_nil (s : string) : Strings.HasPrefix s "" = true.
Proof. by destruct s. Qed.

Lemma HasPrefix_spec (s prefix : string) :
  Strings.HasPrefix s prefix = true ↔ ∃ rest, s = prefix +:+ rest.
Proof.
  revert s. induction prefix as [| c prefix IH]; intros s.
  - rewrite HasPrefix_nil. split; [| done]. intros _. exists s. reflexivity.
  - destruct s as [| d s]; simpl.
    + split; [done |]. by intros [rest ?].
    + rewrite andb_true_iff, bool_decide_eq_true, IH. split.
      * intros [-> [rest ->]]. exists rest. reflexivity.
      * intros [rest [= -> ->]]. split; [done |]. exists rest. reflexivity.
Qed.

Lemma HasPrefix_trans (s q p : string) :
  Strings.HasPrefix s q = true → Strings.HasPrefix q p = true →
  Strings.HasPrefix s p = true.
Proof.
  rewrite !HasPrefix_spec. intros [r1 ->] [r2 ->].
  exists (r2 +:+ r1). by rewrite append_assoc.
Qed.

Lemma foldl_filter {A} (P : A → bool) (l : list A) :
  ∀ acc,
    foldl (λ acc a, if P a then acc ++ [a] else acc) acc l =
    acc ++ filter (λ a, P a = true) l.
Proof.
  induction l as [| a l IH]; intros acc; simpl.
  - by rewrite app_nil_r.
  - rewrite IH. destruct (P a) eqn:Ha.
    + rewrite filter_cons_True by done. by rewrite <- app_assoc.
    + rewrite filter_cons_False by congruence. done.
Qed.

Lemma filter_all {A} (P : A → Prop) `{!∀ a, Decision (P a)} (l : list A) :
  Forall P l → filter P l = l.
Proof.
  induction 1 as [| a l Ha _ IH]; [done |].
  by rewrite filter_cons_True, IH.
Qed.

Lemma FilterValuesByPrefix_as_filter (values : list string) (prefix : string) :
  Values.FilterValuesByPrefix values prefix =
  filter (λ value, Strings.HasPrefix value prefix = true) values.
Proof.
  unfold Values.FilterValuesByPrefix. case_decide as Hp.
  - subst. symmetry. apply filter_all.
    apply Forall_forall. intros s _. apply HasPrefix_nil.
  - by rewrite foldl_filter.
Qed.

(** X13: [FilterValuesByPrefix] returns the values that start with the
    prefix, all of them and in their order; with the empty prefix these
    are all the values. *)
Theorem FilterValuesByPrefix_filter (values : list string) (prefix : string) :
  Values.FilterValuesByPrefix values prefix =
  filter (λ value, Strings.HasPrefix value prefix = true) values.
Proof. apply FilterValuesByPrefix_as_filter. Qed.

Lemma HasPrefix_joinKey (prefix key : string) :
  Strings.HasPrefix (joinKey prefix key) prefix = true.
Proof.
  unfold joinKey. case_decide as Hp.
  - apply HasPrefix_spec. by eexists.
  - subst. apply HasPrefix_nil.
Qed.

Lemma extractPaths_under (v : value) :
  ∀ prefix paths p,
    p ∈ extractPaths prefix v paths →
    p ∈ paths ∨ Strings.HasPrefix p prefix = true.
Proof.
  induction v as [| s | k n | k f | b | xs IH | m IH] using value_ind';
    intros prefix paths p Hp; try (by left).
  - rewrite extractPaths_slice_eq in Hp. revert Hp.
    generalize 0%nat as i. revert paths.
    induction xs as [| x xs IHxs]; intros paths i Hp; [by left |].
    apply Forall_cons in IH as [IHx IH].
    destruct (IHxs IH _ _ Hp) as [Hp' | Hp']; [| by right].
    assert (Hidx : Strings.HasPrefix
              (prefix +:+ "[" +:+ rune_string (rune_of_index i) +:+ "]")
              prefix = true) by (apply HasPrefix_spec; by eexists).
    destruct (IHx _ _ _ Hp') as [Hp'' | Hp''].
    + apply elem_of_app in Hp'' as [Hp'' | Hp'']; [by left |].
      apply list_elem_of_singleton in Hp'' as ->. by right.
    + right. by eapply HasPrefix_trans.
  - rewrite extractPaths_map_eq, map_fold_foldr in Hp.
    apply map_Forall_to_list in IH.
    induction (map_to_list m) as [| [k x] l IHl]; [by left |].
    apply Forall_cons in IH as [IHx IH]. simpl in *.
    destruct (IHx _ _ _ Hp) as [Hp' | Hp'].
    + apply elem_of_app in Hp' as [Hp' | Hp']; [by apply IHl |].
      apply list_elem_of_singleton in Hp' as ->. right.
      apply HasPrefix_joinKey.
    + right. eapply HasPrefix_trans; [done |]. apply HasPrefix_joinKey.
Qed.

(** Every path that [extractPaths] lists below a location starts with
    the path of that location, so that [FilterValuesByPrefix] by this
    path keeps all of them. *)
Theorem FilterValuesByPrefix_extractPaths (prefix : string) (data : value) :
  Values.FilterValuesByPrefix (extractPaths prefix data []) prefix =
  extractPaths prefix data [].
Proof.
  rewrite FilterValuesByPrefix_as_filter. apply filter_all.
  apply Forall_forall. intros p Hp.
  destruct (extractPaths_under _ _ _ _ Hp) as [Hnil | H]; [| done].
  by apply elem_of_nil in Hnil.
Qed.

(** *** extractManifestKey *)

Lemma substring_prefix (pre rest : string) :
  String.substring 0 (String.length pre) (pre +:+ rest) = pre.
Proof.
  induction pre as [| c pre IH].
  - rewrite append_nil_l. by destruct rest.
  - rewrite append_cons. simpl. by rewrite IH.
Qed.

Lemma append_snoc (pre : string) (c : ascii) (rest : string) :
  (pre +:+ String c "") +:+ rest = pre +:+ String c rest.
Proof. by rewrite append_assoc, append_cons, append_nil_l. Qed.

Lemma extractManifestKey_loop_spec (rest : string) :
  ∀ pre,
    ∃ key tail,
      Yamldiff.extractManifestKey_loop (pre +:+ rest) (String.length pre) rest
        = pre +:+ key ∧
      has_char "." key = false ∧
      rest = key +:+ tail ∧
      (tail = "" ∨ ∃ t, tail = "." +:+ t).
Proof.
  induction rest as [| c rest IH]; intros pre.
  - exists "", "". simpl. split_and!; try done. by left.
  - simpl. case_decide as Hc.
    + subst c. exists "", (String "." rest).
      rewrite substring_prefix, append_nil_r.
      split_and!; try done. right. by exists rest.
    + specialize (IH (pre +:+ String c "")).
      rewrite append_snoc, append_length in IH. simpl in IH.
      rewrite Nat.add_1_r in IH.
      destruct IH as (key & tail & Hloop & Hkey & -> & Htail).
      exists (String c key), tail. rewrite Hloop, append_snoc.
      split_and!; try done.
      simpl. rewrite Hkey. by rewrite bool_decide_eq_false_2.
Qed.

Lemma extractManifestKey_cut (path : string) :
  has_char "." (Yamldiff.extractManifestKey path) = false ∧
  ∃ tail,
    path = Yamldiff.extractManifestKey path +:+ tail ∧
    (tail = "" ∨ ∃ t, tail = "." +:+ t).
Proof.
  destruct (extractManifestKey_loop_spec path "")
    as (key & tail & Hloop & Hkey & Hpath & Htail).
  rewrite append_nil_l in Hloop. simpl in Hloop.
  unfold Yamldiff.extractManifestKey. rewrite Hloop, append_nil_l.
  split; [done |]. by exists tail.
Qed.

Lemma append_cut_unique (key key' tail tail' : string) :
  has_char "." key = false → has_char "." key' = false →
  (tail = "" ∨ ∃ t, tail = "." +:+ t) →
  (tail' = "" ∨ ∃ t, tail' = "." +:+ t) →
  key +:+ tail = key' +:+ tail' → key = key'.
Proof.
  revert key'. induction key as [| c key IH]; intros key' Hk Hk' Ht Ht' Heq.
  - destruct key' as [| c' key']; [done |]. rewrite append_nil_l in Heq.
    simpl in Hk'. apply orb_false_iff in Hk' as [Hc' _].
    apply bool_decide_eq_false in Hc'.
    destruct Ht as [-> | [t ->]]; [done |].
    rewrite append_cons in Heq. by injection Heq as <- _.
  - simpl in Hk. apply orb_false_iff in Hk as [Hc Hk].
    apply bool_decide_eq_false in Hc.
    destruct key' as [| c' key'].
    + rewrite append_nil_l in Heq.
      destruct Ht' as [-> | [t ->]]; [done |].
      rewrite append_cons in Heq. by injection Heq as -> _.
    + rewrite !append_cons in Heq. injection Heq as -> Heq.
      simpl in Hk'. apply orb_false_iff in Hk' as [_ Hk'].
      f_equal. by eapply IH.
Qed.

Lemma extractManifestKey_of (key tail : string) :
  has_char "." key = false →
  (tail = "" ∨ ∃ t, tail = "." +:+ t) →
  Yamldiff.extractManifestKey (key +:+ tail) = key.
Proof.
  intros Hkey Htail.
  destruct (extractManifestKey_cut (key +:+ tail)) as (Hk & tail' & Heq & Ht).
  exact (eq_sym (append_cut_unique _ _ _ _ Hkey Hk Htail Ht Heq)).
Qed.

(** X15: [extractManifestKey] returns the part of the path before its
    first dot, and the whole path when it has none: the result has no
    dot, and the path is the result, alone or followed by a dot and the
    rest. *)
Theorem extractManifestKey_before_dot (path : string) :
  has_char "." (Yamldiff.extractManifestKey path) = false ∧
  ∃ tail,
    path = Yamldiff.extractManifestKey path +:+ tail ∧
    (tail = "" ∨ ∃ t, tail = "." +:+ t).
Proof. apply extractManifestKey_cut. Qed.

(** *** The groups of CompareYAMLGrouped *)

Lemma append_at_lookup {A} (grouped : gmap string (list A))
    (manifestKey k : string) (item : A) :
  Yamldiff.append_at grouped manifestKey item !! k =
  if decide (manifestKey = k)
  then Some (default [] (grouped !! k) ++ [item])
  else grouped !! k.
Proof.
  unfold Yamldiff.append_at. case_decide as Hk.
  - subst. by rewrite lookup_insert_eq.
  - by rewrite lookup_insert_ne.
Qed.

Lemma grouping_lookup {A B} (key : B → string) (item : B → A) (l : list B)
    (k : string) :
  ∀ grouped,
    foldl (λ grouped b, Yamldiff.append_at grouped (key b) (item b))
          grouped l !! k =
    match filter (λ b, key b = k) l with
    | [] => grouped !! k
    | bs => Some (default [] (grouped !! k) ++ (item <$> bs))
    end.
Proof.
  induction l as [| b l IH]; intros grouped; [done |].
  simpl. rewrite IH, append_at_lookup.
  destruct (decide (key b = k)) as [Hb | Hb].
  - rewrite filter_cons_True by done. simpl.
    destruct (filter (λ b, key b = k) l); simpl; [done |].
    by rewrite <- app_assoc.
  - by rewrite filter_cons_False.
Qed.

(** X16: the group of a manifest key in [CompareYAMLGrouped] holds the
    paths of [CompareYAML] that have this manifest key, all of them and
    in their order; a key that no path has is not bound. *)
Theorem CompareYAMLGrouped_lookup (left right : gmap string value)
    (manifestKey : string) :
  Yamldiff.CompareYAMLGrouped left right !! manifestKey =
  match filter (λ path, Yamldiff.extractManifestKey path = manifestKey)
               (CompareYAML left right) with
  | [] => None
  | paths => Some paths
  end.
Proof.
  unfold Yamldiff.CompareYAMLGrouped.
  rewrite (grouping_lookup Yamldiff.extractManifestKey id).
  rewrite lookup_empty. simpl. unfold CompareYAML.
  destruct (filter _ _); [done |]. by rewrite list_fmap_id.
Qed.

Lemma extractManifestKey_fixed (path : string) :
  path = Yamldiff.extractManifestKey path ↔ has_char "." path = false.
Proof.
  destruct (extractManifestKey_cut path) as (Hk & tail & Heq & Ht). split.
  - by intros ->.
  - intros Hp. symmetry.
    rewrite <- (append_nil_r path) at 1.
    apply extractManifestKey_of; [done | by left].
Qed.

(** X17: [CompareYAMLGroupedDetailed] has the groups of
    [CompareYAMLGrouped], with one item for each path; the item shows
    the path, or [(affects entire manifest)] when the path has no
    dot. *)
Theorem CompareYAMLGroupedDetailed_items (left right : gmap string value) :
  Yamldiff.CompareYAMLGroupedDetailed left right =
  (λ paths : list string,
     (λ path,
        {| Yamldiff.Path := path;
           Yamldiff.DisplayText :=
             if has_char "." path then path
             else "(affects entire manifest)" |}) <$> paths)
    <$> Yamldiff.CompareYAMLGrouped left right.
Proof.
  apply map_eq. intros k. rewrite lookup_fmap.
  unfold Yamldiff.CompareYAMLGroupedDetailed, Yamldiff.CompareYAMLGrouped.
  rewrite (grouping_lookup Yamldiff.extractManifestKey
             (λ path, {| Yamldiff.Path := path;
                         Yamldiff.DisplayText :=
                           Yamldiff.createUserFriendlyDisplayText path
                             (Yamldiff.extractManifestKey path) left right |})).
  rewrite (grouping_lookup Yamldiff.extractManifestKey id).
  rewrite !lookup_empty.
  destruct (filter _ _) as [| p ps]; [done |].
  simpl. f_equal. rewrite list_fmap_id. simpl.
  assert (Hitem : ∀ path,
    {| Yamldiff.Path := path;
       Yamldiff.DisplayText :=
         Yamldiff.createUserFriendlyDisplayText path
           (Yamldiff.extractManifestKey path) left right |} =
    {| Yamldiff.Path := path;
       Yamldiff.DisplayText :=
         if has_char "." path then path else "(affects entire manifest)" |}).
  { intros path. f_equal. unfold Yamldiff.createUserFriendlyDisplayText.
    case_decide as Hp.
    - apply extractManifestKey_fixed in Hp. by rewrite Hp.
    - destruct (has_char "." path) eqn:Hdot; [done |].
      by apply extractManifestKey_fixed in Hdot. }
  rewrite Hitem. f_equal. apply list_fmap_ext. intros _ path _. apply Hitem.
Qed.

(** *** The count that the command prints *)

Lemma totalPaths_append_at
    (grouped : gmap string (list Yamldiff.GroupedDifferenceItem))
    (manifestKey : string) (item : Yamldiff.GroupedDifferenceItem) :
  Yamldiff.totalPaths (Yamldiff.append_at grouped manifestKey item) =
  Yamldiff.totalPaths grouped + 1.
Proof.
  unfold Yamldiff.totalPaths, Yamldiff.append_at.
  destruct (grouped !! manifestKey) as [old |] eqn:Hk; simpl.
  - rewrite <- insert_delete_eq.
    rewrite map_fold_insert_L;
      [| intros; lia | by rewrite lookup_delete_eq].
    rewrite (map_fold_delete_L _ _ manifestKey old grouped);
      [| intros; lia | done].
    rewrite length_app. simpl. lia.
  - rewrite map_fold_insert_L; [| intros; lia | done]. simpl. lia.
Qed.

Lemma totalPaths_grouping (key : string → string)
    (item : string → Yamldiff.GroupedDifferenceItem) (l : list string) :
  ∀ grouped,
    Yamldiff.totalPaths
      (foldl (λ grouped b, Yamldiff.append_at grouped (key b) (item b))
             grouped l) =
    Yamldiff.totalPaths grouped + length l.
Proof.
  induction l as [| b l IH]; intros grouped; simpl; [lia |].
  rewrite IH, totalPaths_append_at. lia.
Qed.

(** X18: the number of paths that the command announces, the sum of the
    sizes of the groups of [CompareYAMLGroupedDetailed], is the number of
    paths that [CompareYAML] reports; and there is no group exactly when
    [CompareYAML] reports no path. *)
Theorem totalPaths_CompareYAML (left right : gmap string value) :
  Yamldiff.totalPaths (Yamldiff.CompareYAMLGroupedDetailed left right) =
    length (CompareYAML left right) ∧
  (Yamldiff.CompareYAMLGroupedDetailed left right = ∅ ↔
   CompareYAML left right = []).
Proof.
  split.
  - unfold Yamldiff.CompareYAMLGroupedDetailed.
    rewrite totalPaths_grouping. done.
  - unfold Yamldiff.CompareYAMLGroupedDetailed, CompareYAML.
    destruct (compareValues "" (VMap left) (VMap right) []) as [| p ps] eqn:Hd;
      [done |].
    split; [| done]. intros Hempty. exfalso.
    apply (f_equal (λ g, g !! Yamldiff.extractManifestKey p)) in Hempty.
    rewrite lookup_empty in Hempty.
    rewrite (grouping_lookup Yamldiff.extractManifestKey
               (λ path, {| Yamldiff.Path := path;
                           Yamldiff.DisplayText :=
                             Yamldiff.createUserFriendlyDisplayText path
                               (Yamldiff.extractManifestKey path) left right |}))
      in Hempty.
    by rewrite filter_cons_True in Hempty by done.
Qed.

(** *** Where the reported paths lie *)

Lemma compareValues_below (left : value) :
  ∀ right path p,
    path ≠ "" →
    p ∈ compareValues path left right [] →
    p = path ∨ (∃ rest, p = path +:+ "." +:+ rest) ∨
    (TypeOf left = TSlice ∧ ∃ rest, p = path +:+ "[" +:+ rest).
Proof.
  induction left as [| s | k n | k f | b | xs IH | m IH] using value_ind';
    intros right path p Hpath.
  1-5: rewrite compareValues_scalars by done; intros Hp; left;
    repeat (destruct (_ : bool) in Hp; simpl in Hp); try case_decide;
    try (by apply elem_of_nil in Hp);
    by apply list_elem_of_singleton in Hp.
  - (* a sequence *)
    destruct right as [| | | | | xs' |];
      try (simpl; intros Hp; left; by apply list_elem_of_singleton in Hp).
    rewrite compareValues_slices, elem_of_compareSlice.
    intros [Hp | (j & Hj & Hp)]; [by apply elem_of_nil in Hp |].
    right; right. split; [done |].
    assert (Hbap : buildArrayPath path j =
                   path +:+ "[" +:+ Itoa (Z.of_nat j) +:+ "]").
    { unfold buildArrayPath. by rewrite decide_False. }
    assert (Hne : buildArrayPath path j ≠ "").
    { rewrite Hbap. by apply append_nonempty_l. }
    destruct (xs !! j) as [x |] eqn:Hx, (xs' !! j) as [y |];
      try (subst p; rewrite Hbap; by eexists).
    rewrite Forall_forall in IH.
    destruct (IH x (list_elem_of_lookup_2 _ _ _ Hx) y _ p Hne Hp)
      as [-> | [[rest ->] | [_ [rest ->]]]]; rewrite Hbap.
    + by eexists.
    + exists (Itoa (Z.of_nat j) +:+ "]" +:+ "." +:+ rest).
      by rewrite !append_assoc.
    + exists (Itoa (Z.of_nat j) +:+ "]" +:+ "[" +:+ rest).
      by rewrite !append_assoc.
  - (* a mapping *)
    destruct right as [| | | | | | m'];
      try (simpl; intros Hp; left; by apply list_elem_of_singleton in Hp).
    rewrite compareValues_maps, elem_of_compareMap.
    assert (Hbp : ∀ k, buildPath path k = path +:+ "." +:+ k).
    { intros k. unfold buildPath. by rewrite decide_False. }
    intros [Hp | [(k & x & y & Hk & Hk' & Hp) | (k & _ & ->)]];
      [by apply elem_of_nil in Hp | |].
    + right; left.
      assert (Hne : buildPath path k ≠ "").
      { rewrite Hbp. by apply append_nonempty_l. }
      destruct (IH k x Hk y _ p Hne Hp)
        as [-> | [[rest ->] | [_ [rest ->]]]]; rewrite Hbp.
      * by eexists.
      * exists (k +:+ "." +:+ rest). by rewrite !append_assoc.
      * exists (k +:+ "[" +:+ rest). by rewrite !append_assoc.
    + right; left. rewrite Hbp. by eexists.
Qed.

(** X19: when the keys of both trees are not empty and have no dot, and no
    value of the left tree at a key is a sequence, every group of
    [CompareYAMLGrouped] is the group of a key of one of the trees. *)
Theorem CompareYAMLGrouped_keys (left right : gmap string value)
    (manifestKey : string) :
  (∀ k, is_Some (left !! k) ∨ is_Some (right !! k) → plain_key k = true) →
  (∀ k x, left !! k = Some x → TypeOf x ≠ TSlice) →
  is_Some (Yamldiff.CompareYAMLGrouped left right !! manifestKey) →
  is_Some (left !! manifestKey) ∨ is_Some (right !! manifestKey).
Proof.
  intros Hplain Hslice. unfold Yamldiff.CompareYAMLGrouped.
  rewrite (grouping_lookup Yamldiff.extractManifestKey id), lookup_empty.
  destruct (filter _ _) as [| p ps] eqn:Hf; [by intros [? ?] |]. intros _.
  assert (Hp : p ∈ filter
            (λ path, Yamldiff.extractManifestKey path = manifestKey)
            (compareValues "" (VMap left) (VMap right) []))
    by (rewrite Hf; by left).
  apply list_elem_of_filter in Hp as [<- Hp].
  rewrite compareValues_maps, elem_of_compareMap in Hp.
  assert (Hbp : ∀ k, buildPath "" k = k) by done.
  destruct Hp as [Hp | [(k & x & y & Hk & Hk' & Hp) | (k & Hk & ->)]].
  - by apply elem_of_nil in Hp.
  - rewrite Hbp in Hp.
    assert (Hkey : plain_key k = true) by (apply Hplain; left; by eexists).
    apply plain_key_spec in Hkey as [Hne Hdot].
    assert (Yamldiff.extractManifestKey p = k) as ->; [| left; by eexists].
    destruct (compareValues_below x y k p Hne Hp)
      as [-> | [[rest ->] | [Hty _]]].
    + rewrite <- (append_nil_r k) at 1.
      apply extractManifestKey_of; [done | by left].
    + apply extractManifestKey_of; [done |]. right. by eexists.
    + by destruct (Hslice k x Hk).
  - rewrite Hbp.
    assert (Hkey : plain_key k = true) by (apply Hplain; tauto).
    apply plain_key_spec in Hkey as [Hne Hdot].
    assert (Yamldiff.extractManifestKey k = k) as ->; [| tauto].
    rewrite <- (append_nil_r k) at 1.
    apply extractManifestKey_of; [done | by left].
Qed.

Lemma CompareYAMLGrouped_keys_witness :
  is_Some (({["Service_web" := VMap {["port" := VInt KInt 80]}]}
              : gmap string value) !! "Service_web") ∨
  is_Some (({["Service_web" := VMap {["port" := VInt KInt 8080]}]}
              : gmap string value) !! "Service_web").
Proof.
  apply (CompareYAMLGrouped_keys
           {["Service_web" := VMap {["port" := VInt KInt 80]}]}
           {["Service_web" := VMap {["port" := VInt KInt 8080]}]}
           "Service_web").
  - intros k [[x Hk] | [x Hk]];
      apply lookup_singleton_Some in Hk as [<- _]; by vm_compute.
  - intros k x Hk. apply lookup_singleton_Some in Hk as [_ <-]. discriminate.
  - vm_compute. by eexists.
Defined.

(** *** extractChartNameFromURL *)

Lemma Split_from_last (sep : ascii) (s : string) :
  ∀ current,
    has_char sep current = false →
    ∃ name front,
      last (Strings.Split_from sep s current) = Some name ∧
      has_char sep name = false ∧
      current +:+ s = front +:+ name ∧
      (front = "" ∨ ∃ f, front = f +:+ String sep "").
Proof.
  induction s as [| c s IH]; intros current Hcur; simpl.
  - exists current, "". rewrite append_nil_r, append_nil_l.
    split_and!; try done. by left.
  - case_decide as Hc.
    + subst c. destruct (IH "" eq_refl) as (name & front & Hlast & Hname & Hs & Hf).
      rewrite append_nil_l in Hs.
      exists name, (current +:+ String sep front).
      split_and!; [| done | |].
      * rewrite last_cons, Hlast. done.
      * rewrite Hs. by rewrite append_assoc, append_cons.
      * right. destruct Hf as [-> | [f ->]].
        -- by exists current.
        -- exists (current +:+ String sep f).
           by rewrite append_assoc, append_cons.
    + destruct (IH (current +:+ String c "")) as (name & front & Hlast & Hname & Hs & Hf).
      { rewrite has_char_append, Hcur. simpl.
        by rewrite bool_decide_eq_false_2. }
      rewrite append_snoc in Hs. by exists name, front.
Qed.

(** X20: the chart name is the part of the URL after its last slash (of
    the URL without one final slash, unless it starts with [oci://]): it
    has no slash, and what stands before it is empty or ends with a
    slash.  The fallback name is never used. *)
Theorem extractChartNameFromURL_last_segment (chartUrl : string) :
  has_char "/" (Client.extractChartNameFromURL chartUrl) = false ∧
  ∃ front,
    (if Strings.HasPrefix chartUrl "oci://" then chartUrl
     else Strings.TrimSuffix chartUrl "/") =
      front +:+ Client.extractChartNameFromURL chartUrl ∧
    (front = "" ∨ ∃ f, front = f +:+ "/").
Proof.
  unfold Client.extractChartNameFromURL, Strings.Split.
  destruct (Strings.HasPrefix chartUrl "oci://").
  - destruct (Split_from_last "/" chartUrl "" eq_refl)
      as (name & front & -> & Hname & Hs & Hf).
    rewrite append_nil_l in Hs. split; [done |]. by exists front.
  - destruct (Split_from_last "/" (Strings.TrimSuffix chartUrl "/") "" eq_refl)
      as (name & front & -> & Hname & Hs & Hf).
    rewrite append_nil_l in Hs. split; [done |]. by exists front.
Qed.

(** *** deepMergeMap *)

Lemma foldr_pointwise {A B} (f g : A → B → B) (b : B) (l : list A) :
  (∀ a b, f a b = g a b) → foldr f b l = foldr g b l.
Proof.
  intros Hfg. induction l as [| a l IH]; simpl; [done |].
  by rewrite IH, Hfg.
Qed.

(** The value that [deepMergeMap] leaves at a key of the source:
    [dstValue] is what the destination held there. *)
Lemma deepMergeMap_foldr (dst src : gmap string value) :
  Client.deepMergeMap dst src =
  foldr (λ '(key, srcValue) dst,
    <[key := match dst !! key, srcValue with
             | Some (VMap dstMap), VMap srcMap =>
                 VMap (Client.deepMergeMap dstMap srcMap)
             | _, _ => srcValue
             end]> dst) dst (map_to_list src).
Proof.
  unfold Client.deepMergeMap. simpl. rewrite map_fold_foldr.
  apply foldr_pointwise. intros [key srcValue] d. simpl.
  destruct (d !! key) as [[| | | | | | dstMap] |]; try done.
  by destruct srcValue.
Qed.

Lemma foldr_update_lookup (combine : option value → value → value)
    (l : list (string * value)) (dst : gmap string value) (k : string) :
  NoDup l.*1 →
  foldr (λ '(key, srcValue) dst,
           <[key := combine (dst !! key) srcValue]> dst) dst l !! k =
  match (list_to_map l : gmap string value) !! k with
  | Some srcValue => Some (combine (dst !! k) srcValue)
  | None => dst !! k
  end.
Proof.
  induction l as [| [k0 sv0] l IH]; intros Hnd; [done |].
  apply NoDup_cons in Hnd as [Hk0 Hnd]. simpl.
  destruct (decide (k0 = k)) as [-> | Hne].
  - rewrite !lookup_insert_eq. rewrite IH by done.
    by rewrite (not_elem_of_list_to_map_1 _ _ Hk0).
  - rewrite !lookup_insert_ne by done. by apply IH.
Qed.

Lemma deepMergeMap_lookup (dst src : gmap string value) (k : string) :
  Client.deepMergeMap dst src !! k =
  match src !! k with
  | Some srcValue =>
      Some match dst !! k, srcValue with
           | Some (VMap dstMap), VMap srcMap =>
               VMap (Client.deepMergeMap dstMap srcMap)
           | _, _ => srcValue
           end
  | None => dst !! k
  end.
Proof.
  rewrite deepMergeMap_foldr.
  rewrite (foldr_update_lookup
             (λ dstValue srcValue,
                match dstValue, srcValue with
                | Some (VMap dstMap), VMap srcMap =>
                    VMap (Client.deepMergeMap dstMap srcMap)
                | _, _ => srcValue
                end)) by apply NoDup_fst_map_to_list.
  by rewrite list_to_map_to_list.
Qed.

Lemma mergeValues_deepMergeMap (defaultValues customValues : gmap string value) :
  Client.mergeValues defaultValues customValues =
  Client.deepMergeMap defaultValues customValues.
Proof. unfold Client.mergeValues. by rewrite copyMap_empty. Qed.

Lemma deepMergeMap_source_wins (keys : list string) :
  keys ≠ [] →
  ∀ dst src v,
    getValueAtPath_loop (VMap src) keys = Ok v →
    TypeOf v ≠ TMap →
    getValueAtPath_loop (VMap (Client.deepMergeMap dst src)) keys = Ok v.
Proof.
  induction keys as [| key keys IH]; intros Hne dst src v Hget Hv; [done |].
  simpl in *. rewrite deepMergeMap_lookup.
  destruct (src !! key) as [sv |] eqn:Hk; [| done].
  destruct keys as [| key2 keys].
  - simpl in *. injection Hget as ->.
    destruct (dst !! key) as [[| | | | | | dstMap] |]; try done;
      by destruct v.
  - destruct sv as [| | | | | | srcMap]; try done.
    destruct (dst !! key) as [[| | | | | | dstMap] |]; try done.
    by apply IH.
Qed.

(** X21: the custom values win: where [getValueAtPath] finds in the custom
    values a value that is not a mapping, it finds the same value in the
    merged values, whatever the defaults hold. *)
Theorem mergeValues_custom_wins (defaultValues customValues : gmap string value)
    (path : string) (v : value) :
  splitPath path ≠ [] →
  getValueAtPath (VMap customValues) path = Ok v →
  TypeOf v ≠ TMap →
  getValueAtPath
    (VMap (Client.mergeValues defaultValues customValues)) path = Ok v.
Proof.
  intros Hne. rewrite !getValueAtPath_unfold, mergeValues_deepMergeMap.
  by apply deepMergeMap_source_wins.
Qed.

Lemma mergeValues_custom_wins_witness :
  getValueAtPath
    (VMap (Client.mergeValues
             {["server" := VMap (<["port" := VInt KInt 80]>
                                   {["host" := VString "localhost"]})]}
             {["server" := VMap {["port" := VInt KInt 8080]}]}))
    "server.port" = Ok (VInt KInt 8080).
Proof.
  apply (mergeValues_custom_wins
           {["server" := VMap (<["port" := VInt KInt 80]>
                                 {["host" := VString "localhost"]})]}
           {["server" := VMap {["port" := VInt KInt 8080]}]}
           "server.port" (VInt KInt 8080)).
  - vm_compute. discriminate.
  - vm_compute. reflexivity.
  - discriminate.
Defined.

Lemma deepMergeMap_destination_stays (keys : list string) :
  ∀ dst src v key,
    getValueAtPath_loop (VMap dst) keys = Ok v →
    getValueAtPath_loop (VMap src) keys = Err (KeyNotFound key) →
    getValueAtPath_loop (VMap (Client.deepMergeMap dst src)) keys = Ok v.
Proof.
  induction keys as [| k keys IH]; intros dst src v key Hdst Hsrc; [done |].
  simpl in *. rewrite deepMergeMap_lookup.
  destruct (dst !! k) as [dv |] eqn:Hk; [| done].
  destruct (src !! k) as [sv |] eqn:Hk'; [| done].
  destruct keys as [| key2 keys]; [done |].
  destruct sv as [| | | | | | srcMap]; try done.
  destruct dv as [| | | | | | dstMap]; try done.
  by eapply IH.
Qed.

(** X22: the defaults stay where the custom values are silent: a value
    that [getValueAtPath] finds in the defaults, at a path that the
    custom values lack for a missing key, is found in the merged
    values. *)
Theorem mergeValues_defaults_stay (defaultValues customValues : gmap string value)
    (path key : string) (v : value) :
  getValueAtPath (VMap defaultValues) path = Ok v →
  getValueAtPath (VMap customValues) path = Err (KeyNotFound key) →
  getValueAtPath
    (VMap (Client.mergeValues defaultValues customValues)) path = Ok v.
Proof.
  rewrite !getValueAtPath_unfold, mergeValues_deepMergeMap.
  apply deepMergeMap_destination_stays.
Qed.

Lemma mergeValues_defaults_stay_witness :
  getValueAtPath
    (VMap (Client.mergeValues
             {["server" := VMap (<["port" := VInt KInt 80]>
                                   {["host" := VString "localhost"]})]}
             {["server" := VMap {["port" := VInt KInt 8080]}]}))
    "server.host" = Ok (VString "localhost").
Proof.
  apply (mergeValues_defaults_stay
           {["server" := VMap (<["port" := VInt KInt 80]>
                                 {["host" := VString "localhost"]})]}
           {["server" := VMap {["port" := VInt KInt 8080]}]}
           "server.host" "host" (VString "localhost")).
  - vm_compute. reflexivity.
  - vm_compute. reflexivity.
Defined.

Lemma deepMergeMap_self (m : value) :
  ∀ src, m = VMap src → Client.deepMergeMap src src = src.
Proof.
  induction m as [| | | | | | m IH] using value_ind'; intros src Hm; try done.
  injection Hm as <-. apply map_eq. intros k.
  rewrite deepMergeMap_lookup.
  destruct (m !! k) as [x |] eqn:Hk; [| done].
  destruct x as [| | | | | | xm]; try done.
  by rewrite (IH k (VMap xm) Hk xm).
Qed.

Lemma deepMergeMap_twice (s : value) :
  ∀ src dst,
    s = VMap src →
    Client.deepMergeMap (Client.deepMergeMap dst src) src =
    Client.deepMergeMap dst src.
Proof.
  induction s as [| | | | | | m IH] using value_ind'; intros src dst Hs;
    try done.
  injection Hs as <-. apply map_eq. intros k.
  rewrite !deepMergeMap_lookup.
  destruct (m !! k) as [x |] eqn:Hk; [| done].
  destruct (dst !! k) as [[| | | | | | dstMap] |];
    destruct x as [| | | | | | xm]; try done;
    try (by rewrite (deepMergeMap_self (VMap xm) xm)).
  by rewrite (IH k (VMap xm) Hk xm dstMap).
Qed.

(** *** The cache of downloaded charts *)

Section CacheProperties.
Context (Stat : string → bool) (Join : string → string → string).

Lemma addCacheEntry_range (chartUrl version : string)
    (entries : list Client.CacheEntry) (saved : option Client.CacheFile) :
  (fix range (entries : list Client.CacheEntry) :=
     match entries with
     | [] => saved
     | entry :: entries =>
         if bool_decide (Client.ChartURL entry = chartUrl) &&
            bool_decide (Client.Version entry = version)
         then None
         else range entries
     end) entries =
  if bool_decide (Exists (λ entry, Client.ChartURL entry = chartUrl ∧
                                   Client.Version entry = version) entries)
  then None else saved.
Proof.
  induction entries as [| entry entries IH]; [done |].
  rewrite IH. clear IH.
  assert (Hex :
    Exists (λ entry, Client.ChartURL entry = chartUrl ∧
                     Client.Version entry = version) (entry :: entries) ↔
    (Client.ChartURL entry = chartUrl ∧ Client.Version entry = version) ∨
    Exists (λ entry, Client.ChartURL entry = chartUrl ∧
                     Client.Version entry = version) entries)
    by apply Exists_cons.
  repeat case_bool_decide; simpl; try done; tauto.
Qed.

(** [addCacheEntry] never replaces an entry: when the cache has an
    entry for the URL and the version it saves nothing, whatever that
    entry's directory; otherwise it saves the cache with the new entry
    at the end. *)
Theorem addCacheEntry_saves (cacheFile : Client.CacheFile)
    (chartUrl version chartName downloadDir : string) :
  Client.addCacheEntry cacheFile chartUrl version chartName downloadDir =
  if bool_decide (Exists (λ entry, Client.ChartURL entry = chartUrl ∧
                                   Client.Version entry = version)
                         (Client.Entries cacheFile))
  then None
  else Some {| Client.Entries :=
                 Client.Entries cacheFile ++
                 [{| Client.ChartURL := chartUrl; Client.Version := version;
                     Client.ChartName := chartName;
                     Client.DownloadDir := downloadDir |}] |}.
Proof. apply addCacheEntry_range. Qed.

Lemma checkCacheEntry_app (entries more : list Client.CacheEntry)
    (chartUrl chartVersion : string) :
  Forall (λ entry, ¬ (Client.ChartURL entry = chartUrl ∧
                      Client.Version entry = chartVersion)) entries →
  Client.checkCacheEntry Stat Join {| Client.Entries := entries ++ more |}
    chartUrl chartVersion =
  Client.checkCacheEntry Stat Join {| Client.Entries := more |}
    chartUrl chartVersion.
Proof.
  unfold Client.checkCacheEntry. simpl.
  induction 1 as [| entry entries Hentry _ IH]; [done |].
  simpl. rewrite IH.
  destruct (bool_decide (Client.ChartURL entry = chartUrl)) eqn:Hu;
    destruct (bool_decide (Client.Version entry = chartVersion)) eqn:Hv;
    try done.
  apply bool_decide_eq_true in Hu, Hv. by destruct Hentry.
Qed.

(** X24: after [addCacheEntry] has saved the cache, [checkCacheEntry] for
    the same URL and version finds the entry that was added when its
    chart directory exists, and finds nothing when it does not. *)
Theorem checkCacheEntry_added (cacheFile saved : Client.CacheFile)
    (chartUrl version chartName downloadDir : string) :
  Client.addCacheEntry cacheFile chartUrl version chartName downloadDir =
    Some saved →
  Client.checkCacheEntry Stat Join saved chartUrl version =
  if Stat (Join downloadDir chartName)
  then ({| Client.ChartURL := chartUrl; Client.Version := version;
           Client.ChartName := chartName;
           Client.DownloadDir := downloadDir |}, true)
  else ({| Client.ChartURL := ""; Client.Version := "";
           Client.ChartName := ""; Client.DownloadDir := "" |}, false).
Proof.
  unfold Client.addCacheEntry. rewrite addCacheEntry_range.
  case_bool_decide as Hex; [done |]. intros [= <-].
  rewrite checkCacheEntry_app.
  - unfold Client.checkCacheEntry. simpl.
    by rewrite !bool_decide_eq_true_2.
  - apply Forall_forall. intros entry Hin Hentry. apply Hex.
    apply Exists_exists. by exists entry.
Qed.

End CacheProperties.

Lemma checkCacheEntry_added_witness :
  Client.checkCacheEntry (λ _, true) (λ dir name, dir +:+ "/" +:+ name)
    {| Client.Entries :=
         [{| Client.ChartURL := "oci://example.com/charts/web";
             Client.Version := "1.0.0"; Client.ChartName := "web-1.0.0";
             Client.DownloadDir := "/home/user/.helmhound" |}] |}
    "oci://example.com/charts/web" "1.0.0" =
  if (λ _ : string, true)
       ((λ dir name, dir +:+ "/" +:+ name) "/home/user/.helmhound" "web-1.0.0")
  then ({| Client.ChartURL := "oci://example.com/charts/web";
           Client.Version := "1.0.0"; Client.ChartName := "web-1.0.0";
           Client.DownloadDir := "/home/user/.helmhound" |}, true)
  else ({| Client.ChartURL := ""; Client.Version := "";
           Client.ChartName := ""; Client.DownloadDir := "" |}, false).
Proof.
  apply (checkCacheEntry_added (λ _, true) (λ dir name, dir +:+ "/" +:+ name)
           {| Client.Entries := [] |}).
  vm_compute. reflexivity.
Defined.

(** *** getIndentLevel *)

Lemma getIndentLevel_loop_count (line : string) :
  ∀ count,
    Values.getIndentLevel_loop line count =
    count + Values.getIndentLevel_loop line 0.
Proof.
  induction line as [| c line IH]; intros count; simpl; [lia |].
  repeat case_decide; try lia.
  - rewrite IH, (IH 1). lia.
  - rewrite IH, (IH 2). lia.
Qed.

(** X25: [getIndentLevel] counts one for a leading space and two for a
    leading tab, up to the first other character: a line behind [n]
    spaces has [n] more, behind [n] tabs [2 n] more, and a line that is
    empty or starts with another character has none. *)
Theorem getIndentLevel_leading (n : nat) (line : string) :
  Values.getIndentLevel (Values.repeated " " n +:+ line) =
    n + Values.getIndentLevel line ∧
  Values.getIndentLevel
    (Values.repeated (Ascii.ascii_of_nat 9) n +:+ line) =
    2 * n + Values.getIndentLevel line ∧
  match line with
  | EmptyString => Values.getIndentLevel line = 0
  | String c _ =>
      c = " "%char ∨ c = Ascii.ascii_of_nat 9 ∨ Values.getIndentLevel line = 0
  end.
Proof.
  unfold Values.getIndentLevel. split_and!.
  - induction n as [| n IH]; [done |].
    simpl Values.repeated. rewrite append_cons. simpl.
    rewrite getIndentLevel_loop_count, IH. lia.
  - induction n as [| n IH]; [done |].
    simpl Values.repeated. rewrite append_cons. simpl.
    rewrite getIndentLevel_loop_count, IH. lia.
  - destruct line as [| c line]; [done |]. simpl.
    repeat case_decide; auto.
Qed.

(** *** extractManifestPath *)

Lemma unquote_panics (key : string) :
  key = Values.doubleQuote ∨ key = "'" → Values.unquote key = Panic.
Proof. intros [-> | ->]; by vm_compute. Qed.

Lemma parentKeys_shape (above : list string) :
  ∀ pathParts currentIndent pathParts',
    Values.parentKeys above pathParts currentIndent = Ok pathParts' →
    ∃ parents,
      pathParts' = parents ++ pathParts ∧
      Forall (λ key, key ≠ "" ∧ Strings.Contains key ".Values" = false)
             parents.
Proof.
  induction above as [| line above IH];
    intros pathParts currentIndent pathParts' Hparts.
  - simpl in Hparts. injection Hparts as <-. by exists [].
  - simpl in Hparts.
    assert (Hnext : ∀ parts indent,
      (if Values.rootLevel (Values.getIndentLevel line)
            (Strings.TrimSpace line)
       then Ok parts
       else Values.parentKeys above parts indent) = Ok pathParts' →
      ∃ parents,
        pathParts' = parents ++ parts ∧
        Forall (λ key, key ≠ "" ∧ Strings.Contains key ".Values" = false)
               parents).
    { intros parts indent H. destruct (Values.rootLevel _ _).
      - injection H as <-. by exists [].
      - by eapply IH. }
    destruct (_ || Strings.HasPrefix _ "#"); [by eapply IH |].
    destruct (_ && Strings.Contains _ ":"); [| by eapply Hnext].
    destruct (Values.keyOf _) as [parentKey |]; [| by eapply Hnext].
    destruct (_ || _ || _ || _ || _); [by eapply IH |].
    destruct (Values.unquote parentKey) as [key | |]; try done.
    simpl in Hparts.
    destruct (negb (bool_decide (key = ""))) eqn:Hkey;
      [| simpl in Hparts; by eapply Hnext].
    destruct (negb (Strings.Contains key ".Values")) eqn:Hvalues;
      [| simpl in Hparts; by eapply Hnext].
    simpl in Hparts.
    destruct (Hnext _ _ Hparts) as (parents & -> & Hparents).
    exists (parents ++ [key]). rewrite <- app_assoc. split; [done |].
    apply Forall_app. split; [done |]. constructor; [| done].
    apply negb_true_iff, bool_decide_eq_false in Hkey.
    by apply negb_true_iff in Hvalues.
Qed.

(** X26: a manifest path that [extractManifestPath] returns is empty, or
    is a dot followed by keys joined by dots, none of them empty and none
    containing [.Values]. *)
Theorem extractManifestPath_shape (lines : list string)
    (currentLineIndex : Z) (manifestPath : string) :
  Values.extractManifestPath lines currentLineIndex = Ok manifestPath →
  manifestPath = "" ∨
  ∃ parents key,
    manifestPath = "." +:+ Strings.Join (parents ++ [key]) "." ∧
    Forall (λ key, key ≠ "" ∧ Strings.Contains key ".Values" = false)
           (parents ++ [key]).
Proof.
  unfold Values.extractManifestPath.
  destruct (decide (Z.of_nat (length lines) ≤ currentLineIndex)%Z);
    [intros Hres; left; by injection Hres |].
  destruct (decide (currentLineIndex < 0)%Z); [done |].
  destruct (Strings.Contains _ ":"); [| intros Hres; left; by injection Hres].
  destruct (Values.keyOf _) as [key0 |]; [| intros Hres; left; by injection Hres].
  destruct (Values.unquote _) as [key | |]; try done. simpl.
  destruct (negb (bool_decide (key = ""))) eqn:Hkey;
    [| simpl; intros Hres; left; by injection Hres].
  destruct (negb (Strings.Contains key ".Values")) eqn:Hvalues;
    [| simpl; intros Hres; left; by injection Hres].
  simpl.
  destruct (Values.parentKeys _ _ _) as [pathParts | |] eqn:Hparts; try done.
  simpl. destruct (parentKeys_shape _ _ _ _ Hparts) as (parents & -> & Hp).
  rewrite decide_True by (rewrite length_app; simpl; lia).
  intros Hres. injection Hres as <-.
  right. exists parents, key. split; [done |].
  apply Forall_app. split; [done |]. constructor; [| done].
  apply negb_true_iff, bool_decide_eq_false in Hkey.
  by apply negb_true_iff in Hvalues.
Qed.

Lemma extractManifestPath_shape_witness :
  ".metadata.name" = "" ∨
  ∃ parents key,
    ".metadata.name" = "." +:+ Strings.Join (parents ++ [key]) "." ∧
    Forall (λ key, key ≠ "" ∧ Strings.Contains key ".Values" = false)
           (parents ++ [key]).
Proof.
  apply (extractManifestPath_shape
           ["apiVersion: apps/v1"; "kind: Deployment"; "metadata:";
            "  name: {{ .Values.nameOverride }}"] 3).
  vm_compute. reflexivity.
Defined.

(** X27: on a line that, without the spaces around it, is a single or a
    double quote followed by a colon, [extractManifestPath] panics: the
    key is one quote, and [key[1 : len(key)-1]] is out of range. *)
Theorem extractManifestPath_lone_quote (lines : list string)
    (currentLineIndex : nat) (line rest : string) :
  lines !! currentLineIndex = Some line →
  Strings.TrimSpace line = "':" +:+ rest ∨
  Strings.TrimSpace line = Values.doubleQuote +:+ ":" +:+ rest →
  Values.extractManifestPath lines (Z.of_nat currentLineIndex) = Panic.
Proof.
  intros Hline Htrim. unfold Values.extractManifestPath.
  pose proof (lookup_lt_Some _ _ _ Hline) as Hlt.
  rewrite decide_False by lia. rewrite decide_False by lia.
  rewrite Nat2Z.id, Hline. simpl default.
  destruct Htrim as [-> | ->].
  - assert (Hc : Strings.Contains ("':" +:+ rest) ":" = true).
    { simpl. by rewrite HasPrefix_nil. }
    rewrite Hc. by vm_compute.
  - assert (Hc : Strings.Contains (Values.doubleQuote +:+ ":" +:+ rest) ":"
                 = true).
    { simpl. by rewrite HasPrefix_nil. }
    rewrite Hc. by vm_compute.
Qed.

Lemma extractManifestPath_lone_quote_witness :
  Values.extractManifestPath ["data:"; "  ': {{ .Values.name }}"] (Z.of_nat 1)
  = Panic.
Proof.
  apply (extractManifestPath_lone_quote
           ["data:"; "  ': {{ .Values.name }}"] 1
           "  ': {{ .Values.name }}" " {{ .Values.name }}").
  - reflexivity.
  - left. vm_compute. reflexivity.
Defined.

(** *** What a reported path stands for *)

(** *** A reported path is a difference *)

Lemma DeepEqual_differ (x y : value) :
  nan_free x = true → TypeOf x ≠ TMap → TypeOf x ≠ TSlice →
  DeepEqual x y = false → x ≠ y.
Proof.
  intros Hnan Hm Hs Hd <-.
  destruct x as [| s | k n | k f | b | |]; simpl in *; try done.
  - by rewrite bool_decide_eq_true_2 in Hd.
  - by rewrite !bool_decide_eq_true_2 in Hd.
  - apply negb_true_iff in Hnan.
    by rewrite bool_decide_eq_true_2, SFeqb_refl in Hd.
  - by rewrite bool_decide_eq_true_2 in Hd.
Qed.





(** *** The records carry the values at their path *)

Lemma has_char_buildPath (c : ascii) (keys : list string) :
  ∀ path, has_char c path = true →
          has_char c (foldl buildPath path keys) = true.
Proof.
  induction keys as [| key keys IH]; intros path Hpath; [done |].
  simpl. apply IH. unfold buildPath. case_decide as Hp.
  - by rewrite Hp in Hpath.
  - by rewrite has_char_append, Hpath.
Qed.

Lemma has_char_buildArrayPath (path : string) (j : nat) :
  has_char "[" (buildArrayPath path j) = true.
Proof.
  unfold buildArrayPath. case_decide; rewrite !has_char_append; simpl;
    by rewrite ?orb_true_r.
Qed.

Lemma findDifferencesWithValues_records (Q : string → DiffValue → Prop)
    (left : value) :
  (∀ p rec, has_char "[" p = true → Q p rec) →
  ∀ right path diffs,
    plain_keys left = true → plain_keys right = true →
    (∀ keys rec,
       Forall (λ key, plain_key key = true) keys →
       (keys = [] → TypeOf left ≠ TMap ∨ TypeOf right ≠ TMap) →
       Differ.found left keys (Left rec) →
       Differ.found right keys (Right rec) →
       Q (foldl buildPath path keys) rec) →
    map_Forall Q diffs →
    map_Forall Q (findDifferencesWithValues path left right diffs).
Proof.
  intros Hbr.
  induction left as [| s | k n | k f | b | xs IH | m IH] using value_ind';
    intros right path diffs Hpl Hpr HQ Hd.
  1-5: destruct right; simpl; try done;
    repeat case_decide; try destruct (negb _); try done;
    apply map_Forall_insert_2; try done;
    apply (HQ []); try done; try (by left); by left.
  - (* a sequence *)
    destruct right as [| | | | | xs' |];
      try (simpl; apply map_Forall_insert_2; [| done];
           apply (HQ []); try done; try (by left); by left).
    rewrite findDifferencesWithValues_slices.
    unfold findSliceDifferencesWithValues.
    apply plain_keys_slice in Hpl, Hpr.
    clear HQ. revert xs' Hpr diffs Hd. generalize 0%nat as i.
    induction xs as [| x xs IHxs]; intros i xs' Hpr diffs Hd.
    + simpl. clear Hpr. revert i diffs Hd.
      induction xs' as [| x' xs' IHxs']; intros i diffs Hd; [done |].
      simpl. apply IHxs'. apply map_Forall_insert_2; [| done].
      apply Hbr, has_char_buildArrayPath.
    + apply Forall_cons in IH as [IHx IH].
      apply Forall_cons in Hpl as [Hx Hpl].
      destruct xs' as [| x' xs']; simpl.
      * apply IHxs; [done | done | done |].
        apply map_Forall_insert_2; [| done].
        apply Hbr, has_char_buildArrayPath.
      * apply Forall_cons in Hpr as [Hx' Hpr].
        apply IHxs; [done | done | done |].
        apply IHx; [done | done | | done].
        intros keys rec _ _ _ _.
        apply Hbr, has_char_buildPath, has_char_buildArrayPath.
  - (* a mapping *)
    destruct right as [| | | | | | m'];
      try (simpl; apply map_Forall_insert_2; [| done];
           apply (HQ []); try done; try (by right); by left).
    rewrite findDifferencesWithValues_maps.
    unfold findMapDifferencesWithValues, findMapDifferencesWithValues_with.
    rewrite !map_fold_foldr.
    pose proof (plain_keys_map _ Hpl) as Hplm.
    pose proof (plain_keys_map _ Hpr) as Hprm.
    assert (Hfirst : map_Forall Q
      (foldr (uncurry (λ key leftValue diffs,
           match m' !! key with
           | Some rightValue =>
               findDifferencesWithValues (buildPath path key)
                 leftValue rightValue diffs
           | None =>
               <[buildPath path key :=
                   {| Left := leftValue; Right := VNil;
                      Type_ := DiffTypeRemoved |}]> diffs
           end)) diffs (map_to_list m))).
    { pose proof (map_to_list_lookup m) as Hm.
      apply map_Forall_to_list in IH.
      induction (map_to_list m) as [| [k x] l IHl]; [done |].
      apply Forall_cons in IH as [IHx IH].
      apply Forall_cons in Hm as [Hk Hm]. simpl in *.
      destruct (Hplm k x Hk) as [Hkplain Hx].
      destruct (m' !! k) as [y |] eqn:Hk'.
      - destruct (Hprm k y Hk') as [_ Hy].
        apply IHx; [done | done | | by apply IHl].
        intros keys rec Hkeys _ Hl Hr.
        apply (HQ (k :: keys)); [by constructor | done | |].
        + unfold Differ.found in *. simpl. by rewrite Hk.
        + unfold Differ.found in *. simpl. by rewrite Hk'.
      - apply map_Forall_insert_2; [| by apply IHl].
        apply (HQ [k]); [by constructor | done | |].
        + left. simpl. by rewrite Hk.
        + right. split; [done |]. exists k. simpl. by rewrite Hk'. }
    revert Hfirst. generalize
      (foldr (uncurry (λ key leftValue diffs,
           match m' !! key with
           | Some rightValue =>
               findDifferencesWithValues (buildPath path key)
                 leftValue rightValue diffs
           | None =>
               <[buildPath path key :=
                   {| Left := leftValue; Right := VNil;
                      Type_ := DiffTypeRemoved |}]> diffs
           end)) diffs (map_to_list m)).
    intros d1 H1.
    pose proof (map_to_list_lookup m') as Hm'.
    induction (map_to_list m') as [| [k y] l IHl]; [done |].
    apply Forall_cons in Hm' as [Hk' Hm']. simpl in *.
    destruct (m !! k) as [x |] eqn:Hk; [by apply IHl |].
    apply map_Forall_insert_2; [| by apply IHl].
    destruct (Hprm k y Hk') as [Hkplain _].
    apply (HQ [k]); [by constructor | done | |].
    + right. split; [done |]. exists k. simpl. by rewrite Hk.
    + left. simpl. by rewrite Hk'.
Qed.

(** X23: the records carry the values at their path: when the keys of both
    trees are not empty and have no dot, a record of
    [FindDifferencesWithValues] at a path without an index has on each
    side the value that [getValueAtPath] finds there in the tree of that
    side, or nil where [getValueAtPath] fails for a missing key. *)
Theorem FindDifferencesWithValues_values (left right : gmap string value)
    (path : string) (d : DiffValue) :
  plain_keys (VMap left) = true → plain_keys (VMap right) = true →
  FindDifferencesWithValues left right !! path = Some d →
  has_char "[" path = false →
  (getValueAtPath (VMap left) path = Ok (Left d) ∨
   Left d = VNil ∧
   ∃ key, getValueAtPath (VMap left) path = Err (KeyNotFound key)) ∧
  (getValueAtPath (VMap right) path = Ok (Right d) ∨
   Right d = VNil ∧
   ∃ key, getValueAtPath (VMap right) path = Err (KeyNotFound key)).
Proof.
  intros Hpl Hpr Hd Hbr.
  pose (Q := λ (p : string) (rec : DiffValue),
    has_char "[" p = false →
    (getValueAtPath (VMap left) p = Ok (Left rec) ∨
     Left rec = VNil ∧
     ∃ key, getValueAtPath (VMap left) p = Err (KeyNotFound key)) ∧
    (getValueAtPath (VMap right) p = Ok (Right rec) ∨
     Right rec = VNil ∧
     ∃ key, getValueAtPath (VMap right) p = Err (KeyNotFound key))).
  cut (map_Forall Q (FindDifferencesWithValues left right));
    [intros H; by apply (H path d) |].
  apply findDifferencesWithValues_records; try done.
  - intros p rec Hp Hp'. congruence.
  - intros keys rec Hkeys Hne Hl Hr _.
    assert (Hkeys' : keys ≠ []) by (intros ->; by destruct (Hne eq_refl)).
    assert (Hjoin : foldl buildPath "" keys = foldl joinKey "" keys).
    { apply foldl_ext. intros b a. symmetry. apply joinKey_buildPath. }
    rewrite Hjoin.
    destruct (splitPath_joinKeys keys Hkeys Hkeys') as [_ Hsplit].
    rewrite !getValueAtPath_unfold, Hsplit. done.
Qed.

Lemma FindDifferencesWithValues_values_witness :
  (getValueAtPath (VMap {["a" := VInt KInt 1]}) "b" =
     Ok (Left {| Left := VNil; Right := VString "new";
                 Type_ := DiffTypeAdded |}) ∨
   Left {| Left := VNil; Right := VString "new"; Type_ := DiffTypeAdded |}
     = VNil ∧
   ∃ key, getValueAtPath (VMap {["a" := VInt KInt 1]}) "b" =
          Err (KeyNotFound key)) ∧
  (getValueAtPath (VMap (<["a" := VInt KInt 1]> {["b" := VString "new"]})) "b"
     = Ok (Right {| Left := VNil; Right := VString "new";
                    Type_ := DiffTypeAdded |}) ∨
   Right {| Left := VNil; Right := VString "new"; Type_ := DiffTypeAdded |}
     = VNil ∧
   ∃ key,
     getValueAtPath (VMap (<["a" := VInt KInt 1]> {["b" := VString "new"]}))
       "b" = Err (KeyNotFound key)).
Proof.
  apply (FindDifferencesWithValues_values
           {["a" := VInt KInt 1]}
           (<["a" := VInt KInt 1]> {["b" := VString "new"]}) "b").
  - vm_compute. reflexivity.
  - vm_compute. reflexivity.
  - vm_compute. reflexivity.
  - vm_compute. reflexivity.
Defined.

(** *** The mappings in place *)

Import Store.

(** *** setValueAtPath in place: all or nothing *)

Lemma setValueAtPath_loop_fresh (value : val) (keys : list string) :
  keys ≠ [] →
  ∀ current h,
    h !! current = Some (OMap ∅) →
    (setValueAtPath_loop current keys value h).1 = Done ().
Proof.
  induction keys as [| key keys IH]; intros Hne current h Hcur; [done |].
  destruct keys as [| key2 keys].
  - simpl. unfold map_store. by rewrite Hcur.
  - set (rest := key2 :: keys) in *.
    change (setValueAtPath_loop current (key :: rest) value)
      with (m ← read_map current;
            match m !! key with
            | Some (MapRef nextMap) => setValueAtPath_loop nextMap rest value
            | Some _ => fail (NonMapNavigate key)
            | None =>
                newMap ← alloc (OMap ∅);
                map_store current key (MapRef newMap) ≫= λ _,
                setValueAtPath_loop newMap rest value
            end).
    rewrite (run_bind _ _ h h ∅) by (by apply run_read_map).
    rewrite lookup_empty.
    rewrite (run_bind _ _ _ _ _ (run_alloc _ _)).
    pose proof (lookup_lt_Some _ _ _ Hcur) as Hlt.
    erewrite run_bind;
      [| apply run_map_store; by rewrite lookup_app_l].
    apply IH; [done |].
    rewrite list_lookup_insert_ne by lia.
    by rewrite lookup_app_r, Nat.sub_diag.
Qed.

Lemma setValueAtPath_loop_atomic (value : val) (keys : list string) :
  ∀ current h,
    (setValueAtPath_loop current keys value h).1 = Done () ∨
    (setValueAtPath_loop current keys value h).2 = h.
Proof.
  induction keys as [| key keys IH]; intros current h; [by right |].
  destruct keys as [| key2 keys].
  - simpl. unfold map_store. destruct (h !! current) as [[m | xs] |]; auto.
  - set (rest := key2 :: keys) in *.
    change (setValueAtPath_loop current (key :: rest) value)
      with (m ← read_map current;
            match m !! key with
            | Some (MapRef nextMap) => setValueAtPath_loop nextMap rest value
            | Some _ => fail (NonMapNavigate key)
            | None =>
                newMap ← alloc (OMap ∅);
                map_store current key (MapRef newMap) ≫= λ _,
                setValueAtPath_loop newMap rest value
            end).
    destruct (h !! current) as [[m | xs] |] eqn:Hcur;
      try (right; unfold mbind, M_bind, read_map; by rewrite Hcur).
    rewrite (run_bind _ _ h h m) by (by apply run_read_map).
    destruct (m !! key) as [[| | | | | | nextMap] |]; try (by right).
    + apply IH.
    + left.
      rewrite (run_bind _ _ _ _ _ (run_alloc _ _)).
      pose proof (lookup_lt_Some _ _ _ Hcur) as Hlt.
      erewrite run_bind;
        [| apply run_map_store; by rewrite lookup_app_l].
      apply setValueAtPath_loop_fresh; [done |].
      rewrite list_lookup_insert_ne by lia.
      by rewrite lookup_app_r, Nat.sub_diag.
Qed.

(** X28: [setValueAtPath] on the mappings in place is all or nothing: when
    it does not return normally (an error, the panic of a path made of
    dots, a reference that is no mapping), it has written nothing. *)
Theorem setValueAtPath_all_or_nothing (data : loc) (path : string)
    (value : val) (h : store) :
  (setValueAtPath data path value h).1 = Done () ∨
  (setValueAtPath data path value h).2 = h.
Proof.
  unfold setValueAtPath. case_decide; [by right |].
  apply setValueAtPath_loop_atomic.
Qed.

(** *** copyMap makes a deep copy *)

Lemma prefix_of_lookups {A} (l l' : list A) :
  length l ≤ length l' →
  (∀ i, i < length l → l' !! i = l !! i) →
  l `prefix_of` l'.
Proof.
  intros Hlen Hlook. exists (drop (length l) l').
  rewrite <- (take_drop (length l) l') at 1. f_equal.
  apply list_eq. intros i.
  destruct (decide (i < length l)) as [Hi | Hi].
  - rewrite lookup_take_lt by done. by apply Hlook.
  - rewrite lookup_take_ge by lia. symmetry. apply lookup_ge_None. lia.
Qed.

Lemma repr_singleton (h : store) (l : loc) (key : string) (v : val)
    (t : value) :
  h !! l = Some (OMap {[key := v]}) → repr h v t →
  repr h (MapRef l) (VMap {[key := t]}).
Proof.
  intros Hl Hv. eapply repr_map; [done |]. intros k.
  destruct (decide (k = key)) as [-> | Hne].
  - rewrite !lookup_singleton_eq. by constructor.
  - rewrite !lookup_singleton_ne by done. constructor.
Qed.

(** X29: [copyMap] into a new empty mapping makes a deep copy: with
    recursion budget for the size of the tree it returns, no object that
    was in the store is changed, and the destination stands for the tree
    the source stands for, in objects that are all new and reached along
    one route only. *)
Theorem copyMap_deep_copy (fuel : nat) (h : store) (src : loc)
    (tm : gmap string value) :
  repr h (MapRef src) (VMap tm) →
  vsize (VMap tm) ≤ fuel →
  ∃ h',
    copyMap fuel src (length h) (h ++ [OMap ∅]) = (Done (), h') ∧
    h `prefix_of` h' ∧
    repr h' (MapRef (length h)) (VMap tm) ∧
    own h' (MapRef (length h)) (VMap tm) (λ x, length h ≤ x).
Proof.
  intros Hrepr Hfuel.
  destruct (proj1 (copy_spec h fuel) tm src (length h) (h ++ [OMap ∅]) ∅)
    as (h' & Hcopy & Hcopied); try done.
  { intros l o Hl. rewrite lookup_app_l; [done | by eapply lookup_lt_Some]. }
  { by rewrite lookup_app_r, Nat.sub_diag. }
  exists h'. split; [done |].
  pose proof (copied_map_own _ _ _ _ Hcopied) as Hown.
  rewrite length_app in Hown. simpl in Hown. specialize (Hown ltac:(lia)).
  destruct Hcopied as (ks & _ & Hlen & Hframe & _).
  rewrite length_app in Hlen, Hframe. simpl in Hlen, Hframe.
  assert (Hown' : own h' (MapRef (length h)) (VMap tm) (λ x, length h ≤ x)).
  { eapply own_weaken; [exact Hown |]. unfold interval.
    intros x [-> | Hx]; lia. }
  split_and!; [| by eapply own_repr | done].
  apply prefix_of_lookups; [lia |].
  intros i Hi. rewrite Hframe by lia. by rewrite lookup_app_l.
Qed.

Lemma copyMap_deep_copy_witness :
  ∃ h',
    copyMap 3 0 2
      ([OMap {["server" := MapRef 1]}; OMap {["port" := Int KInt 80]}]
         ++ [OMap ∅]) = (Done (), h') ∧
    [OMap {["server" := MapRef 1]}; OMap {["port" := Int KInt 80]}]
      `prefix_of` h' ∧
    repr h' (MapRef 2) (VMap {["server" := VMap {["port" := VInt KInt 80]}]}) ∧
    own h' (MapRef 2) (VMap {["server" := VMap {["port" := VInt KInt 80]}]})
        (λ x, 2 ≤ x).
Proof.
  apply (copyMap_deep_copy 3
           [OMap {["server" := MapRef 1]}; OMap {["port" := Int KInt 80]}] 0
           {["server" := VMap {["port" := VInt KInt 80]}]}).
  - eapply repr_singleton; [done |].
    eapply repr_singleton; [done |]. constructor.
  - vm_compute. lia.
Defined.

Lemma modifyValueAtPath_refines_witness :
  agrees
    (Tree.modifyValueAtPath (λ _, 0%Z)
       {["server" := VMap {["port" := VInt KInt 80]}]} "server.port"
       ValueTypeInt)
    (modifyValueAtPath (λ _, 0%Z) 3 0 "server.port" ValueTypeInt
       [OMap {["server" := MapRef 1]}; OMap {["port" := Int KInt 80]}]).
Proof.
  apply (modifyValueAtPath_refines (λ _, 0%Z) 3
           [OMap {["server" := MapRef 1]}; OMap {["port" := Int KInt 80]}] 0
           {["server" := VMap {["port" := VInt KInt 80]}]}).
  - eapply repr_singleton; [done |].
    eapply repr_singleton; [done |]. constructor.
  - vm_compute. lia.
Defined.
